(** * JSC::Profiler::Database

    A shallow embedding of
    [Source/JavaScriptCore/profiler/ProfilerDatabase.cpp] together with the
    properties of the profile store, of its serialization and of the
    process-wide save-at-exit list.

    Conventions of the embedding.
    - A non-null pointer is a [positive] (its address); a nullable pointer is
      an [option].  [CodeBlock] and [Compilation] objects belong to the host
      runtime and are only ever handled through their address.
    - [m_bytecodes] is a [SegmentedVector<Bytecodes>], whose elements never
      move: a [Bytecodes*] is therefore modelled by the position of the
      element it points to.
    - Container sizes are [nat]: a container never holds more elements than
      the address space has bytes, so [size()] arithmetic does not wrap; the
      [unsigned] counters of the loops of [toJS] are taken to cover the
      collections, which hold fewer than [2^32] entries.
    - The store lock, the registration lock and [ASSERT(!isCompilationThread())]
      constrain the interleaving of threads; the embedding is sequential and
      every operation is one atomic step. *)

From stdpp Require Import gmap strings list fin_maps pretty.

(** ** Values of the host runtime *)

Abbreviation CodeBlockPtr := positive (only parsing).
Abbreviation CompilationPtr := positive (only parsing).
Abbreviation DatabasePtr := positive (only parsing).
Abbreviation BytecodesPtr := nat (only parsing).

(** [currentTime()] yields a [double]; the store only keeps it, so it is
    carried around as its 64-bit pattern. *)
Abbreviation double := Z (only parsing).

(** The fragment of JavaScript values [Database::toJS] builds.  An object
    keeps its properties in insertion order. *)
#[warnings="-register-all"]
Inductive JSValue :=
| JSUndefined
| JSNull
| JSNumber (n : Z)
| JSString (s : string)
| JSArray (elems : list JSValue)
| JSObject (props : list (string * JSValue)).

(** [JSArray::putDirectIndex(exec, i, v)]: stores at index [i]; an index past
    the end grows the array, the skipped slots reading as [undefined]. *)
Definition putDirectIndex (i : nat) (v : JSValue) (elems : list JSValue)
  : list JSValue :=
  if decide (i < length elems) then <[i := v]> elems
  else elems ++ replicate (i - length elems) JSUndefined ++ [v].

(** [JSObject::putDirect(vm, name, v)]: overwrites the property when the
    object has it, adds it after the existing ones otherwise. *)
Fixpoint putDirect (name : string) (v : JSValue) (props : list (string * JSValue))
  : list (string * JSValue) :=
  match props with
  | [] => [(name, v)]
  | (n, x) :: ps =>
      if decide (n = name) then (n, v) :: ps else (n, x) :: putDirect name v ps
  end.

(** Modelled from the spec: the identifiers [exec->propertyNames().bytecodes],
    [.compilations] and [.events] come from the runtime's table of common
    identifiers, which is not part of this file; the spec gives the field
    names [bytecodes], [compilations], [events]. *)
Module propertyNames.
Definition bytecodes : string := "bytecodes".
Definition compilations : string := "compilations".
Definition events : string := "events".
End propertyNames.

(** ** Data model *)

(** [Profiler::Bytecodes], built from a [size_t id] and a [CodeBlock]. *)
Record Bytecodes := mkBytecodes {
  bc_id : nat;
  bc_codeBlock : CodeBlockPtr;
}.

(** [Profiler::Event], built from a time, a [Bytecodes] pointer, a
    [Compilation] pointer that may be null, a summary and a detail string. *)
Record Event := mkEvent {
  ev_time : double;
  ev_bytecodes : BytecodesPtr;
  ev_compilation : option CompilationPtr;
  ev_summary : string;
  ev_detail : string;
}.

(** The members of [Profiler::Database]. *)
Record Database := mkDatabase {
  m_databaseID : Z;
  m_bytecodes : list Bytecodes;
  m_bytecodesMap : gmap positive nat;
  m_compilations : list CompilationPtr;
  m_compilationMap : gmap positive positive;
  m_events : list Event;
  m_shouldSaveAtExit : bool;
  m_atExitSaveFilename : string;
  m_nextRegisteredDatabase : option DatabasePtr;
}.

#[global] Instance Bytecodes_eq_dec : EqDecision Bytecodes.
Proof. solve_decision. Defined.

Definition with_bytecodes (v : list Bytecodes) (db : Database) : Database :=
  mkDatabase (m_databaseID db) v (m_bytecodesMap db) (m_compilations db)
    (m_compilationMap db) (m_events db) (m_shouldSaveAtExit db)
    (m_atExitSaveFilename db) (m_nextRegisteredDatabase db).

Definition with_bytecodesMap (v : gmap positive nat) (db : Database) : Database :=
  mkDatabase (m_databaseID db) (m_bytecodes db) v (m_compilations db)
    (m_compilationMap db) (m_events db) (m_shouldSaveAtExit db)
    (m_atExitSaveFilename db) (m_nextRegisteredDatabase db).

Definition with_compilations (v : list CompilationPtr) (db : Database) : Database :=
  mkDatabase (m_databaseID db) (m_bytecodes db) (m_bytecodesMap db) v
    (m_compilationMap db) (m_events db) (m_shouldSaveAtExit db)
    (m_atExitSaveFilename db) (m_nextRegisteredDatabase db).

Definition with_compilationMap (v : gmap positive positive) (db : Database)
  : Database :=
  mkDatabase (m_databaseID db) (m_bytecodes db) (m_bytecodesMap db)
    (m_compilations db) v (m_events db) (m_shouldSaveAtExit db)
    (m_atExitSaveFilename db) (m_nextRegisteredDatabase db).

Definition with_events (v : list Event) (db : Database) : Database :=
  mkDatabase (m_databaseID db) (m_bytecodes db) (m_bytecodesMap db)
    (m_compilations db) (m_compilationMap db) v (m_shouldSaveAtExit db)
    (m_atExitSaveFilename db) (m_nextRegisteredDatabase db).

Definition with_shouldSaveAtExit (v : bool) (db : Database) : Database :=
  mkDatabase (m_databaseID db) (m_bytecodes db) (m_bytecodesMap db)
    (m_compilations db) (m_compilationMap db) (m_events db) v
    (m_atExitSaveFilename db) (m_nextRegisteredDatabase db).

Definition with_atExitSaveFilename (v : string) (db : Database) : Database :=
  mkDatabase (m_databaseID db) (m_bytecodes db) (m_bytecodesMap db)
    (m_compilations db) (m_compilationMap db) (m_events db)
    (m_shouldSaveAtExit db) v (m_nextRegisteredDatabase db).

Definition with_nextRegisteredDatabase (v : option DatabasePtr) (db : Database)
  : Database :=
  mkDatabase (m_databaseID db) (m_bytecodes db) (m_bytecodesMap db)
    (m_compilations db) (m_compilationMap db) (m_events db)
    (m_shouldSaveAtExit db) (m_atExitSaveFilename db) v.

(** ** The host runtime

    What the file calls into and does not define: the canonical (baseline)
    variant of a code block, the serialization of the three kinds of
    entries, and the JSON encoder.  [Event::toJS] follows the event's
    [Bytecodes*], hence receives the collection it points into. *)
Class HostRuntime := {
  baselineVersion : CodeBlockPtr → CodeBlockPtr;
  Bytecodes_toJS : Bytecodes → JSValue;
  Compilation_toJS : CompilationPtr → JSValue;
  Event_toJS : list Bytecodes → Event → JSValue;
  JSONStringify : JSValue → string;
}.

(** ** [WTF::HashMap] *)

(** [HashMap::add(key, value)] does not overwrite an existing entry. *)
Definition HashMap_add `{Countable K} {V} (k : K) (v : V) (m : gmap K V)
  : gmap K V :=
  match m !! k with
  | Some _ => m
  | None => <[k := v]> m
  end.

(** [HashMap::set(key, value)] inserts or overwrites. *)
Definition HashMap_set `{Countable K} {V} (k : K) (v : V) (m : gmap K V)
  : gmap K V := <[k := v]> m.

(** [HashMap::remove(key)]. *)
Definition HashMap_remove `{Countable K} {V} (k : K) (m : gmap K V)
  : gmap K V := delete k m.

(** ** The profile store *)

Section Store.
Context `{HostRuntime}.

(** [Database::ensureBytecodesFor], the overload that runs under the lock. *)
Definition ensureBytecodesFor (codeBlock : CodeBlockPtr) (db : Database)
  : BytecodesPtr * Database :=
  let codeBlock := baselineVersion codeBlock in
  match m_bytecodesMap db !! codeBlock with
  | Some iter_value => (iter_value, db)
  | None =>
      let db :=
        with_bytecodes
          (m_bytecodes db ++ [mkBytecodes (length (m_bytecodes db)) codeBlock])
          db in
      let result := pred (length (m_bytecodes db)) in
      let db :=
        with_bytecodesMap (HashMap_add codeBlock result (m_bytecodesMap db)) db in
      (result, db)
  end.

(** [Database::notifyDestruction] *)
Definition notifyDestruction (codeBlock : CodeBlockPtr) (db : Database)
  : Database :=
  let db := with_bytecodesMap (HashMap_remove codeBlock (m_bytecodesMap db)) db in
  with_compilationMap (HashMap_remove codeBlock (m_compilationMap db)) db.

(** [Database::addCompilation] *)
Definition addCompilation (codeBlock : CodeBlockPtr)
    (compilation : CompilationPtr) (db : Database) : Database :=
  let db := with_compilations (m_compilations db ++ [compilation]) db in
  with_compilationMap (HashMap_set codeBlock compilation (m_compilationMap db)) db.

(** [Database::logEvent]; [now] is the value [currentTime()] returns during
    the call. *)
Definition logEvent (now : double) (codeBlock : CodeBlockPtr)
    (summary detail : string) (db : Database) : Database :=
  let '(bytecodes, db) := ensureBytecodesFor codeBlock db in
  let compilation := m_compilationMap db !! codeBlock in
  with_events
    (m_events db ++ [mkEvent now bytecodes compilation summary detail]) db.

(** The loops of [Database::toJS]:
    [for (unsigned i = 0; i < v.size(); ++i) a->putDirectIndex(exec, i, f(v[i]))]
    on an array that starts empty. *)
Definition fillArray {A} (f : A → JSValue) (v : list A) : list JSValue :=
  foldl (λ a i, match v !! i with
                | Some x => putDirectIndex i (f x) a
                | None => a
                end)
        [] (seq 0 (length v)).

(** [Database::toJS].  Each array is complete before it is
    stored in [result] and is not written afterwards. *)
Definition toJS (db : Database) : JSValue :=
  let result := [] in
  let bytecodes := fillArray Bytecodes_toJS (m_bytecodes db) in
  let result := putDirect propertyNames.bytecodes (JSArray bytecodes) result in
  let compilations := fillArray Compilation_toJS (m_compilations db) in
  let result := putDirect propertyNames.compilations (JSArray compilations) result in
  let events := fillArray (Event_toJS (m_bytecodes db)) (m_events db) in
  let result := putDirect propertyNames.events (JSArray events) result in
  JSObject result.

(** [Database::toJSON()].  The global object it creates for the encoder
    lives in the virtual machine, outside the state modelled here. *)
Definition toJSON (db : Database) : string := JSONStringify (toJS db).

End Store.

(** ** The process: live stores, static variables, files *)

(** One call of [Database::save]: the receiver, the file name it was given
    and whether [FilePrintStream::open] succeeded. *)
Record SaveCall := mkSaveCall {
  sc_database : DatabasePtr;
  sc_filename : string;
  sc_opened : bool;
}.

#[global] Instance SaveCall_eq_dec : EqDecision SaveCall.
Proof. solve_decision. Defined.

(** The state of the process as far as this file reads or writes it.
    - [heap]: the [Database] objects that are alive, by address;
    - [databaseCounter], [didRegisterAtExit], [firstDatabase]: the statics
      of the file;
    - [atexitHandlers]: how many times [atexit(atExitCallback)] was called;
    - [writable], [files]: which paths [fopen(path, "w")] can open, and the
      contents of the files written so far;
    - [saves]: the calls of [Database::save], oldest first. *)
Record World := mkWorld {
  heap : gmap positive Database;
  databaseCounter : Z;
  didRegisterAtExit : Z;
  firstDatabase : option DatabasePtr;
  atexitHandlers : nat;
  writable : string → bool;
  files : gmap string string;
  saves : list SaveCall;
}.

Definition with_heap (v : gmap positive Database) (w : World) : World :=
  mkWorld v (databaseCounter w) (didRegisterAtExit w) (firstDatabase w)
    (atexitHandlers w) (writable w) (files w) (saves w).

Definition with_databaseCounter (v : Z) (w : World) : World :=
  mkWorld (heap w) v (didRegisterAtExit w) (firstDatabase w)
    (atexitHandlers w) (writable w) (files w) (saves w).

Definition with_didRegisterAtExit (v : Z) (w : World) : World :=
  mkWorld (heap w) (databaseCounter w) v (firstDatabase w)
    (atexitHandlers w) (writable w) (files w) (saves w).

Definition with_firstDatabase (v : option DatabasePtr) (w : World) : World :=
  mkWorld (heap w) (databaseCounter w) (didRegisterAtExit w) v
    (atexitHandlers w) (writable w) (files w) (saves w).

Definition with_atexitHandlers (v : nat) (w : World) : World :=
  mkWorld (heap w) (databaseCounter w) (didRegisterAtExit w) (firstDatabase w)
    v (writable w) (files w) (saves w).

Definition with_files (v : gmap string string) (w : World) : World :=
  mkWorld (heap w) (databaseCounter w) (didRegisterAtExit w) (firstDatabase w)
    (atexitHandlers w) (writable w) v (saves w).

Definition with_saves (v : list SaveCall) (w : World) : World :=
  mkWorld (heap w) (databaseCounter w) (didRegisterAtExit w) (firstDatabase w)
    (atexitHandlers w) (writable w) (files w) v.

(** Writing through a [Database*] that is alive. *)
Definition store (this : DatabasePtr) (db : Database) (w : World) : World :=
  with_heap (<[this := db]> (heap w)) w.

(** [std::atomic<int>] arithmetic wraps around in two's complement. *)
Definition wrapInt (z : Z) : Z := ((z + 2 ^ 31) `mod` 2 ^ 32 - 2 ^ 31)%Z.

(** A [Database**]: the address of [firstDatabase] or of the
    [m_nextRegisteredDatabase] member of a store. *)
Inductive Slot :=
| SlotFirst
| SlotNext (d : DatabasePtr).

(** A freshly constructed store. *)
Definition newDatabase (id : Z) : Database :=
  mkDatabase id [] ∅ [] ∅ [] false "" None.

(** The operations below return [None] when the run reads or writes a store
    that is not alive, or does not return. *)
Section Process.
Context `{HostRuntime}.

Definition readSlot (s : Slot) (w : World) : option (option DatabasePtr) :=
  match s with
  | SlotFirst => Some (firstDatabase w)
  | SlotNext d => m_nextRegisteredDatabase <$> heap w !! d
  end.

Definition writeSlot (s : Slot) (v : option DatabasePtr) (w : World)
  : option World :=
  match s with
  | SlotFirst => Some (with_firstDatabase v w)
  | SlotNext d =>
      db ← heap w !! d;
      Some (store d (with_nextRegisteredDatabase v db) w)
  end.

(** [Database::Database(VM&)], run on the fresh address [this]. *)
Definition construct (this : DatabasePtr) (w : World) : option World :=
  match heap w !! this with
  | Some _ => None
  | None =>
      let w := with_databaseCounter (wrapInt (databaseCounter w + 1)) w in
      Some (store this (newDatabase (databaseCounter w)) w)
  end.

(** A store operation run on the store at [this]. *)
Definition onDatabase (f : Database → Database) (this : DatabasePtr) (w : World)
  : option World :=
  db ← heap w !! this;
  Some (store this (f db) w).

(** [Database::save(const char* filename) const].  Opening with mode ["w"]
    truncates the file; [print] then appends the text to it. *)
Definition save (this : DatabasePtr) (filename : string) (w : World)
  : option (bool * World) :=
  db ← heap w !! this;
  let out := writable w filename in
  let w := with_saves (saves w ++ [mkSaveCall this filename out]) w in
  if negb out then Some (false, w)
  else
    let w := with_files (<[filename := ""]> (files w)) w in
    let w := with_files (alter (λ old, old +:+ toJSON db) filename (files w)) w in
    Some (true, w).

(** [Database::addDatabaseToAtExit()] *)
Definition addDatabaseToAtExit (this : DatabasePtr) (w : World) : option World :=
  let w := with_didRegisterAtExit (wrapInt (didRegisterAtExit w + 1)) w in
  let w :=
    if decide (didRegisterAtExit w = 1%Z)
    then with_atexitHandlers (S (atexitHandlers w)) w
    else w in
  db ← heap w !! this;
  let w := store this (with_nextRegisteredDatabase (firstDatabase w) db) w in
  Some (with_firstDatabase (Some this) w).

(** [Database::registerToSaveAtExit(const char* filename)] *)
Definition registerToSaveAtExit (this : DatabasePtr) (filename : string)
    (w : World) : option World :=
  db ← heap w !! this;
  let w := store this (with_atExitSaveFilename filename db) w in
  if m_shouldSaveAtExit db then Some w
  else
    w ← addDatabaseToAtExit this w;
    db ← heap w !! this;
    Some (store this (with_shouldSaveAtExit true db) w).

(** The loop of [Database::removeDatabaseFromAtExit()], entered with
    [current] and bounded by [fuel] iterations. *)
Fixpoint removeLoop (fuel : nat) (this : DatabasePtr) (current : Slot)
    (w : World) : option World :=
  match fuel with
  | O => None
  | S fuel =>
      cur ← readSlot current w;
      match cur with
      | None => Some w
      | Some c =>
          if decide (c ≠ this) then removeLoop fuel this (SlotNext c) w
          else
            db ← heap w !! this;
            w ← writeSlot current (m_nextRegisteredDatabase db) w;
            db ← heap w !! this;
            let w := store this (with_nextRegisteredDatabase None db) w in
            db ← heap w !! this;
            Some (store this (with_shouldSaveAtExit false db) w)
      end
  end.

(** [Database::removeDatabaseFromAtExit()].  The walk visits each slot at
    most once unless the list is cyclic, so it either ends within one
    iteration per live store plus one, or never. *)
Definition removeDatabaseFromAtExit (this : DatabasePtr) (w : World)
  : option World :=
  removeLoop (S (size (heap w))) this SlotFirst w.

(** [Database::performAtExitSave() const] *)
Definition performAtExitSave (this : DatabasePtr) (w : World) : option World :=
  db ← heap w !! this;
  r ← save this (m_atExitSaveFilename db) w;
  Some r.2.

(** [Database::removeFirstAtExitDatabase()] *)
Definition removeFirstAtExitDatabase (w : World)
  : option (option DatabasePtr * World) :=
  match firstDatabase w with
  | None => Some (None, w)
  | Some result =>
      db ← heap w !! result;
      let w := with_firstDatabase (m_nextRegisteredDatabase db) w in
      let w := store result (with_nextRegisteredDatabase None db) w in
      db ← heap w !! result;
      let w := store result (with_shouldSaveAtExit false db) w in
      Some (Some result, w)
  end.

(** The loop of [Database::atExitCallback()], bounded by [fuel] iterations. *)
Fixpoint atExitLoop (fuel : nat) (w : World) : option World :=
  match fuel with
  | O => None
  | S fuel =>
      r ← removeFirstAtExitDatabase w;
      match r.1 with
      | None => Some r.2
      | Some database =>
          w ← performAtExitSave database r.2;
          atExitLoop fuel w
      end
  end.

(** [Database::atExitCallback()].  Every pop but the last clears a link
    that was set, so the loop pops at most once per live store plus once;
    one more iteration finds the list empty. *)
Definition atExitCallback (w : World) : option World :=
  atExitLoop (S (S (size (heap w)))) w.

(** [Database::~Database()], after which the object is gone. *)
Definition destroy (this : DatabasePtr) (w : World) : option World :=
  db ← heap w !! this;
  w ← (if m_shouldSaveAtExit db
       then w ← removeDatabaseFromAtExit this w; performAtExitSave this w
       else Some w);
  Some (with_heap (delete this (heap w)) w).

End Process.

(** ** Runs of store operations *)

Inductive StoreOp :=
| OpEnsureBytecodesFor (codeBlock : CodeBlockPtr)
| OpNotifyDestruction (codeBlock : CodeBlockPtr)
| OpAddCompilation (codeBlock : CodeBlockPtr) (compilation : CompilationPtr)
| OpLogEvent (now : double) (codeBlock : CodeBlockPtr) (summary detail : string).

(** [destroysHandle c op]: [op] is [notifyDestruction] called on [c]. *)
Definition destroysHandle (c : CodeBlockPtr) (op : StoreOp) : bool :=
  match op with
  | OpNotifyDestruction c' => bool_decide (c' = c)
  | _ => false
  end.

Section StoreRuns.
Context `{HostRuntime}.

Definition stepStore (db : Database) (op : StoreOp) : Database :=
  match op with
  | OpEnsureBytecodesFor c => (ensureBytecodesFor c db).2
  | OpNotifyDestruction c => notifyDestruction c db
  | OpAddCompilation c r => addCompilation c r db
  | OpLogEvent now c s d => logEvent now c s d db
  end.

Definition runStore (ops : list StoreOp) (db : Database) : Database :=
  foldl stepStore db ops.

(** Recording the compilations [calls] one after the other. *)
Definition addCompilations (calls : list (CodeBlockPtr * CompilationPtr))
    (db : Database) : Database :=
  foldl (λ db call, addCompilation call.1 call.2 db) db calls.

End StoreRuns.

(** [registerToSaveAtExit] called on the same store with each of [paths] in
    turn. *)
Fixpoint registerEach (this : DatabasePtr) (paths : list string) (w : World)
  : option World :=
  match paths with
  | [] => Some w
  | filename :: paths =>
      w ← registerToSaveAtExit this filename w;
      registerEach this paths w
  end.

(** ** Runs of the process *)

(** What the clients of the file and the C runtime can do: construct a
    store on an address, call a store operation, [save] or
    [registerToSaveAtExit] on a store, destroy a store, and run the exit
    handler. *)
Inductive ProcessOp :=
| PConstruct (this : DatabasePtr)
| PStore (this : DatabasePtr) (op : StoreOp)
| PSave (this : DatabasePtr) (filename : string)
| PRegisterToSaveAtExit (this : DatabasePtr) (filename : string)
| PDestroy (this : DatabasePtr)
| PAtExitCallback.

(** [op] destroys the store [this] or runs the exit handler. *)
Definition flushTrigger (this : DatabasePtr) (op : ProcessOp) : bool :=
  match op with
  | PDestroy d => bool_decide (d = this)
  | PAtExitCallback => true
  | _ => false
  end.

(** [op] calls [save] or [registerToSaveAtExit] on the store [this]. *)
Definition requestsSave (this : DatabasePtr) (op : ProcessOp) : bool :=
  match op with
  | PSave d _ | PRegisterToSaveAtExit d _ => bool_decide (d = this)
  | _ => false
  end.

(** [op] calls [registerToSaveAtExit] on the store [this]. *)
Definition registersAgain (this : DatabasePtr) (op : ProcessOp) : bool :=
  match op with
  | PRegisterToSaveAtExit d _ => bool_decide (d = this)
  | _ => false
  end.

(** [op] is a call of [save] on the store [this] made by a client, not by
    the destructor or the exit handler. *)
Definition savesDirectly (this : DatabasePtr) (op : ProcessOp) : bool :=
  match op with
  | PSave d _ => bool_decide (d = this)
  | _ => false
  end.

(** [op] constructs a store at the address [this]. *)
Definition constructsAt (this : DatabasePtr) (op : ProcessOp) : bool :=
  match op with
  | PConstruct d => bool_decide (d = this)
  | _ => false
  end.

(** The file name the store [this] holds after [op], when it held [f]
    before: [registerToSaveAtExit] assigns [m_atExitSaveFilename] first. *)
Definition pathAfter (this : DatabasePtr) (f : string) (op : ProcessOp)
  : string :=
  match op with
  | PRegisterToSaveAtExit d f' => if decide (d = this) then f' else f
  | _ => f
  end.

(** The file name [this] holds after the calls of [ops]. *)
Definition lastPath (this : DatabasePtr) (f : string) (ops : list ProcessOp)
  : string :=
  foldl (pathAfter this) f ops.

(** The entry [op] logs for [this] when it is a client's call of [save] on
    [this]; [canOpen] tells which paths can be opened. *)
Definition directSave (this : DatabasePtr) (canOpen : string → bool)
    (op : ProcessOp) : list SaveCall :=
  match op with
  | PSave d f => if decide (d = this) then [mkSaveCall d f (canOpen f)] else []
  | _ => []
  end.

Section ProcessRuns.
Context `{HostRuntime}.

Definition stepProcess (w : World) (op : ProcessOp) : option World :=
  match op with
  | PConstruct this => construct this w
  | PStore this op => onDatabase (λ db, stepStore db op) this w
  | PSave this filename => snd <$> save this filename w
  | PRegisterToSaveAtExit this filename => registerToSaveAtExit this filename w
  | PDestroy this => destroy this w
  | PAtExitCallback => atExitCallback w
  end.

Fixpoint runProcess (ops : list ProcessOp) (w : World) : option World :=
  match ops with
  | [] => Some w
  | op :: ops => w ← stepProcess w op; runProcess ops w
  end.

End ProcessRuns.

(** ** Invariants *)

(** The store invariant: both indices point into their collection, a handle
    is a key at most once per index, and the profile at position [i] has
    id [i]. *)
Record store_inv (db : Database) : Prop := mkStoreInv {
  inv_bytecodesMap :
    ∀ h p, m_bytecodesMap db !! h = Some p → is_Some (m_bytecodes db !! p);
  inv_compilationMap :
    ∀ h c, m_compilationMap db !! h = Some c → c ∈ m_compilations db;
  inv_bytecodesKeys : NoDup (map_to_list (m_bytecodesMap db)).*1;
  inv_compilationKeys : NoDup (map_to_list (m_compilationMap db)).*1;
  inv_ids : ∀ i b, m_bytecodes db !! i = Some b → bc_id b = i;
}.

(** The profile an index entry points to was created for the entry's key. *)
Definition index_consistent (db : Database) : Prop :=
  ∀ h p, m_bytecodesMap db !! h = Some p →
    ∃ b, m_bytecodes db !! p = Some b ∧ bc_codeBlock b = h.

(** A [Database] with the two members that the save-at-exit list writes
    behind the store's back blanked out. *)
Definition detached (db : Database) : Database :=
  with_shouldSaveAtExit false (with_nextRegisteredDatabase None db).

(** [segment h cur l stop]: following [m_nextRegisteredDatabase] from [cur]
    through the live stores of [h] visits exactly [l] and arrives at
    [stop]. *)
Fixpoint segment (h : gmap positive Database) (cur : option DatabasePtr)
    (l : list DatabasePtr) (stop : option DatabasePtr) : Prop :=
  match l with
  | [] => cur = stop
  | d :: l =>
      cur = Some d ∧
      ∃ db, h !! d = Some db ∧ segment h (m_nextRegisteredDatabase db) l stop
  end.

(** [chain h cur l]: the list that starts at [cur] is [l] and ends at a
    null link. *)
Definition chain (h : gmap positive Database) (cur : option DatabasePtr)
    (l : list DatabasePtr) : Prop :=
  segment h cur l None.

(** The slot reached from [current] after walking over the stores [l]. *)
Definition lastSlot (current : Slot) (l : list DatabasePtr) : Slot :=
  match last l with
  | Some d => SlotNext d
  | None => current
  end.

(** [registry_ok w l]: the save-at-exit list of [w] holds the stores [l],
    head first, each once, and these are the stores whose flag is set. *)
Record registry_ok (w : World) (l : list DatabasePtr) : Prop := mkRegistryOk {
  reg_chain : chain (heap w) (firstDatabase w) l;
  reg_nodup : NoDup l;
  reg_flag :
    ∀ d db, heap w !! d = Some db → (m_shouldSaveAtExit db = true ↔ d ∈ l);
}.

(** The entry [Database::save] logs when the store at [d] is flushed to the
    file name it holds in [w]. *)
Definition flushOf (w : World) (d : DatabasePtr) : list SaveCall :=
  match heap w !! d with
  | Some db =>
      [mkSaveCall d (m_atExitSaveFilename db)
         (writable w (m_atExitSaveFilename db))]
  | None => []
  end.

(** The calls of [save] made on [d] since the log had [n] entries. *)
Definition savesOf (d : DatabasePtr) (n : nat) (w : World) : list SaveCall :=
  filter (λ c, sc_database c = d) (drop n (saves w)).

(** A process in which nothing has run yet. *)
Definition newWorld (canOpen : string → bool) : World :=
  mkWorld ∅ 0 0 None 0 canOpen ∅ [].

(** The store [this] is on the save-at-exit list and holds the file name
    [f]. *)
Definition pending (this : DatabasePtr) (f : string) (w : World) : Prop :=
  ∃ l, registry_ok w l ∧ this ∈ l ∧
       m_atExitSaveFilename <$> heap w !! this = Some f.

(** The store [this] is not on the save-at-exit list (it may be gone). *)
Definition idle (this : DatabasePtr) (w : World) : Prop :=
  ∃ l, registry_ok w l ∧ this ∉ l.

(** From [w] to [w'] the log of [save] calls grew by [new]. *)
Definition logged (w w' : World) (new : list SaveCall) : Prop :=
  writable w' = writable w ∧ saves w' = saves w ++ new.

(** The exit handler is installed as soon as a registration was counted. *)
Definition handler_ok (w : World) : Prop :=
  atexitHandlers w = 0 → didRegisterAtExit w = 0%Z.

(** ** Statements about teardown *)

Section Teardown.
Context `{HostRuntime}.

(** "After [notifyDestruction h], [ensureBytecodesFor h] creates a new
    profile, distinct from the one [h] had, with a strictly larger id":
    [p] is the profile [h] resolves to in [db]. *)
Definition recreated_after_destruction (h : CodeBlockPtr) (db : Database)
  : Prop :=
  ∀ p, m_bytecodesMap db !! baselineVersion h = Some p →
    let r := ensureBytecodesFor h (notifyDestruction h db) in
    r.1 ≠ p ∧
    length (m_bytecodes r.2) = S (length (m_bytecodes db)) ∧
    ∃ old new,
      m_bytecodes r.2 !! p = Some old ∧
      m_bytecodes r.2 !! r.1 = Some new ∧
      bc_codeBlock new = baselineVersion h ∧
      bc_id old < bc_id new.

(** "The shutdown-save flush runs exactly once per store lifetime, by the
    exit handler or by the destructor, never by both": in a run that starts
    with the store [this] alive, constructs no store at [this] again (one
    lifetime) and does not call [save] on [this] (every logged save of
    [this] is then a flush), [this] is not flushed twice. *)
Definition flushed_once_per_lifetime (this : DatabasePtr) (w : World) : Prop :=
  is_Some (heap w !! this) →
  ∀ ops w',
    Forall (λ op, constructsAt this op = false ∧
                  savesDirectly this op = false) ops →
    runProcess ops w = Some w' →
    length (savesOf this (length (saves w)) w') ≤ 1.

End Teardown.

(** ** A small host runtime, for examples

    Code block 2 is an optimized variant of code block 1; every other code
    block is its own baseline version. *)

Definition dquote : string := String (Ascii.ascii_of_nat 34) EmptyString.

Fixpoint exampleStringify (v : JSValue) : string :=
  match v with
  | JSUndefined | JSNull => "null"
  | JSNumber n => pretty n
  | JSString s => dquote +:+ s +:+ dquote
  | JSArray elems =>
      "[" +:+
      (fix go (l : list JSValue) : string :=
         match l with
         | [] => ""
         | x :: r =>
             exampleStringify x +:+
             match r with [] => "" | _ => "," +:+ go r end
         end) elems +:+ "]"
  | JSObject props =>
      "{" +:+
      (fix go (l : list (string * JSValue)) : string :=
         match l with
         | [] => ""
         | (n, x) :: r =>
             dquote +:+ n +:+ dquote +:+ ":" +:+ exampleStringify x +:+
             match r with [] => "" | _ => "," +:+ go r end
         end) props +:+ "}"
  end.

Definition exampleHost : HostRuntime := {|
  baselineVersion c := if decide (c = 2%positive) then 1%positive else c;
  Bytecodes_toJS b := JSObject [("bytecodesID", JSNumber (Z.of_nat (bc_id b)))];
  Compilation_toJS c := JSObject [("compilationID", JSNumber (Z.pos c))];
  Event_toJS mem e :=
    JSObject [("bytecodesID", JSNumber (Z.of_nat (ev_bytecodes e)));
              ("summary", JSString (ev_summary e));
              ("detail", JSString (ev_detail e))];
  JSONStringify := exampleStringify;
|}.

(** ** A small process, for examples

    Three stores at the addresses 1, 2 and 3, none registered; every path
    can be opened except those under [/nonexistent/]. *)
Definition exampleWritable (path : string) : bool :=
  negb (String.prefix "/nonexistent/" path).

Definition exampleWorld : World :=
  mkWorld
    (<[3%positive := newDatabase 3]>
       (<[2%positive := newDatabase 2]> {[1%positive := newDatabase 1]}))
    3 0 None 0 exampleWritable ∅ [].

(** ** Views used by the further properties *)

(** Every event of the store refers to a profile of [m_bytecodes] and, when
    it has a compilation, to one of [m_compilations]. *)
Definition events_ok (db : Database) : Prop :=
  ∀ e, e ∈ m_events db →
    is_Some (m_bytecodes db !! ev_bytecodes e) ∧
    ∀ c, ev_compilation e = Some c → c ∈ m_compilations db.

Definition isLogEvent (op : StoreOp) : bool :=
  match op with OpLogEvent _ _ _ _ => true | _ => false end.

Definition isAddCompilation (op : StoreOp) : bool :=
  match op with OpAddCompilation _ _ => true | _ => false end.

(** The operations that go through [ensureBytecodesFor]. *)
Definition callsEnsure (op : StoreOp) : bool :=
  match op with
  | OpEnsureBytecodesFor _ | OpLogEvent _ _ _ _ => true
  | _ => false
  end.

(** A [Database] without what [registerToSaveAtExit] and the save-at-exit
    list write: file name, flag and link. *)
Definition bare (db : Database) : Database :=
  with_atExitSaveFilename "" (detached db).

(** The save-at-exit list after one step of the process, read as a plain
    list. *)
Definition listAfter (l : list DatabasePtr) (op : ProcessOp)
  : list DatabasePtr :=
  match op with
  | PRegisterToSaveAtExit d _ => if decide (d ∈ l) then l else d :: l
  | PDestroy d => filter (λ x, x ≠ d) l
  | PAtExitCallback => []
  | _ => l
  end.

(** The calls of [save] one step of the process makes. *)
Definition savesAfter (w : World) (l : list DatabasePtr) (op : ProcessOp)
  : list SaveCall :=
  match op with
  | PSave d filename => [mkSaveCall d filename (writable w filename)]
  | PDestroy d => if decide (d ∈ l) then flushOf w d else []
  | PAtExitCallback => l ≫= flushOf w
  | _ => []
  end.

(** [w'] differs from [w] at most in the heap and in [firstDatabase]. *)
Definition untouched (w w' : World) : Prop :=
  databaseCounter w' = databaseCounter w ∧
  didRegisterAtExit w' = didRegisterAtExit w ∧
  atexitHandlers w' = atexitHandlers w ∧
  writable w' = writable w ∧
  files w' = files w ∧
  saves w' = saves w.

(** The counters of the process: [databaseCounter], [didRegisterAtExit]
    and the number of installed exit handlers. *)
Definition counters (w : World) : Z * Z * nat :=
  (databaseCounter w, didRegisterAtExit w, atexitHandlers w).

Definition isConstruct (op : ProcessOp) : bool :=
  match op with PConstruct _ => true | _ => false end.

Definition isRegister (op : ProcessOp) : bool :=
  match op with PRegisterToSaveAtExit _ _ => true | _ => false end.

(** [op] registers a store that is not on the list [l]. *)
Definition firstRegistration (l : list DatabasePtr) (op : ProcessOp) : bool :=
  match op with
  | PRegisterToSaveAtExit d _ => bool_decide (d ∉ l)
  | _ => false
  end.

(** How one step changes the contents of the store it finds at an address:
    only a store operation called on that store does. *)
Definition contentsAfter `{HostRuntime} (x : DatabasePtr) (op : ProcessOp)
    (db : Database) : Database :=
  match op with
  | PStore d sop => if decide (d = x) then stepStore db sop else db
  | _ => db
  end.

(** The ids of the live stores lie between 1 and [databaseCounter] and no
    two stores share one. *)
Definition ids_ok (w : World) : Prop :=
  (0 ≤ databaseCounter w)%Z ∧
  (∀ x db, heap w !! x = Some db →
     (1 ≤ m_databaseID db ≤ databaseCounter w)%Z) ∧
  (∀ x y dbx dby,
     heap w !! x = Some dbx → heap w !! y = Some dby →
     m_databaseID dbx = m_databaseID dby → x = y).

(** The exit handler is installed exactly when a registration was counted,
    and nothing is on the list before that. *)
Definition handler_once (w : World) (l : list DatabasePtr) : Prop :=
  (0 ≤ didRegisterAtExit w)%Z ∧
  atexitHandlers w = (if decide (didRegisterAtExit w = 0%Z) then 0 else 1) ∧
  (didRegisterAtExit w = 0%Z → l = []).

(** What the store-level invariants say of one store. *)
Definition sound (db : Database) : Prop :=
  store_inv db ∧ index_consistent db ∧ events_ok db.

(** The target of a step is there: the address is free for a constructor,
    and holds a live store for every other call on a store. *)
Definition applicable (w : World) (op : ProcessOp) : Prop :=
  match op with
  | PConstruct d => heap w !! d = None
  | PStore d _ | PSave d _ | PRegisterToSaveAtExit d _ | PDestroy d =>
      is_Some (heap w !! d)
  | PAtExitCallback => True
  end.

Section Views.
Context `{HostRuntime}.

(** Every key of the profile index is the baseline version of some code
    block. *)
Definition keys_canonical (db : Database) : Prop :=
  ∀ k p, m_bytecodesMap db !! k = Some p → ∃ h, baselineVersion h = k.

(** The files after the store at [d] is flushed to the file name it holds
    in [w]. *)
Definition writeOf (w : World) (fs : gmap string string) (d : DatabasePtr)
  : gmap string string :=
  match heap w !! d with
  | Some db =>
      if writable w (m_atExitSaveFilename db)
      then <[m_atExitSaveFilename db := toJSON db]> fs
      else fs
  | None => fs
  end.

End Views.

(** ** A process with three registered stores, for examples *)

Definition exampleRegistrations : list ProcessOp :=
  [PRegisterToSaveAtExit 1 "a.json"; PRegisterToSaveAtExit 2 "b.json";
   PRegisterToSaveAtExit 3 "/nonexistent/c.json"].

Definition registeredWorld : World :=
  default exampleWorld
    (@runProcess exampleHost exampleRegistrations exampleWorld).

(** * Properties of the profile store *)

Section StoreFacts.
Context `{HostRuntime}.

Lemma putDirectIndex_end (v : JSValue) (a : list JSValue) :
  putDirectIndex (length a) v a = a ++ [v].
Proof.
  unfold putDirectIndex. case_decide as Hlt; [lia |].
  by rewrite Nat.sub_diag.
Qed.

Lemma fillArray_prefix {A} (f : A → JSValue) (v : list A) (n : nat) :
  n ≤ length v →
  foldl (λ a i, match v !! i with
                | Some x => putDirectIndex i (f x) a
                | None => a
                end) [] (seq 0 n) = f <$> take n v.
Proof.
  induction n as [| n IH]; intros Hn.
  - by rewrite take_0.
  - rewrite seq_S, foldl_app, IH by lia. simpl.
    destruct (lookup_lt_is_Some_2 v n) as [x Hx]; [lia |].
    rewrite Hx, (take_S_r _ _ _ Hx), fmap_app. simpl.
    assert (n = length (f <$> take n v)) as Hlen
      by (rewrite length_fmap, length_take; lia).
    rewrite Hlen at 1. apply putDirectIndex_end.
Qed.

Lemma fillArray_fmap {A} (f : A → JSValue) (v : list A) :
  fillArray f v = f <$> v.
Proof.
  unfold fillArray. rewrite fillArray_prefix by done. by rewrite firstn_all.
Qed.

Lemma ensureBytecodesFor_found (h : CodeBlockPtr) (db : Database) (p : nat) :
  m_bytecodesMap db !! baselineVersion h = Some p →
  ensureBytecodesFor h db = (p, db).
Proof. intros Hp. unfold ensureBytecodesFor. by rewrite Hp. Qed.

Lemma ensureBytecodesFor_fresh (h : CodeBlockPtr) (db : Database) :
  m_bytecodesMap db !! baselineVersion h = None →
  ensureBytecodesFor h db =
    (length (m_bytecodes db),
     with_bytecodesMap
       (<[baselineVersion h := length (m_bytecodes db)]> (m_bytecodesMap db))
       (with_bytecodes
          (m_bytecodes db ++
             [mkBytecodes (length (m_bytecodes db)) (baselineVersion h)]) db)).
Proof.
  intros Hp. unfold ensureBytecodesFor. rewrite Hp. simpl.
  unfold HashMap_add. rewrite Hp, length_app. simpl.
  by replace (length (m_bytecodes db) + 1) with (S (length (m_bytecodes db))) by lia.
Qed.

Lemma logEvent_eq (now : Z) (c : CodeBlockPtr) (s d : string) (db : Database) :
  logEvent now c s d db =
    let r := ensureBytecodesFor c db in
    with_events
      (m_events r.2 ++ [mkEvent now r.1 (m_compilationMap r.2 !! c) s d]) r.2.
Proof. unfold logEvent. by destruct (ensureBytecodesFor c db). Qed.

(** What a call of [ensureBytecodesFor] leaves alone. *)
Lemma ensureBytecodesFor_frame (h : CodeBlockPtr) (db : Database) :
  let db' := (ensureBytecodesFor h db).2 in
  m_databaseID db' = m_databaseID db ∧
  m_compilations db' = m_compilations db ∧
  m_compilationMap db' = m_compilationMap db ∧
  m_events db' = m_events db ∧
  m_shouldSaveAtExit db' = m_shouldSaveAtExit db ∧
  m_atExitSaveFilename db' = m_atExitSaveFilename db ∧
  m_nextRegisteredDatabase db' = m_nextRegisteredDatabase db.
Proof.
  destruct (m_bytecodesMap db !! baselineVersion h) as [p |] eqn:Hp.
  - by rewrite (ensureBytecodesFor_found _ _ _ Hp).
  - by rewrite (ensureBytecodesFor_fresh _ _ Hp).
Qed.

(** An indexed handle stays indexed, at the same profile, as long as
    [notifyDestruction] is not called on it; meanwhile no profile is created
    for it. *)
Lemma stepStore_keeps_index (op : StoreOp) (db : Database) (c : CodeBlockPtr)
    (p : nat) :
  destroysHandle c op = false →
  m_bytecodesMap db !! c = Some p →
  m_bytecodesMap (stepStore db op) !! c = Some p ∧
  ∃ added, m_bytecodes (stepStore db op) = m_bytecodes db ++ added ∧
           filter (λ b, bc_codeBlock b = c) added = [].
Proof.
  intros Hop Hc.
  assert (∀ h, m_bytecodesMap (ensureBytecodesFor h db).2 !! c = Some p ∧
    ∃ added, m_bytecodes (ensureBytecodesFor h db).2 = m_bytecodes db ++ added ∧
             filter (λ b, bc_codeBlock b = c) added = []) as Hens.
  { intros h. destruct (m_bytecodesMap db !! baselineVersion h) as [q |] eqn:Hq.
    - rewrite (ensureBytecodesFor_found _ _ _ Hq). simpl. split; [done |].
      exists []. by rewrite app_nil_r.
    - rewrite (ensureBytecodesFor_fresh _ _ Hq). simpl.
      assert (baselineVersion h ≠ c) as Hne by congruence.
      split; [by rewrite lookup_insert_ne |].
      eexists. split; [done |]. rewrite filter_cons_False; [done |]. simpl. done. }
  destruct op as [h | h | h r | now h s d]; simpl in *.
  - apply Hens.
  - apply bool_decide_eq_false in Hop. unfold HashMap_remove.
    split; [by rewrite lookup_delete_ne |]. exists []. by rewrite app_nil_r.
  - split; [done |]. exists []. by rewrite app_nil_r.
  - rewrite logEvent_eq. simpl. apply Hens.
Qed.

Lemma runStore_keeps_index (ops : list StoreOp) (db : Database)
    (c : CodeBlockPtr) (p : nat) :
  Forall (λ op, destroysHandle c op = false) ops →
  m_bytecodesMap db !! c = Some p →
  m_bytecodesMap (runStore ops db) !! c = Some p ∧
  ∃ added, m_bytecodes (runStore ops db) = m_bytecodes db ++ added ∧
           filter (λ b, bc_codeBlock b = c) added = [].
Proof.
  intros Hops. revert db. induction Hops as [| op ops Hop _ IH]; intros db Hc.
  - split; [done |]. exists []. by rewrite app_nil_r.
  - destruct (stepStore_keeps_index op db c p Hop Hc) as (Hc' & a1 & Ha1 & Hf1).
    destruct (IH _ Hc') as (Hc'' & a2 & Ha2 & Hf2).
    split; [done |]. exists (a1 ++ a2). split.
    + unfold runStore in *. simpl. rewrite Ha2, Ha1. by rewrite <- app_assoc.
    + by rewrite filter_app, Hf1, Hf2.
Qed.

(** C3. [ensureBytecodesFor h] looks the baseline version of [h] up in the
    index: it returns the indexed profile and changes nothing when there is
    one, and otherwise appends a profile whose id is the current length of
    [m_bytecodes], indexes it and returns it.  After a first call, and
    whatever operations follow other than [notifyDestruction] of that
    baseline version, a call for a handle with the same baseline version
    returns the profile of the first call and creates nothing: over the
    whole run exactly one profile was created for that baseline version
    (none when it was indexed before).
    The operation is a total function: it always returns a profile. *)
Theorem ensureBytecodesFor_once (h : CodeBlockPtr) (db : Database) :
  (∀ p, m_bytecodesMap db !! baselineVersion h = Some p →
        ensureBytecodesFor h db = (p, db)) ∧
  (m_bytecodesMap db !! baselineVersion h = None →
   ensureBytecodesFor h db =
     (length (m_bytecodes db),
      with_bytecodesMap
        (<[baselineVersion h := length (m_bytecodes db)]> (m_bytecodesMap db))
        (with_bytecodes
           (m_bytecodes db ++
              [mkBytecodes (length (m_bytecodes db)) (baselineVersion h)]) db))) ∧
  (∀ ops h',
     Forall (λ op, destroysHandle (baselineVersion h) op = false) ops →
     baselineVersion h' = baselineVersion h →
     let first := ensureBytecodesFor h db in
     let db' := runStore ops first.2 in
     ensureBytecodesFor h' db' = (first.1, db') ∧
     ∃ added,
       m_bytecodes db' = m_bytecodes db ++ added ∧
       filter (λ b, bc_codeBlock b = baselineVersion h) added =
         match m_bytecodesMap db !! baselineVersion h with
         | Some _ => []
         | None => [mkBytecodes (length (m_bytecodes db)) (baselineVersion h)]
         end).
Proof.
  split; [intros p; apply ensureBytecodesFor_found |].
  split; [apply ensureBytecodesFor_fresh |].
  intros ops h' Hops Hh' first db'.
  assert (m_bytecodesMap first.2 !! baselineVersion h = Some first.1 ∧
          ∃ a0, m_bytecodes first.2 = m_bytecodes db ++ a0 ∧
                filter (λ b, bc_codeBlock b = baselineVersion h) a0 =
                  match m_bytecodesMap db !! baselineVersion h with
                  | Some _ => []
                  | None => [mkBytecodes (length (m_bytecodes db))
                               (baselineVersion h)]
                  end) as (Hidx & a0 & Ha0 & Hf0).
  { subst first. destruct (m_bytecodesMap db !! baselineVersion h) as [p |] eqn:Hp.
    - rewrite (ensureBytecodesFor_found _ _ _ Hp). simpl. split; [done |].
      exists []. by rewrite app_nil_r.
    - rewrite (ensureBytecodesFor_fresh _ _ Hp). simpl.
      split; [by rewrite lookup_insert_eq |].
      eexists. split; [done |]. by rewrite filter_cons_True. }
  destruct (runStore_keeps_index ops _ _ _ Hops Hidx) as (Hidx' & a1 & Ha1 & Hf1).
  fold db' in Hidx', Ha1. split.
  - apply ensureBytecodesFor_found. by rewrite Hh'.
  - exists (a0 ++ a1). split.
    + by rewrite Ha1, Ha0, <- app_assoc.
    + by rewrite filter_app, Hf1, app_nil_r.
Qed.

Lemma store_inv_new (id : Z) : store_inv (newDatabase id).
Proof.
  split; simpl; try done.
  - apply NoDup_fst_map_to_list.
  - apply NoDup_fst_map_to_list.
Qed.

Lemma store_inv_ensure (h : CodeBlockPtr) (db : Database) :
  store_inv db → store_inv (ensureBytecodesFor h db).2.
Proof.
  intros [Hb Hc Hkb Hkc Hid].
  destruct (m_bytecodesMap db !! baselineVersion h) as [p |] eqn:Hp.
  - by rewrite (ensureBytecodesFor_found _ _ _ Hp).
  - rewrite (ensureBytecodesFor_fresh _ _ Hp). split; simpl.
    + intros k q [[<- <-] | [_ Hk]]%lookup_insert_Some.
      * eexists. by rewrite list_lookup_middle.
      * destruct (Hb _ _ Hk) as [b Hq]. exists b. by apply lookup_app_l_Some.
    + done.
    + apply NoDup_fst_map_to_list.
    + done.
    + intros i b [Hi | [Hi Hlast]]%lookup_app_Some; [by apply Hid |].
      destruct (i - length (m_bytecodes db)) as [| j] eqn:Hj; [| done].
      simpl in Hlast. inversion Hlast. simpl. lia.
Qed.

Lemma store_inv_step (op : StoreOp) (db : Database) :
  store_inv db → store_inv (stepStore db op).
Proof.
  intros Hinv. destruct op as [h | h | h r | now h s d]; simpl.
  - by apply store_inv_ensure.
  - destruct Hinv as [Hb Hc Hkb Hkc Hid]. split; simpl; unfold HashMap_remove.
    + intros k q [_ Hk]%lookup_delete_Some. by eapply Hb.
    + intros k q [_ Hk]%lookup_delete_Some. by eapply Hc.
    + apply NoDup_fst_map_to_list.
    + apply NoDup_fst_map_to_list.
    + done.
  - destruct Hinv as [Hb Hc Hkb Hkc Hid]. split; simpl; unfold HashMap_set.
    + done.
    + intros k q [[<- <-] | [_ Hk]]%lookup_insert_Some.
      * apply elem_of_app. right. by apply list_elem_of_singleton.
      * apply elem_of_app. left. by eapply Hc.
    + done.
    + apply NoDup_fst_map_to_list.
    + done.
  - rewrite logEvent_eq.
    destruct (store_inv_ensure h db Hinv) as [Hb Hc Hkb Hkc Hid].
    by split.
Qed.

Lemma logEvent_frame (now : Z) (h : CodeBlockPtr) (s d : string)
    (db : Database) :
  let r := ensureBytecodesFor h db in
  logEvent now h s d db =
    with_events
      (m_events db ++ [mkEvent now r.1 (m_compilationMap db !! h) s d]) r.2.
Proof.
  intros r. destruct (ensureBytecodesFor_frame h db) as (_ & _ & Hcm & He & _).
  fold r in Hcm, He. rewrite logEvent_eq. cbv zeta. fold r. by rewrite Hcm, He.
Qed.

Lemma notifyDestruction_absent (h : CodeBlockPtr) (db : Database) :
  m_bytecodesMap db !! h = None →
  m_compilationMap db !! h = None →
  notifyDestruction h db = db.
Proof.
  intros Hb Hc. destruct db. unfold notifyDestruction, HashMap_remove. simpl in *.
  unfold with_compilationMap, with_bytecodesMap. simpl.
  by rewrite !delete_id.
Qed.

(** C4, as amended.  [notifyDestruction h] deletes the key [h], as passed,
    from both indices and changes nothing else: the three collections keep
    all their entries, and a handle that is in neither index leaves the
    store as it was.  When [h] is its own baseline version and had a
    profile, the next [ensureBytecodesFor h] appends a new profile, distinct
    from the former one and with a strictly larger id. *)
Theorem notifyDestruction_forgets (h : CodeBlockPtr) (db : Database) :
  (m_bytecodesMap (notifyDestruction h db) = delete h (m_bytecodesMap db) ∧
   m_compilationMap (notifyDestruction h db) = delete h (m_compilationMap db) ∧
   m_bytecodes (notifyDestruction h db) = m_bytecodes db ∧
   m_compilations (notifyDestruction h db) = m_compilations db ∧
   m_events (notifyDestruction h db) = m_events db ∧
   notifyDestruction h db =
     with_compilationMap (delete h (m_compilationMap db))
       (with_bytecodesMap (delete h (m_bytecodesMap db)) db)) ∧
  (m_bytecodesMap db !! h = None → m_compilationMap db !! h = None →
   notifyDestruction h db = db) ∧
  (store_inv db → baselineVersion h = h → recreated_after_destruction h db).
Proof.
  split; [done |]. split; [apply notifyDestruction_absent |].
  intros Hinv Hbase p Hp r.
  assert (m_bytecodesMap (notifyDestruction h db) !! baselineVersion h = None)
    as Hgone by (rewrite Hbase; apply lookup_delete_eq).
  subst r. rewrite (ensureBytecodesFor_fresh _ _ Hgone). simpl.
  destruct (inv_bytecodesMap _ Hinv _ _ Hp) as [old Hold].
  pose proof (lookup_lt_Some _ _ _ Hold) as Hlt.
  split; [lia |]. split; [rewrite length_app; simpl; lia |].
  exists old, (mkBytecodes (length (m_bytecodes db)) (baselineVersion h)).
  split; [by apply lookup_app_l_Some |].
  split; [by rewrite list_lookup_middle |].
  split; [done |]. simpl. by rewrite (inv_ids _ Hinv _ _ Hold).
Qed.

Lemma addCompilations_snoc (calls : list (CodeBlockPtr * CompilationPtr))
    (h : CodeBlockPtr) (r : CompilationPtr) (db : Database) :
  addCompilations (calls ++ [(h, r)]) db =
    addCompilation h r (addCompilations calls db).
Proof. unfold addCompilations. by rewrite foldl_app. Qed.

Lemma addCompilations_collection (calls : list (CodeBlockPtr * CompilationPtr))
    (db : Database) :
  m_compilations (addCompilations calls db) = m_compilations db ++ calls.*2.
Proof.
  induction calls as [| [h r] calls IH] using rev_ind.
  - by rewrite app_nil_r.
  - rewrite addCompilations_snoc, fmap_app, app_assoc, <- IH. done.
Qed.

(** C5. [addCompilation h r] appends [r] to [m_compilations] and makes [r]
    the entry of [h] in [m_compilationMap], leaving the other entries and
    everything else alone.  Recording again for [h] replaces the entry and
    keeps the earlier record in the collection; after any [n] calls the
    collection holds the [n] records after the ones it had, in call order. *)
Theorem addCompilation_appends (h : CodeBlockPtr) (r : CompilationPtr)
    (db : Database) :
  (m_compilations (addCompilation h r db) = m_compilations db ++ [r] ∧
   m_compilationMap (addCompilation h r db) = <[h := r]> (m_compilationMap db) ∧
   addCompilation h r db =
     with_compilationMap (<[h := r]> (m_compilationMap db))
       (with_compilations (m_compilations db ++ [r]) db)) ∧
  (∀ calls r2,
     let db2 := addCompilation h r2 (addCompilations calls (addCompilation h r db)) in
     m_compilationMap db2 !! h = Some r2 ∧
     m_compilations db2 = m_compilations db ++ [r] ++ calls.*2 ++ [r2]) ∧
  (∀ calls,
     m_compilations (addCompilations calls db) = m_compilations db ++ calls.*2 ∧
     length (m_compilations (addCompilations calls db)) =
       length (m_compilations db) + length calls).
Proof.
  split; [done |]. split.
  - intros calls r2 db2. split.
    + apply lookup_insert_eq.
    + subst db2. simpl. rewrite addCompilations_collection. simpl.
      by rewrite <- !app_assoc.
  - intros calls. rewrite addCompilations_collection. split; [done |].
    by rewrite length_app, length_fmap.
Qed.

Lemma index_consistent_ensure (h : CodeBlockPtr) (db : Database) :
  index_consistent db → index_consistent (ensureBytecodesFor h db).2.
Proof.
  intros Hdb. destruct (m_bytecodesMap db !! baselineVersion h) as [p |] eqn:Hp.
  - by rewrite (ensureBytecodesFor_found _ _ _ Hp).
  - rewrite (ensureBytecodesFor_fresh _ _ Hp). intros k q. simpl.
    intros [[<- <-] | [_ Hk]]%lookup_insert_Some.
    + eexists. by rewrite list_lookup_middle.
    + destruct (Hdb _ _ Hk) as (b & Hb & Hbk). exists b.
      split; [by apply lookup_app_l_Some | done].
Qed.

Lemma index_consistent_step (op : StoreOp) (db : Database) :
  index_consistent db → index_consistent (stepStore db op).
Proof.
  intros Hdb. destruct op as [h | h | h r | now h s d]; simpl.
  - by apply index_consistent_ensure.
  - intros k q. simpl. unfold HashMap_remove.
    intros [_ Hk]%lookup_delete_Some. by apply Hdb.
  - done.
  - rewrite logEvent_eq. apply (index_consistent_ensure h db Hdb).
Qed.

Lemma index_consistent_run (ops : list StoreOp) (db : Database) :
  index_consistent db → index_consistent (runStore ops db).
Proof.
  revert db. induction ops as [| op ops IH]; intros db Hdb; [done |].
  apply IH. by apply index_consistent_step.
Qed.

Lemma index_consistent_new (id : Z) : index_consistent (newDatabase id).
Proof. intros h p Hp. done. Qed.

Lemma ensureBytecodesFor_resolves (h : CodeBlockPtr) (db : Database) :
  index_consistent db →
  ∃ b, m_bytecodes (ensureBytecodesFor h db).2 !! (ensureBytecodesFor h db).1
         = Some b ∧
       bc_codeBlock b = baselineVersion h.
Proof.
  intros Hdb. destruct (m_bytecodesMap db !! baselineVersion h) as [p |] eqn:Hp.
  - rewrite (ensureBytecodesFor_found _ _ _ Hp). simpl. by apply Hdb.
  - rewrite (ensureBytecodesFor_fresh _ _ Hp). simpl.
    eexists. by rewrite list_lookup_middle.
Qed.

(** C6. [logEvent] runs [ensureBytecodesFor] on the handle, looks the handle
    up in [m_compilationMap] (there may be no entry) and appends one event
    made of the time read, the profile, the compilation found, the summary
    and the detail.  Apart from that event the store is the one
    [ensureBytecodesFor] leaves, which differs from the store before at
    most by the profile it created.  In a store whose index entries point
    to the profile created for their key, the event's profile is one
    created for the baseline version of the handle.  The operation is a
    total function. *)
Theorem logEvent_appends_one (now : Z) (h : CodeBlockPtr) (s d : string)
    (db : Database) :
  let r := ensureBytecodesFor h db in
  let e := mkEvent now r.1 (m_compilationMap db !! h) s d in
  logEvent now h s d db = with_events (m_events db ++ [e]) r.2 ∧
  m_events (logEvent now h s d db) = m_events db ++ [e] ∧
  m_bytecodes (logEvent now h s d db) = m_bytecodes r.2 ∧
  m_bytecodesMap (logEvent now h s d db) = m_bytecodesMap r.2 ∧
  m_compilations (logEvent now h s d db) = m_compilations db ∧
  m_compilationMap (logEvent now h s d db) = m_compilationMap db ∧
  (is_Some (m_bytecodesMap db !! baselineVersion h) → r.2 = db) ∧
  (index_consistent db →
   ∃ b, m_bytecodes (logEvent now h s d db) !! ev_bytecodes e = Some b ∧
        bc_codeBlock b = baselineVersion h).
Proof.
  intros r e. subst e. rewrite logEvent_frame. cbv zeta. fold r.
  destruct (ensureBytecodesFor_frame h db) as (_ & Hc & Hcm & _).
  fold r in Hc, Hcm. simpl.
  repeat split; try done.
  - intros [p Hp]. subst r. by rewrite (ensureBytecodesFor_found _ _ _ Hp).
  - intros Hdb. apply (ensureBytecodesFor_resolves h db Hdb).
Qed.

(** C7. [toJS] returns an object with exactly the properties [bytecodes],
    [compilations] and [events], added in that order, each an array that
    holds the serialization of the entries of the matching collection, one
    per entry and in the order of the collection; [toJSON] is the JSON
    encoding of that object.  The collections themselves only grow at the
    end: whatever operations run, the entries they had stay where they
    were. *)
Theorem toJS_shape (db : Database) :
  toJS db =
    JSObject
      [("bytecodes", JSArray (Bytecodes_toJS <$> m_bytecodes db));
       ("compilations", JSArray (Compilation_toJS <$> m_compilations db));
       ("events", JSArray (Event_toJS (m_bytecodes db) <$> m_events db))] ∧
  toJSON db = JSONStringify (toJS db) ∧
  (∀ ops,
     m_bytecodes db `prefix_of` m_bytecodes (runStore ops db) ∧
     m_compilations db `prefix_of` m_compilations (runStore ops db) ∧
     m_events db `prefix_of` m_events (runStore ops db)).
Proof.
  split; [| split; [done |]].
  - unfold toJS. by rewrite !fillArray_fmap.
  - intros ops. revert db. induction ops as [| op ops IH]; intros db; [done |].
    destruct (IH (stepStore db op)) as (Hb & Hc & He).
    assert (m_bytecodes db `prefix_of` m_bytecodes (stepStore db op) ∧
            m_compilations db `prefix_of` m_compilations (stepStore db op) ∧
            m_events db `prefix_of` m_events (stepStore db op)) as (Hb1 & Hc1 & He1).
    { assert (∀ h, m_bytecodes db `prefix_of`
                     m_bytecodes (ensureBytecodesFor h db).2) as Hens.
      { intros h. destruct (m_bytecodesMap db !! baselineVersion h) as [p |] eqn:Hp.
        - by rewrite (ensureBytecodesFor_found _ _ _ Hp).
        - rewrite (ensureBytecodesFor_fresh _ _ Hp). simpl. by apply prefix_app_r. }
      destruct op as [h | h | h r | now h s d]; simpl.
      - destruct (ensureBytecodesFor_frame h db) as (_ & -> & _ & -> & _).
        by split; [apply Hens |].
      - done.
      - split; [done |]. split; [by apply prefix_app_r | done].
      - rewrite logEvent_frame. simpl.
        destruct (ensureBytecodesFor_frame h db) as (_ & -> & _).
        split; [apply Hens |]. split; [done | by apply prefix_app_r]. }
    unfold runStore in *. simpl.
    split; [by etrans | split; by etrans].
Qed.

(** C9. Each store operation keeps the store invariant: index entries point
    to an element of their collection, no handle is a key twice in an
    index, and the profile at position [i] has id [i].  Hence so does every
    run of operations, and a new store has the invariant to begin with. *)
Theorem store_inv_preserved (db : Database) :
  store_inv db →
  (∀ h, store_inv (ensureBytecodesFor h db).2) ∧
  (∀ h, store_inv (notifyDestruction h db)) ∧
  (∀ h r, store_inv (addCompilation h r db)) ∧
  (∀ now h s d, store_inv (logEvent now h s d db)) ∧
  (∀ ops, store_inv (runStore ops db)).
Proof.
  intros Hinv.
  split; [intros h; apply (store_inv_step (OpEnsureBytecodesFor h) db Hinv) |].
  split; [intros h; apply (store_inv_step (OpNotifyDestruction h) db Hinv) |].
  split; [intros h r; apply (store_inv_step (OpAddCompilation h r) db Hinv) |].
  split; [intros now h s d; apply (store_inv_step (OpLogEvent now h s d) db Hinv) |].
  intros ops. revert db Hinv.
  induction ops as [| op ops IH]; intros db Hinv; [done |].
  apply IH. by apply store_inv_step.
Qed.


End StoreFacts.

(** * Properties of the save-at-exit list *)

Section ListFacts.

Lemma segment_ext (h h' : gmap positive Database) (cur stop : option positive)
    (l : list positive) :
  (∀ d, d ∈ l →
     m_nextRegisteredDatabase <$> h' !! d = m_nextRegisteredDatabase <$> h !! d) →
  segment h cur l stop → segment h' cur l stop.
Proof.
  revert cur. induction l as [| d l IH]; intros cur Hext Hseg; [done |].
  destruct Hseg as (-> & db & Hdb & Hseg). split; [done |].
  pose proof (Hext d (list_elem_of_here _ _)) as Hd. rewrite Hdb in Hd.
  destruct (h' !! d) as [db' |]; [| done]. simpl in Hd.
  exists db'. split; [done |].
  replace (m_nextRegisteredDatabase db') with (m_nextRegisteredDatabase db)
    by congruence.
  apply IH; [| done]. intros d' Hd'. apply Hext. by apply list_elem_of_further.
Qed.

Lemma segment_app (h : gmap positive Database) (cur stop : option positive)
    (l1 l2 : list positive) :
  segment h cur (l1 ++ l2) stop ↔
  ∃ mid, segment h cur l1 mid ∧ segment h mid l2 stop.
Proof.
  revert cur. induction l1 as [| d l1 IH]; intros cur; simpl.
  - split; [intros Hseg; by exists cur | by intros (mid & -> & Hseg)].
  - split.
    + intros (-> & db & Hdb & Hseg). apply IH in Hseg as (mid & H1 & H2).
      exists mid. split; [| done]. split; [done |]. by exists db.
    + intros (mid & (-> & db & Hdb & H1) & H2). split; [done |].
      exists db. split; [done |]. apply IH. by exists mid.
Qed.

Lemma segment_live (h : gmap positive Database) (cur stop : option positive)
    (l : list positive) (d : positive) :
  segment h cur l stop → d ∈ l → is_Some (h !! d).
Proof.
  revert cur. induction l as [| d' l IH]; intros cur Hseg Hd.
  - by apply elem_of_nil in Hd.
  - destruct Hseg as (-> & db & Hdb & Hseg).
    apply elem_of_cons in Hd as [-> | Hd]; [by exists db | by eapply IH].
Qed.

Lemma segment_length (h : gmap positive Database) (cur stop : option positive)
    (l : list positive) :
  segment h cur l stop → NoDup l → length l ≤ size h.
Proof.
  intros Hseg Hnd.
  rewrite <- (size_list_to_set (C := gset positive) l Hnd), <- size_dom.
  apply subseteq_size. intros d Hd. apply elem_of_list_to_set in Hd.
  apply elem_of_dom. by eapply segment_live.
Qed.

(** The list that starts at a given link is unique. *)
Lemma segment_functional (h : gmap positive Database) (cur : option positive)
    (l l' : list positive) :
  segment h cur l None → segment h cur l' None → l = l'.
Proof.
  revert cur l'. induction l as [| d l IH]; intros cur [| d' l']; simpl.
  - done.
  - by intros -> (? & _).
  - by intros (-> & _) ?.
  - intros (-> & db & Hdb & Hseg) (Heq & db' & Hdb' & Hseg').
    inversion Heq; subst d'. rewrite Hdb in Hdb'. inversion Hdb'; subst db'.
    f_equal. by eapply IH.
Qed.

Lemma registry_ok_ext (w w' : World) (l : list positive) :
  heap w' = heap w → firstDatabase w' = firstDatabase w →
  registry_ok w l → registry_ok w' l.
Proof.
  intros Hh Hf [Hc Hn Hfl]. split; [| done |].
  - unfold chain. by rewrite Hh, Hf.
  - by rewrite Hh.
Qed.

Lemma registry_ok_live (w : World) (l : list positive) (d : positive) :
  registry_ok w l → d ∈ l → is_Some (heap w !! d).
Proof. intros [Hc _ _] Hd. by eapply segment_live. Qed.

Lemma registry_ok_length (w : World) (l : list positive) :
  registry_ok w l → length l ≤ size (heap w).
Proof. intros [Hc Hn _]. by eapply segment_length. Qed.

Lemma registry_ok_new (canOpen : string → bool) :
  registry_ok (newWorld canOpen) [].
Proof. split; [done | constructor | intros d db Hd; done]. Qed.

End ListFacts.

Section ProcessFacts.
Context `{HostRuntime}.

Lemma detached_detached (db : Database) : detached (detached db) = detached db.
Proof. by destruct db. Qed.

Lemma detached_with_next (v : option positive) (db : Database) :
  detached (with_nextRegisteredDatabase v db) = detached db.
Proof. by destruct db. Qed.

Lemma detached_with_flag (v : bool) (db : Database) :
  detached (with_shouldSaveAtExit v db) = detached db.
Proof. by destruct db. Qed.

Lemma filter_ne_notin (this : positive) (l : list positive) :
  this ∉ l → filter (λ d, d ≠ this) l = l.
Proof.
  induction l as [| d l IH]; intros Hni; [done |].
  apply not_elem_of_cons in Hni as [Hne Hni].
  rewrite filter_cons_True by done. by rewrite IH.
Qed.

Lemma filter_ne_middle (this : positive) (l1 l2 : list positive) :
  NoDup (l1 ++ this :: l2) →
  filter (λ d, d ≠ this) (l1 ++ this :: l2) = l1 ++ l2.
Proof.
  intros Hnd. apply NoDup_app in Hnd as (_ & Hdis & Hnd2).
  apply NoDup_cons in Hnd2 as [Hni2 _].
  rewrite filter_app, filter_cons_False by naive_solver.
  rewrite !filter_ne_notin; [done | done |].
  intros Hin. apply (Hdis _ Hin). apply list_elem_of_here.
Qed.

Lemma bind_ext_in {A B} (f g : A → list B) (l : list A) :
  (∀ x, x ∈ l → f x = g x) → l ≫= f = l ≫= g.
Proof.
  induction l as [| x l IH]; intros Hfg; [done |].
  rewrite !bind_cons, (Hfg x) by apply list_elem_of_here.
  rewrite IH; [done |]. intros y Hy. apply Hfg. by apply list_elem_of_further.
Qed.

Lemma flushOf_ext (w w' : World) (d : positive) :
  detached <$> heap w' !! d = detached <$> heap w !! d →
  writable w' = writable w →
  flushOf w' d = flushOf w d.
Proof.
  intros Hd Hw. unfold flushOf. rewrite Hw.
  destruct (heap w' !! d) as [db' |], (heap w !! d) as [db |]; try done.
  simpl in Hd. inversion Hd as [Heq].
  assert (m_atExitSaveFilename db' = m_atExitSaveFilename db) as ->; [| done].
  by destruct db, db'; inversion Heq.
Qed.

Lemma flushOf_database (w : World) (this : positive) (l : list positive) :
  this ∉ l → filter (λ c, sc_database c = this) (l ≫= flushOf w) = [].
Proof.
  induction l as [| d l IH]; intros Hni; [done |].
  apply not_elem_of_cons in Hni as [Hne Hni].
  rewrite bind_cons, filter_app, IH, app_nil_r by done.
  unfold flushOf. destruct (heap w !! d); [| done].
  rewrite filter_cons_False; [done |]. simpl. congruence.
Qed.

(** *** Construction and store operations *)

Lemma registry_ok_update (w : World) (l : list positive) (this : positive)
    (db db' : Database) :
  registry_ok w l →
  heap w !! this = Some db →
  m_nextRegisteredDatabase db' = m_nextRegisteredDatabase db →
  m_shouldSaveAtExit db' = m_shouldSaveAtExit db →
  registry_ok (store this db' w) l.
Proof.
  intros [Hc Hn Hfl] Hdb Hnext Hflag. split; [| done |]; simpl.
  - eapply segment_ext; [| exact Hc]. intros d _.
    destruct (decide (d = this)) as [-> |].
    + rewrite lookup_insert_eq, Hdb. simpl. by rewrite Hnext.
    + by rewrite lookup_insert_ne.
  - intros d dbd. destruct (decide (d = this)) as [-> |].
    + rewrite lookup_insert_eq. intros [= <-]. rewrite Hflag. by apply Hfl.
    + rewrite lookup_insert_ne by done. apply Hfl.
Qed.

Lemma construct_spec (w : World) (l : list positive) (this : positive) :
  registry_ok w l →
  heap w !! this = None →
  ∃ w', construct this w = Some w' ∧
        registry_ok w' l ∧
        heap w' = <[this := newDatabase (wrapInt (databaseCounter w + 1))]> (heap w) ∧
        writable w' = writable w ∧ saves w' = saves w ∧ files w' = files w.
Proof.
  intros [Hc Hn Hfl] Hfresh. unfold construct. rewrite Hfresh.
  eexists. split; [done |]. split; [| done].
  assert (this ∉ l) as Hni.
  { intros Hin. destruct (segment_live _ _ _ _ _ Hc Hin) as [? ?]. congruence. }
  split; [| done |]; simpl.
  - eapply segment_ext; [| exact Hc]. intros d Hd.
    rewrite lookup_insert_ne; [done |]. by intros ->.
  - intros d dbd. destruct (decide (d = this)) as [-> |].
    + rewrite lookup_insert_eq. intros [= <-]. simpl. split; [done | by intros ?].
    + rewrite lookup_insert_ne by done. apply Hfl.
Qed.

(** *** Saving *)

Lemma save_unwritable (this : positive) (db : Database) (path : string)
    (w : World) :
  heap w !! this = Some db →
  writable w path = false →
  save this path w =
    Some (false, with_saves (saves w ++ [mkSaveCall this path false]) w).
Proof. intros Hdb Hw. unfold save. rewrite Hdb. simpl. by rewrite Hw. Qed.

Lemma save_writable (this : positive) (db : Database) (path : string)
    (w : World) :
  heap w !! this = Some db →
  writable w path = true →
  save this path w =
    Some (true,
          with_files (<[path := toJSON db]> (files w))
            (with_saves (saves w ++ [mkSaveCall this path true]) w)).
Proof.
  intros Hdb Hw. unfold save. rewrite Hdb. simpl. rewrite Hw. simpl.
  unfold with_files at 1. simpl. do 2 f_equal. unfold with_files. simpl.
  f_equal. by rewrite alter_insert_eq.
Qed.

Lemma performAtExitSave_spec (this : positive) (db : Database) (w : World) :
  heap w !! this = Some db →
  ∃ w', performAtExitSave this w = Some w' ∧
        heap w' = heap w ∧
        firstDatabase w' = firstDatabase w ∧
        writable w' = writable w ∧
        saves w' = saves w ++ flushOf w this.
Proof.
  intros Hdb. unfold performAtExitSave, flushOf. rewrite Hdb. simpl.
  destruct (writable w (m_atExitSaveFilename db)) eqn:Hw.
  - rewrite (save_writable _ _ _ _ Hdb Hw). simpl. by eexists.
  - rewrite (save_unwritable _ _ _ _ Hdb Hw). simpl. by eexists.
Qed.

(** *** Registration *)

Lemma registerToSaveAtExit_pending (this : positive) (db : Database)
    (filename : string) (w : World) :
  heap w !! this = Some db →
  m_shouldSaveAtExit db = true →
  registerToSaveAtExit this filename w =
    Some (store this (with_atExitSaveFilename filename db) w).
Proof.
  intros Hdb Hflag. unfold registerToSaveAtExit. rewrite Hdb. simpl.
  by rewrite Hflag.
Qed.

Lemma registerToSaveAtExit_first (this : positive) (db : Database)
    (filename : string) (w : World) :
  heap w !! this = Some db →
  m_shouldSaveAtExit db = false →
  ∃ w', registerToSaveAtExit this filename w = Some w' ∧
        heap w' =
          <[this := with_shouldSaveAtExit true
                      (with_nextRegisteredDatabase (firstDatabase w)
                         (with_atExitSaveFilename filename db))]> (heap w) ∧
        firstDatabase w' = Some this ∧
        writable w' = writable w ∧ saves w' = saves w ∧ files w' = files w ∧
        didRegisterAtExit w' = wrapInt (didRegisterAtExit w + 1) ∧
        atexitHandlers w' =
          (if decide (wrapInt (didRegisterAtExit w + 1) = 1%Z)
           then S (atexitHandlers w) else atexitHandlers w).
Proof.
  intros Hdb Hflag. unfold registerToSaveAtExit. rewrite Hdb. simpl.
  rewrite Hflag. unfold addDatabaseToAtExit. simpl.
  case_decide as Hone; simpl; rewrite lookup_insert_eq; simpl;
    rewrite lookup_insert_eq; simpl;
    (eexists; split; [done |]); simpl; by rewrite !insert_insert_eq.
Qed.

Lemma registerToSaveAtExit_spec (this : positive) (db : Database)
    (filename : string) (w : World) (l : list positive) :
  registry_ok w l →
  heap w !! this = Some db →
  ∃ w' db',
    registerToSaveAtExit this filename w = Some w' ∧
    registry_ok w' (if m_shouldSaveAtExit db then l else this :: l) ∧
    heap w' = <[this := db']> (heap w) ∧
    m_shouldSaveAtExit db' = true ∧
    m_atExitSaveFilename db' = filename ∧
    detached db' = detached (with_atExitSaveFilename filename db) ∧
    writable w' = writable w ∧ saves w' = saves w.
Proof.
  intros Hok Hdb. destruct (m_shouldSaveAtExit db) eqn:Hflag.
  - rewrite (registerToSaveAtExit_pending _ _ _ _ Hdb Hflag).
    exists (store this (with_atExitSaveFilename filename db) w),
           (with_atExitSaveFilename filename db).
    split; [done |].
    split; [by eapply registry_ok_update |]. by repeat split.
  - destruct (registerToSaveAtExit_first _ _ filename _ Hdb Hflag)
      as (w' & -> & Hh & Hf & Hw & Hs & _).
    exists w', (with_shouldSaveAtExit true
                  (with_nextRegisteredDatabase (firstDatabase w)
                     (with_atExitSaveFilename filename db))).
    split; [done |]. split; [| by repeat split].
    destruct Hok as [Hc Hn Hfl].
    assert (this ∉ l) as Hni.
    { intros Hin. apply (Hfl _ _ Hdb) in Hin. congruence. }
    split.
    + unfold chain. rewrite Hh, Hf. simpl. split; [done |].
      eexists. rewrite lookup_insert_eq. split; [done |]. simpl.
      eapply segment_ext; [| exact Hc]. intros d Hd.
      rewrite lookup_insert_ne; [done |]. by intros ->.
    + by apply NoDup_cons.
    + rewrite Hh. intros d dbd. destruct (decide (d = this)) as [-> |].
      * rewrite lookup_insert_eq. intros [= <-]. simpl.
        split; [intros _; apply list_elem_of_here | done].
      * rewrite lookup_insert_ne by done. intros Hd.
        rewrite (Hfl _ _ Hd), elem_of_cons. intuition congruence.
Qed.

(** *** Draining *)

Lemma removeFirstAtExitDatabase_empty (w : World) :
  firstDatabase w = None → removeFirstAtExitDatabase w = Some (None, w).
Proof. intros Hf. unfold removeFirstAtExitDatabase. by rewrite Hf. Qed.

Lemma removeFirstAtExitDatabase_spec (w : World) (d : positive)
    (l : list positive) :
  registry_ok w (d :: l) →
  ∃ w' db,
    removeFirstAtExitDatabase w = Some (Some d, w') ∧
    registry_ok w' l ∧
    heap w !! d = Some db ∧
    heap w' = <[d := detached db]> (heap w) ∧
    writable w' = writable w ∧ saves w' = saves w.
Proof.
  intros [Hc Hn Hfl]. destruct Hc as (Hf & db & Hdb & Hc).
  apply NoDup_cons in Hn as [Hni Hn].
  unfold removeFirstAtExitDatabase. rewrite Hf, Hdb. simpl.
  rewrite lookup_insert_eq. simpl.
  eexists _, db. split; [done |].
  assert (∀ A (x y : A) (m : gmap positive A),
            <[d := x]> (<[d := y]> m) = <[d := x]> m) as Hii
    by (intros; apply insert_insert_eq).
  split; [| simpl; by rewrite Hii].
  split; [| done |]; simpl.
  - eapply segment_ext; [| exact Hc]. intros d' Hd'.
    rewrite !lookup_insert_ne; [done | by intros -> | by intros ->].
  - intros d' dbd. rewrite Hii. destruct (decide (d' = d)) as [-> |].
    + rewrite lookup_insert_eq. intros [= <-]. simpl. by split.
    + rewrite lookup_insert_ne by done. intros Hd'.
      rewrite (Hfl _ _ Hd'), elem_of_cons. intuition congruence.
Qed.

Lemma atExitLoop_S (fuel : nat) (w : World) :
  atExitLoop (S fuel) w =
    r ← removeFirstAtExitDatabase w;
    match r.1 with
    | None => Some r.2
    | Some database => w ← performAtExitSave database r.2; atExitLoop fuel w
    end.
Proof. done. Qed.

Lemma atExitLoop_drains (l : list positive) :
  ∀ (w : World) (fuel : nat),
    registry_ok w l →
    length l < fuel →
    ∃ w', atExitLoop fuel w = Some w' ∧
          registry_ok w' [] ∧
          writable w' = writable w ∧
          saves w' = saves w ++ (l ≫= flushOf w) ∧
          ∀ d, heap w' !! d =
                 if decide (d ∈ l) then detached <$> heap w !! d
                 else heap w !! d.
Proof.
  induction l as [| d l IH]; intros w fuel Hok Hfuel.
  - destruct fuel as [| fuel]; [simpl in Hfuel; lia |].
    rewrite atExitLoop_S, removeFirstAtExitDatabase_empty by apply Hok.
    exists w. split; [done |]. split; [done |]. split; [done |].
    split; [by rewrite app_nil_r |]. intros d.
    by rewrite (decide_False (P := d ∈ [])) by apply not_elem_of_nil.
  - destruct fuel as [| fuel]; [simpl in Hfuel; lia |]. rewrite atExitLoop_S.
    pose proof (reg_nodup _ _ Hok) as [Hni _]%NoDup_cons.
    destruct (removeFirstAtExitDatabase_spec _ _ _ Hok)
      as (w1 & db & -> & Hok1 & Hdb & Hh1 & Hw1 & Hs1).
    cbn [mbind option_bind fst snd].
    assert (heap w1 !! d = Some (detached db)) as Hd1
      by (rewrite Hh1; apply lookup_insert_eq).
    destruct (performAtExitSave_spec _ _ _ Hd1)
      as (w2 & -> & Hh2 & Hf2 & Hw2 & Hs2).
    cbn [mbind option_bind fst snd].
    destruct (IH w2 fuel) as (w' & -> & Hok' & Hw' & Hs' & Hh');
      [by eapply registry_ok_ext | simpl in Hfuel; lia |].
    exists w'. split; [done |]. split; [done |].
    split; [congruence |]. split.
    + rewrite Hs', Hs2, Hs1, bind_cons, <- app_assoc. f_equal. f_equal.
      * apply flushOf_ext; [| done].
        by rewrite Hd1, Hdb; simpl; rewrite detached_detached.
      * apply bind_ext_in. intros x Hx. apply flushOf_ext; [| congruence].
        rewrite Hh2, Hh1, lookup_insert_ne; [done |]. by intros ->.
    + intros x. rewrite Hh', Hh2, Hh1.
      destruct (decide (x = d)) as [-> |].
      * rewrite lookup_insert_eq, Hdb.
        rewrite (decide_False (P := d ∈ l)) by done.
        by rewrite (decide_True (P := d ∈ d :: l)) by apply list_elem_of_here.
      * rewrite lookup_insert_ne by done.
        destruct (decide (x ∈ l)) as [Hx | Hx].
        -- by rewrite (decide_True (P := x ∈ d :: l))
             by (by apply list_elem_of_further).
        -- rewrite (decide_False (P := x ∈ d :: l)); [done |].
           rewrite elem_of_cons. intuition congruence.
Qed.

Lemma atExitCallback_spec (w : World) (l : list positive) :
  registry_ok w l →
  ∃ w', atExitCallback w = Some w' ∧
        registry_ok w' [] ∧
        writable w' = writable w ∧
        saves w' = saves w ++ (l ≫= flushOf w) ∧
        ∀ d, heap w' !! d =
               if decide (d ∈ l) then detached <$> heap w !! d
               else heap w !! d.
Proof.
  intros Hok. apply atExitLoop_drains; [done |].
  pose proof (registry_ok_length _ _ Hok). lia.
Qed.

(** *** Unlinking one store *)

Lemma removeLoop_S (fuel : nat) (this : positive) (current : Slot) (w : World) :
  removeLoop (S fuel) this current w =
    cur ← readSlot current w;
    match cur with
    | None => Some w
    | Some c =>
        if decide (c ≠ this) then removeLoop fuel this (SlotNext c) w
        else
          db ← heap w !! this;
          w ← writeSlot current (m_nextRegisteredDatabase db) w;
          db ← heap w !! this;
          let w := store this (with_nextRegisteredDatabase None db) w in
          db ← heap w !! this;
          Some (store this (with_shouldSaveAtExit false db) w)
    end.
Proof. done. Qed.

Lemma lastSlot_cons (current : Slot) (c : positive) (l : list positive) :
  lastSlot current (c :: l) = lastSlot (SlotNext c) l.
Proof. unfold lastSlot. rewrite last_cons. by destruct (last l). Qed.

(** The walk over the stores in front of [this] does nothing but move
    [current] along. *)
Lemma removeLoop_walk (this : positive) (w : World) (stop : option positive)
    (l1 : list positive) :
  ∀ (current : Slot) (cur : option positive) (fuel : nat),
    readSlot current w = Some cur →
    segment (heap w) cur l1 stop →
    this ∉ l1 →
    removeLoop (length l1 + fuel) this current w =
      removeLoop fuel this (lastSlot current l1) w ∧
    readSlot (lastSlot current l1) w = Some stop.
Proof.
  induction l1 as [| c l1 IH]; intros current cur fuel Hread Hseg Hni.
  - simpl in Hseg. by subst.
  - destruct Hseg as (-> & dbc & Hc & Hseg).
    apply not_elem_of_cons in Hni as [Hne Hni].
    rewrite lastSlot_cons.
    change (length (c :: l1) + fuel) with (S (length l1 + fuel)).
    rewrite removeLoop_S, Hread. cbn [mbind option_bind].
    rewrite decide_True by done.
    apply (IH (SlotNext c) (m_nextRegisteredDatabase dbc)); [| done | done].
    simpl. by rewrite Hc.
Qed.

Lemma elem_of_middle (d this : positive) (l1 l2 : list positive) :
  d ≠ this → d ∈ l1 ++ this :: l2 ↔ d ∈ l1 ++ l2.
Proof. intros Hne. rewrite !elem_of_app, elem_of_cons. intuition. Qed.

Lemma removeDatabaseFromAtExit_absent (this : positive) (w : World)
    (l : list positive) :
  registry_ok w l → this ∉ l → removeDatabaseFromAtExit this w = Some w.
Proof.
  intros Hok Hni. unfold removeDatabaseFromAtExit.
  pose proof (registry_ok_length _ _ Hok) as Hlen.
  replace (S (size (heap w))) with (length l + S (size (heap w) - length l)) by lia.
  destruct (removeLoop_walk this w None l SlotFirst (firstDatabase w)
              (S (size (heap w) - length l))) as [-> Hread];
    [done | apply Hok | done |].
  by rewrite removeLoop_S, Hread.
Qed.

Lemma removeDatabaseFromAtExit_member (this : positive) (w : World)
    (l1 l2 : list positive) :
  registry_ok w (l1 ++ this :: l2) →
  ∃ w', removeDatabaseFromAtExit this w = Some w' ∧
        registry_ok w' (l1 ++ l2) ∧
        (∀ d, detached <$> heap w' !! d = detached <$> heap w !! d) ∧
        writable w' = writable w ∧ saves w' = saves w.
Proof.
  intros Hok. pose proof (registry_ok_length _ _ Hok) as Hlen.
  destruct Hok as [Hc Hn Hfl].
  rewrite length_app in Hlen. simpl in Hlen.
  pose proof Hn as (Hn1 & Hdis & Hn2')%NoDup_app.
  pose proof Hn2' as [Hni2 Hn2]%NoDup_cons.
  assert (this ∉ l1) as Hni1
    by (intros Hin; apply (Hdis _ Hin), list_elem_of_here).
  pose proof Hc as (mid & Hseg1 & Hmid & db & Hdb & Hseg2)%segment_app.
  subst mid.
  unfold removeDatabaseFromAtExit.
  replace (S (size (heap w)))
    with (length l1 + S (size (heap w) - length l1)) by lia.
  destruct (removeLoop_walk this w (Some this) l1 SlotFirst (firstDatabase w)
              (S (size (heap w) - length l1))) as [-> Hread]; [done.. |].
  rewrite removeLoop_S, Hread. cbn [mbind option_bind].
  rewrite decide_False by (intros Hne; by apply Hne).
  rewrite Hdb. cbn [mbind option_bind].
  assert (∀ x y (m : gmap positive Database),
            <[this := x]> (<[this := y]> m) = <[this := x]> m) as Hii
    by (intros; apply insert_insert_eq).
  destruct l1 as [| c l1' _] using rev_ind.
  - (* [this] is the head: the slot is [firstDatabase] *)
    unfold lastSlot. simpl. rewrite Hdb. simpl.
    rewrite lookup_insert_eq. simpl.
    eexists. split; [done |]. split; [split |]; simpl.
    + eapply segment_ext; [| exact Hseg2]. intros d Hd.
      rewrite Hii, lookup_insert_ne; [done |]. by intros ->.
    + done.
    + intros d dbd. rewrite Hii. destruct (decide (d = this)) as [-> |].
      * rewrite lookup_insert_eq. intros [= <-]. simpl. by split.
      * rewrite lookup_insert_ne by done. intros Hd.
        rewrite (Hfl _ _ Hd). simpl. rewrite elem_of_cons. intuition.
    + split; [| done]. intros d. rewrite Hii.
      destruct (decide (d = this)) as [-> |].
      * by rewrite lookup_insert_eq, Hdb.
      * by rewrite lookup_insert_ne.
  - (* [this] comes after [c]: the slot is the link of [c] *)
    unfold lastSlot. rewrite last_snoc.
    apply segment_app in Hseg1 as (mid & Hseg1 & Hmid & dbc & Hdbc & Hnext).
    subst mid. simpl in Hnext.
    assert (c ≠ this) as Hcne.
    { intros ->. apply Hni1, elem_of_app. right. apply list_elem_of_here. }
    pose proof Hn1 as (_ & Hdis1 & _)%NoDup_app.
    assert (c ∉ l1') as Hcni
      by (intros Hin; apply (Hdis1 _ Hin), list_elem_of_here).
    assert (c ∉ l2) as Hcni2.
    { intros Hin. apply (Hdis c); [apply elem_of_app; right; apply list_elem_of_here |].
      by apply list_elem_of_further. }
    simpl. rewrite Hdbc. simpl. rewrite lookup_insert_ne by done.
    rewrite Hdb. simpl. rewrite lookup_insert_eq. simpl.
    eexists. split; [done |]. split; [split |]; simpl.
    + rewrite Hii. unfold chain. rewrite <- app_assoc. apply segment_app.
      exists (Some c). split.
      * eapply segment_ext; [| exact Hseg1]. intros d Hd.
        rewrite !lookup_insert_ne; [done | by intros -> |].
        intros ->. apply Hni1, elem_of_app. by left.
      * split; [done |]. eexists. split.
        { rewrite lookup_insert_ne by done. apply lookup_insert_eq. }
        simpl. eapply segment_ext; [| exact Hseg2]. intros d Hd.
        rewrite !lookup_insert_ne; [done | by intros -> | by intros ->].
    + apply NoDup_app. split; [done |]. split; [| done].
      intros d Hd Hd2. apply (Hdis d); [done |]. by apply list_elem_of_further.
    + intros d dbd. rewrite Hii. destruct (decide (d = this)) as [-> |].
      * rewrite lookup_insert_eq. intros [= <-]. simpl.
        split; [done |]. intros [Hin | Hin]%elem_of_app;
          [destruct (Hni1 Hin) | destruct (Hni2 Hin)].
      * rewrite lookup_insert_ne by done.
        rewrite <- (elem_of_middle d this (l1' ++ [c]) l2) by done.
        destruct (decide (d = c)) as [-> |].
        -- rewrite lookup_insert_eq. intros [= <-]. simpl. by apply Hfl.
        -- rewrite lookup_insert_ne by done. apply Hfl.
    + split; [| done]. intros d. rewrite Hii.
      destruct (decide (d = this)) as [-> |].
      * by rewrite lookup_insert_eq, Hdb.
      * rewrite lookup_insert_ne by done.
        destruct (decide (d = c)) as [-> |].
        -- rewrite lookup_insert_eq, Hdbc. simpl. by rewrite detached_with_next.
        -- by rewrite lookup_insert_ne.
Qed.

Lemma removeDatabaseFromAtExit_spec (this : positive) (w : World)
    (l : list positive) :
  registry_ok w l →
  ∃ w', removeDatabaseFromAtExit this w = Some w' ∧
        registry_ok w' (filter (λ d, d ≠ this) l) ∧
        (∀ d, detached <$> heap w' !! d = detached <$> heap w !! d) ∧
        writable w' = writable w ∧ saves w' = saves w.
Proof.
  intros Hok. destruct (decide (this ∈ l)) as [Hin | Hni].
  - apply list_elem_of_split in Hin as (l1 & l2 & ->).
    rewrite (filter_ne_middle _ _ _ (reg_nodup _ _ Hok)).
    by apply removeDatabaseFromAtExit_member.
  - rewrite (removeDatabaseFromAtExit_absent _ _ _ Hok Hni), filter_ne_notin by done.
    by exists w.
Qed.

(** *** Destruction *)

Lemma registry_ok_delete (this : positive) (w : World) (l : list positive) :
  registry_ok w l → this ∉ l →
  registry_ok (with_heap (delete this (heap w)) w) l.
Proof.
  intros [Hc Hn Hfl] Hni. split; [| done |]; simpl.
  - eapply segment_ext; [| exact Hc]. intros d Hd.
    rewrite lookup_delete_ne; [done |]. by intros ->.
  - intros d dbd [_ Hd]%lookup_delete_Some. by apply Hfl.
Qed.

Lemma destroy_spec (this : positive) (db : Database) (w : World)
    (l : list positive) :
  registry_ok w l →
  heap w !! this = Some db →
  ∃ w', destroy this w = Some w' ∧
        registry_ok w' (filter (λ d, d ≠ this) l) ∧
        heap w' !! this = None ∧
        (∀ d, d ≠ this → detached <$> heap w' !! d = detached <$> heap w !! d) ∧
        writable w' = writable w ∧
        saves w' =
          saves w ++ (if m_shouldSaveAtExit db then flushOf w this else []).
Proof.
  intros Hok Hdb. unfold destroy. rewrite Hdb. cbn [mbind option_bind].
  assert (this ∉ filter (λ d, d ≠ this) l) as Hni.
  { intros [Hne _]%list_elem_of_filter. by apply Hne. }
  destruct (m_shouldSaveAtExit db) eqn:Hflag.
  - destruct (removeDatabaseFromAtExit_spec this _ _ Hok)
      as (w1 & -> & Hok1 & Hh1 & Hw1 & Hs1). cbn [mbind option_bind].
    pose proof (Hh1 this) as Hthis. rewrite Hdb in Hthis.
    destruct (heap w1 !! this) as [db1 |] eqn:Hdb1; [| done].
    destruct (performAtExitSave_spec _ _ _ Hdb1)
      as (w2 & -> & Hh2 & Hf2 & Hw2 & Hs2). cbn [mbind option_bind].
    eexists. split; [done |].
    split; [apply registry_ok_delete; [by eapply registry_ok_ext | done] |].
    simpl. split; [apply lookup_delete_eq |].
    split; [intros d Hd; by rewrite lookup_delete_ne, Hh2 |].
    split; [congruence |].
    rewrite Hs2, Hs1. f_equal. apply flushOf_ext; [| done].
    by rewrite Hdb1, Hdb.
  - assert (this ∉ l) as Hni'.
    { intros Hin. apply (reg_flag _ _ Hok _ _ Hdb) in Hin. congruence. }
    cbn [mbind option_bind]. eexists. split; [done |].
    rewrite filter_ne_notin by done.
    split; [by apply registry_ok_delete |].
    simpl. split; [apply lookup_delete_eq |].
    split; [intros d Hd; by rewrite lookup_delete_ne |].
    split; [done | by rewrite app_nil_r].
Qed.

Lemma flushOf_self (w : World) (this : positive) :
  filter (λ c, sc_database c = this) (flushOf w this) = flushOf w this.
Proof.
  unfold flushOf. destruct (heap w !! this); [| done].
  by rewrite filter_cons_True.
Qed.

Lemma flushOf_member (w : World) (this : positive) (l : list positive) :
  NoDup l → this ∈ l →
  filter (λ c, sc_database c = this) (l ≫= flushOf w) = flushOf w this.
Proof.
  intros Hnd (l1 & l2 & ->)%list_elem_of_split.
  apply NoDup_app in Hnd as (_ & Hdis & [Hni2 _]%NoDup_cons).
  rewrite bind_app, bind_cons, !filter_app, flushOf_self.
  rewrite !flushOf_database; [by rewrite app_nil_r | done |].
  intros Hin. apply (Hdis _ Hin), list_elem_of_here.
Qed.

Lemma flushOf_lookup (w : World) (this : positive) (db : Database) :
  heap w !! this = Some db →
  flushOf w this =
    [mkSaveCall this (m_atExitSaveFilename db)
       (writable w (m_atExitSaveFilename db))].
Proof. intros Hdb. unfold flushOf. by rewrite Hdb. Qed.

Lemma registerEach_pending (this : positive) (paths : list string) :
  ∀ (w : World) (l : list positive) (db : Database),
    registry_ok w l →
    heap w !! this = Some db →
    m_shouldSaveAtExit db = true →
    ∃ w' db',
      registerEach this paths w = Some w' ∧
      registry_ok w' l ∧
      heap w' = <[this := db']> (heap w) ∧
      m_shouldSaveAtExit db' = true ∧
      m_atExitSaveFilename db' = default (m_atExitSaveFilename db) (last paths) ∧
      writable w' = writable w ∧ saves w' = saves w.
Proof.
  induction paths as [| p paths IH]; intros w l db Hok Hdb Hflag.
  - exists w, db. split; [done |]. split; [done |].
    split; [by rewrite insert_id |]. done.
  - simpl. rewrite (registerToSaveAtExit_pending _ _ _ _ Hdb Hflag).
    cbn [mbind option_bind].
    destruct (IH (store this (with_atExitSaveFilename p db) w) l
                 (with_atExitSaveFilename p db))
      as (w' & db' & -> & Hok' & Hh' & Hflag' & Hname' & Hw' & Hs');
      [by eapply registry_ok_update | apply lookup_insert_eq | done |].
    exists w', db'. split; [done |]. split; [done |].
    split; [by rewrite Hh'; simpl; rewrite insert_insert_eq |].
    split; [done |]. split; [| done].
    rewrite Hname', last_cons. by destruct (last paths).
Qed.

Lemma registerEach_spec (this : positive) (p : string) (paths : list string)
    (w : World) (l : list positive) (db : Database) :
  registry_ok w l →
  heap w !! this = Some db →
  ∃ w' db',
    registerEach this (p :: paths) w = Some w' ∧
    registry_ok w' (if m_shouldSaveAtExit db then l else this :: l) ∧
    heap w' = <[this := db']> (heap w) ∧
    m_shouldSaveAtExit db' = true ∧
    m_atExitSaveFilename db' = default p (last paths) ∧
    writable w' = writable w ∧ saves w' = saves w.
Proof.
  intros Hok Hdb. simpl.
  destruct (registerToSaveAtExit_spec this db p w l Hok Hdb)
    as (w1 & db1 & -> & Hok1 & Hh1 & Hflag1 & Hname1 & _ & Hw1 & Hs1).
  cbn [mbind option_bind].
  destruct (registerEach_pending this paths w1 _ db1 Hok1)
    as (w' & db' & -> & Hok' & Hh' & Hflag' & Hname' & Hw' & Hs');
    [by rewrite Hh1, lookup_insert_eq | done |].
  exists w', db'. split; [done |]. split; [done |].
  split; [by rewrite Hh', Hh1, insert_insert_eq |].
  split; [done |]. split; [congruence |]. split; congruence.
Qed.

(** The first registration of the process installs the exit handler, and
    it stays installed. *)
Lemma registerToSaveAtExit_installs_handler (this : positive) (db : Database)
    (filename : string) (w : World) :
  handler_ok w →
  heap w !! this = Some db →
  ∃ w', registerToSaveAtExit this filename w = Some w' ∧
        handler_ok w' ∧
        (m_shouldSaveAtExit db = false → 0 < atexitHandlers w').
Proof.
  intros Hh Hdb. destruct (m_shouldSaveAtExit db) eqn:Hflag.
  - rewrite (registerToSaveAtExit_pending _ _ _ _ Hdb Hflag).
    eexists. split; [done |]. by split.
  - destruct (registerToSaveAtExit_first _ _ filename _ Hdb Hflag)
      as (w' & -> & _ & _ & _ & _ & _ & Hc & Ha).
    exists w'. split; [done |].
    assert (0 < atexitHandlers w') as Hpos.
    { rewrite Ha. destruct (atexitHandlers w) as [| n] eqn:Hn.
      - rewrite (Hh Hn). simpl. lia.
      - case_decide; lia. }
    split; [| done]. intros Hzero. lia.
Qed.

(** *** Runs *)

Lemma stepStore_frame (op : StoreOp) (db : Database) :
  m_shouldSaveAtExit (stepStore db op) = m_shouldSaveAtExit db ∧
  m_atExitSaveFilename (stepStore db op) = m_atExitSaveFilename db ∧
  m_nextRegisteredDatabase (stepStore db op) = m_nextRegisteredDatabase db.
Proof.
  destruct op as [h | h | h r | now h s d]; simpl; try done.
  - by destruct (ensureBytecodesFor_frame h db) as (_ & _ & _ & _ & -> & -> & ->).
  - rewrite logEvent_frame. simpl.
    by destruct (ensureBytecodesFor_frame h db) as (_ & _ & _ & _ & -> & -> & ->).
Qed.

Lemma detached_filename (o1 o2 : option Database) :
  detached <$> o1 = detached <$> o2 →
  m_atExitSaveFilename <$> o1 = m_atExitSaveFilename <$> o2.
Proof.
  destruct o1 as [db1 |], o2 as [db2 |]; simpl; try done.
  intros [= Heq]. f_equal. by destruct db1, db2; inversion Heq.
Qed.

Lemma flushOf_other (w : World) (this d : positive) :
  d ≠ this → filter (λ c, sc_database c = this) (flushOf w d) = [].
Proof.
  intros Hne. unfold flushOf. destruct (heap w !! d); [| done].
  by rewrite filter_cons_False.
Qed.

Lemma logged_nothing (w w' : World) :
  writable w' = writable w → saves w' = saves w → logged w w' [].
Proof. intros Hw Hs. split; [done | by rewrite app_nil_r]. Qed.

Lemma logged_trans (w w1 w2 : World) (n1 n2 : list SaveCall) :
  logged w w1 n1 → logged w1 w2 n2 → logged w w2 (n1 ++ n2).
Proof.
  intros [Hw1 Hs1] [Hw2 Hs2]. split; [congruence |].
  by rewrite Hs2, Hs1, <- app_assoc.
Qed.

Lemma construct_live (this : positive) (w w' : World) :
  construct this w = Some w' → heap w !! this = None.
Proof. unfold construct. by destruct (heap w !! this). Qed.

Lemma save_effect (d : positive) (dbd : Database) (f' : string) (w w' : World) :
  heap w !! d = Some dbd →
  snd <$> save d f' w = Some w' →
  ∃ ok fs, w' = with_files fs (with_saves (saves w ++ [mkSaveCall d f' ok]) w).
Proof.
  intros Hd Hstep. destruct (writable w f') eqn:Hwr.
  - rewrite (save_writable _ _ _ _ Hd Hwr) in Hstep. simpl in Hstep.
    injection Hstep as <-. by eexists true, _.
  - rewrite (save_unwritable _ _ _ _ Hd Hwr) in Hstep. simpl in Hstep.
    injection Hstep as <-. by exists false, (files w).
Qed.

(** A step that neither flushes [this] nor asks for a save of [this]
    leaves it on the list, with its file name, and does not save it. *)
Lemma step_quiet_pending (this : positive) (f : string) (w w' : World)
    (op : ProcessOp) :
  pending this f w →
  flushTrigger this op = false →
  requestsSave this op = false →
  stepProcess w op = Some w' →
  pending this f w' ∧
  ∃ new, logged w w' new ∧ filter (λ c, sc_database c = this) new = [].
Proof.
  intros (l & Hok & Hin & Hf) Htrig Hreq Hstep.
  destruct op as [d | d sop | d f' | d f' | d |]; simpl in *.
  - pose proof (construct_live _ _ _ Hstep) as Hfresh.
    destruct (construct_spec w l d Hok Hfresh) as (w'' & Heq & Hok' & Hh & Hw & Hs & _).
    rewrite Hstep in Heq. injection Heq as <-.
    split; [| exists []; split; [by apply logged_nothing | done]].
    exists l. split; [done |]. split; [done |].
    rewrite Hh, lookup_insert_ne; [done |]. intros ->. by rewrite Hfresh in Hf.
  - unfold onDatabase in Hstep.
    destruct (heap w !! d) as [dbd |] eqn:Hd; [| done]. simpl in Hstep.
    injection Hstep as <-.
    destruct (stepStore_frame sop dbd) as (Hflag & Hname & Hnext).
    split; [| exists []; split; [by apply logged_nothing | done]].
    exists l. split; [by eapply registry_ok_update |]. split; [done |].
    simpl. destruct (decide (d = this)) as [-> |].
    + rewrite lookup_insert_eq. rewrite Hd in Hf. simpl in *. by rewrite Hname.
    + by rewrite lookup_insert_ne.
  - apply bool_decide_eq_false in Hreq.
    destruct (heap w !! d) as [dbd |] eqn:Hd;
      [| by unfold save in Hstep; rewrite Hd in Hstep].
    destruct (save_effect _ _ _ _ _ Hd Hstep) as (ok & fs & ->).
    split.
    + exists l. split; [by apply (registry_ok_ext w) | done].
    + exists [mkSaveCall d f' ok]. split; [done |].
      by rewrite filter_cons_False.
  - apply bool_decide_eq_false in Hreq.
    destruct (heap w !! d) as [dbd |] eqn:Hd;
      [| by unfold registerToSaveAtExit in Hstep; rewrite Hd in Hstep].
    destruct (registerToSaveAtExit_spec d dbd f' w l Hok Hd)
      as (w'' & db' & Heq & Hok' & Hh & _ & _ & _ & Hw & Hs).
    rewrite Hstep in Heq. injection Heq as <-.
    split; [| exists []; split; [by apply logged_nothing | done]].
    eexists. split; [exact Hok' |].
    split; [destruct (m_shouldSaveAtExit dbd); [done | by apply list_elem_of_further] |].
    by rewrite Hh, lookup_insert_ne.
  - apply bool_decide_eq_false in Htrig.
    destruct (heap w !! d) as [dbd |] eqn:Hd;
      [| by unfold destroy in Hstep; rewrite Hd in Hstep].
    destruct (destroy_spec d dbd w l Hok Hd)
      as (w'' & Heq & Hok' & _ & Hh & Hw & Hs).
    rewrite Hstep in Heq. injection Heq as <-.
    split.
    + eexists. split; [exact Hok' |].
      split; [apply list_elem_of_filter; by split; [intros -> |] |].
      rewrite <- Hf. apply detached_filename, Hh. by intros ->.
    + eexists. split; [by split |].
      destruct (m_shouldSaveAtExit dbd); [by apply flushOf_other | done].
  - done.
Qed.

(** The step that destroys [this] or runs the exit handler saves [this]
    once, to its file name, and takes it off the list. *)
Lemma step_trigger_pending (this : positive) (f : string) (w w' : World)
    (op : ProcessOp) :
  pending this f w →
  flushTrigger this op = true →
  stepProcess w op = Some w' →
  idle this w' ∧
  ∃ new, logged w w' new ∧
         filter (λ c, sc_database c = this) new =
           [mkSaveCall this f (writable w f)].
Proof.
  intros (l & Hok & Hin & Hf) Htrig Hstep.
  destruct (heap w !! this) as [db |] eqn:Hdb; [| done].
  simpl in Hf. injection Hf as <-.
  pose proof (proj2 (reg_flag _ _ Hok _ _ Hdb) Hin) as Hflag.
  destruct op as [d | d sop | d f' | d f' | d |]; simpl in *; try done.
  - apply bool_decide_eq_true in Htrig as ->.
    destruct (destroy_spec this db w l Hok Hdb)
      as (w'' & Heq & Hok' & _ & _ & Hw & Hs).
    rewrite Hstep in Heq. injection Heq as <-.
    rewrite Hflag, (flushOf_lookup _ _ _ Hdb) in Hs.
    split.
    + eexists. split; [exact Hok' |]. intros [Hne _]%list_elem_of_filter.
      by apply Hne.
    + eexists. split; [by split |]. by rewrite filter_cons_True.
  - destruct (atExitCallback_spec _ _ Hok) as (w'' & Heq & Hok' & Hw & Hs & _).
    rewrite Hstep in Heq. injection Heq as <-.
    split; [exists []; split; [done | apply not_elem_of_nil] |].
    eexists. split; [by split |].
    by rewrite (flushOf_member _ _ _ (reg_nodup _ _ Hok) Hin),
      (flushOf_lookup _ _ _ Hdb).
Qed.

(** Off the list, [this] is not saved by any step that does not ask for
    it, and stays off the list. *)
Lemma step_idle (this : positive) (w w' : World) (op : ProcessOp) :
  idle this w →
  requestsSave this op = false →
  stepProcess w op = Some w' →
  idle this w' ∧
  ∃ new, logged w w' new ∧ filter (λ c, sc_database c = this) new = [].
Proof.
  intros (l & Hok & Hni) Hreq Hstep.
  destruct op as [d | d sop | d f' | d f' | d |]; simpl in *.
  - pose proof (construct_live _ _ _ Hstep) as Hfresh.
    destruct (construct_spec w l d Hok Hfresh) as (w'' & Heq & Hok' & Hh & Hw & Hs & _).
    rewrite Hstep in Heq. injection Heq as <-.
    split; [by exists l |]. exists []. split; [by apply logged_nothing | done].
  - unfold onDatabase in Hstep.
    destruct (heap w !! d) as [dbd |] eqn:Hd; [| done]. simpl in Hstep.
    injection Hstep as <-.
    destruct (stepStore_frame sop dbd) as (Hflag & Hname & Hnext).
    split; [| exists []; split; [by apply logged_nothing | done]].
    exists l. split; [by eapply registry_ok_update | done].
  - apply bool_decide_eq_false in Hreq.
    destruct (heap w !! d) as [dbd |] eqn:Hd;
      [| by unfold save in Hstep; rewrite Hd in Hstep].
    destruct (save_effect _ _ _ _ _ Hd Hstep) as (ok & fs & ->).
    split.
    + exists l. split; [by apply (registry_ok_ext w) | done].
    + exists [mkSaveCall d f' ok]. split; [done |].
      by rewrite filter_cons_False.
  - apply bool_decide_eq_false in Hreq.
    destruct (heap w !! d) as [dbd |] eqn:Hd;
      [| by unfold registerToSaveAtExit in Hstep; rewrite Hd in Hstep].
    destruct (registerToSaveAtExit_spec d dbd f' w l Hok Hd)
      as (w'' & db' & Heq & Hok' & Hh & _ & _ & _ & Hw & Hs).
    rewrite Hstep in Heq. injection Heq as <-.
    split; [| exists []; split; [by apply logged_nothing | done]].
    eexists. split; [exact Hok' |].
    destruct (m_shouldSaveAtExit dbd); [done |].
    apply not_elem_of_cons. split; [by intros -> | done].
  - destruct (heap w !! d) as [dbd |] eqn:Hd;
      [| by unfold destroy in Hstep; rewrite Hd in Hstep].
    destruct (destroy_spec d dbd w l Hok Hd)
      as (w'' & Heq & Hok' & _ & Hh & Hw & Hs).
    rewrite Hstep in Heq. injection Heq as <-.
    split.
    + eexists. split; [exact Hok' |]. by intros [_ Hin]%list_elem_of_filter.
    + eexists. split; [by split |].
      destruct (m_shouldSaveAtExit dbd) eqn:Hflag; [| done].
      apply flushOf_other. intros ->.
      by apply Hni, (reg_flag _ _ Hok _ _ Hd).
  - destruct (atExitCallback_spec _ _ Hok) as (w'' & Heq & Hok' & Hw & Hs & _).
    rewrite Hstep in Heq. injection Heq as <-.
    split; [exists []; split; [done | apply not_elem_of_nil] |].
    eexists. split; [by split |]. by apply flushOf_database.
Qed.

Lemma runProcess_app (ops1 ops2 : list ProcessOp) (w : World) :
  runProcess (ops1 ++ ops2) w = w1 ← runProcess ops1 w; runProcess ops2 w1.
Proof.
  revert w. induction ops1 as [| op ops1 IH]; intros w; [done |].
  simpl. destruct (stepProcess w op) as [w1 |]; [apply IH | done].
Qed.

(** Every step keeps the list well formed, so every state the process
    reaches from its start has a well-formed list. *)
Lemma step_registry_ok (w w' : World) (l : list positive) (op : ProcessOp) :
  registry_ok w l →
  stepProcess w op = Some w' →
  ∃ l', registry_ok w' l'.
Proof.
  intros Hok Hstep.
  set (target := match op with
                 | PSave d _ | PRegisterToSaveAtExit d _ => d
                 | _ => 1%positive
                 end).
  pose proof (infinite_is_fresh (target :: l)) as Hfresh.
  apply not_elem_of_cons in Hfresh as [Hne Hni].
  destruct (step_idle (fresh (target :: l)) w w' op) as ((l' & Hok' & _) & _);
    [by exists l | | done | by exists l'].
  destruct op; simpl in *; try done; by apply bool_decide_eq_false.
Qed.

Lemma run_registry_ok (ops : list ProcessOp) :
  ∀ w w' l,
    registry_ok w l → runProcess ops w = Some w' → ∃ l', registry_ok w' l'.
Proof.
  induction ops as [| op ops IH]; intros w w' l Hok Hrun.
  - injection Hrun as <-. by exists l.
  - simpl in Hrun. destruct (stepProcess w op) as [w1 |] eqn:Hstep; [| done].
    destruct (step_registry_ok _ _ _ _ Hok Hstep) as [l1 Hok1].
    by eapply IH.
Qed.

Lemma registry_ok_reachable (canOpen : string → bool) (ops : list ProcessOp)
    (w : World) :
  runProcess ops (newWorld canOpen) = Some w → ∃ l, registry_ok w l.
Proof.
  intros Hrun.
  eapply run_registry_ok; [apply (registry_ok_new canOpen) | exact Hrun].
Qed.

(** *** Runs with calls of [save] and [registerToSaveAtExit] on the store *)

Lemma quiet_directSave (this : positive) (canOpen : string → bool)
    (op : ProcessOp) :
  requestsSave this op = false →
  directSave this canOpen op = [] ∧ ∀ f, pathAfter this f op = f.
Proof.
  destruct op; simpl; try done; intros Hreq%bool_decide_eq_false;
    (split; [| intros f0]); try done; by rewrite decide_False.
Qed.

Lemma save_direct (this : positive) (db : Database) (f' : string)
    (w w' : World) :
  heap w !! this = Some db →
  snd <$> save this f' w = Some w' →
  heap w' = heap w ∧ firstDatabase w' = firstDatabase w ∧
  logged w w' [mkSaveCall this f' (writable w f')].
Proof.
  intros Hdb Hstep. destruct (writable w f') eqn:Hwr.
  - rewrite (save_writable _ _ _ _ Hdb Hwr) in Hstep. simpl in Hstep.
    by injection Hstep as <-.
  - rewrite (save_unwritable _ _ _ _ Hdb Hwr) in Hstep. simpl in Hstep.
    by injection Hstep as <-.
Qed.

(** A step that does not flush [this] leaves it on the list.  When the step
    is a call of [registerToSaveAtExit] on [this], the store holds the new
    file name and nothing else changes; the only save of [this] the step
    can log is the client's own call of [save]. *)
Lemma step_pending (this : positive) (f : string) (w w' : World)
    (op : ProcessOp) :
  pending this f w →
  flushTrigger this op = false →
  stepProcess w op = Some w' →
  pending this (pathAfter this f op) w' ∧
  ∃ new, logged w w' new ∧
         filter (λ c, sc_database c = this) new =
           directSave this (writable w) op.
Proof.
  intros Hp Htrig Hstep.
  destruct (requestsSave this op) eqn:Hreq.
  - destruct Hp as (l & Hok & Hin & Hf).
    destruct (heap w !! this) as [db |] eqn:Hdb; [| done].
    simpl in Hf. injection Hf as <-.
    destruct op as [d | d sop | d f' | d f' | d |]; simpl in *; try done;
      apply bool_decide_eq_true in Hreq as ->; rewrite decide_True by done.
    + destruct (save_direct _ _ _ _ _ Hdb Hstep) as (Hh & Hfirst & Hlog).
      split.
      * exists l. split; [by apply (registry_ok_ext w) |]. split; [done |].
        by rewrite Hh, Hdb.
      * eexists. split; [exact Hlog |]. by rewrite filter_cons_True.
    + pose proof (proj2 (reg_flag _ _ Hok _ _ Hdb) Hin) as Hflag.
      rewrite (registerToSaveAtExit_pending _ _ _ _ Hdb Hflag) in Hstep.
      injection Hstep as <-.
      split; [| exists []; split; [by apply logged_nothing | done]].
      exists l. split; [by apply (registry_ok_update w l this db) |].
      split; [done |]. simpl. by rewrite lookup_insert_eq.
  - destruct (quiet_directSave this (writable w) op Hreq) as [-> Hpath].
    rewrite Hpath. by apply (step_quiet_pending this f w w' op).
Qed.

(** Off the list, [this] stays off the list as long as
    [registerToSaveAtExit] is not called on it, and the only save of [this]
    a step can log is the client's own call of [save]. *)
Lemma step_idle_direct (this : positive) (w w' : World) (op : ProcessOp) :
  idle this w →
  registersAgain this op = false →
  stepProcess w op = Some w' →
  idle this w' ∧
  ∃ new, logged w w' new ∧
         filter (λ c, sc_database c = this) new =
           directSave this (writable w) op.
Proof.
  intros Hi Hreg Hstep.
  destruct (requestsSave this op) eqn:Hreq.
  - destruct Hi as (l & Hok & Hni).
    destruct op as [d | d sop | d f' | d f' | d |]; simpl in *; try done;
      [| congruence].
    apply bool_decide_eq_true in Hreq as ->. rewrite decide_True by done.
    destruct (heap w !! this) as [db |] eqn:Hdb;
      [| by unfold save in Hstep; rewrite Hdb in Hstep].
    destruct (save_direct _ _ _ _ _ Hdb Hstep) as (Hh & Hfirst & Hlog).
    split; [exists l; split; [by apply (registry_ok_ext w) | done] |].
    eexists. split; [exact Hlog |]. by rewrite filter_cons_True.
  - destruct (quiet_directSave this (writable w) op Hreq) as [-> _].
    by apply (step_idle this w w' op).
Qed.

Lemma run_pending (this : positive) (ops : list ProcessOp) :
  ∀ f w w',
    pending this f w →
    Forall (λ op, flushTrigger this op = false) ops →
    runProcess ops w = Some w' →
    pending this (lastPath this f ops) w' ∧
    ∃ new, logged w w' new ∧
           filter (λ c, sc_database c = this) new =
             ops ≫= directSave this (writable w).
Proof.
  induction ops as [| op ops IH]; intros f w w' Hp Hops Hrun.
  - injection Hrun as <-. split; [done |].
    exists []. split; [by apply logged_nothing | done].
  - apply Forall_cons in Hops as [Htrig Hops]. simpl in Hrun.
    destruct (stepProcess w op) as [w1 |] eqn:Hstep; [| done].
    destruct (step_pending _ _ _ _ _ Hp Htrig Hstep) as (Hp1 & n1 & Hl1 & Hf1).
    destruct (IH _ _ _ Hp1 Hops Hrun) as (Hp' & n2 & Hl2 & Hf2).
    split; [done |]. exists (n1 ++ n2).
    split; [by eapply logged_trans |].
    rewrite filter_app, Hf1, Hf2, bind_cons. destruct Hl1 as [-> _]. done.
Qed.

Lemma run_idle_direct (this : positive) (ops : list ProcessOp) :
  ∀ w w',
    idle this w →
    Forall (λ op, registersAgain this op = false) ops →
    runProcess ops w = Some w' →
    ∃ new, logged w w' new ∧
           filter (λ c, sc_database c = this) new =
             ops ≫= directSave this (writable w).
Proof.
  induction ops as [| op ops IH]; intros w w' Hi Hops Hrun.
  - injection Hrun as <-. exists []. split; [by apply logged_nothing | done].
  - apply Forall_cons in Hops as [Hreg Hops]. simpl in Hrun.
    destruct (stepProcess w op) as [w1 |] eqn:Hstep; [| done].
    destruct (step_idle_direct _ _ _ _ Hi Hreg Hstep) as (Hi1 & n1 & Hl1 & Hf1).
    destruct (IH _ _ Hi1 Hops Hrun) as (n2 & Hl2 & Hf2).
    exists (n1 ++ n2). split; [by eapply logged_trans |].
    rewrite filter_app, Hf1, Hf2, bind_cons. destruct Hl1 as [-> _]. done.
Qed.

(** A store on the list is flushed exactly once by a run in which it is
    destroyed or the exit handler runs, to the file name of the last
    [registerToSaveAtExit] before the flush, as long as
    [registerToSaveAtExit] is not called on it after the flush; its other
    saves are the client's own calls of [save]. *)
Lemma run_flushed_once (this : positive) (f : string) (w w' : World)
    (pre post : list ProcessOp) (trigger : ProcessOp) :
  pending this f w →
  Forall (λ op, flushTrigger this op = false) pre →
  flushTrigger this trigger = true →
  Forall (λ op, registersAgain this op = false) post →
  runProcess (pre ++ trigger :: post) w = Some w' →
  savesOf this (length (saves w)) w' =
    (pre ≫= directSave this (writable w)) ++
    mkSaveCall this (lastPath this f pre) (writable w (lastPath this f pre)) ::
    (post ≫= directSave this (writable w)).
Proof.
  intros Hp Hpre Htrig Hpost Hrun. rewrite runProcess_app in Hrun.
  destruct (runProcess pre w) as [w1 |] eqn:Hrun1; [| done].
  simpl in Hrun.
  destruct (stepProcess w1 trigger) as [w2 |] eqn:Hstep; [| done].
  simpl in Hrun.
  destruct (run_pending _ _ _ _ _ Hp Hpre Hrun1) as (Hp1 & n1 & Hl1 & Hf1).
  destruct (step_trigger_pending _ _ _ _ _ Hp1 Htrig Hstep) as (Hi2 & n2 & Hl2 & Hf2).
  destruct (run_idle_direct _ _ _ _ Hi2 Hpost Hrun) as (n3 & Hl3 & Hf3).
  destruct (logged_trans _ _ _ _ _ (logged_trans _ _ _ _ _ Hl1 Hl2) Hl3) as [_ Hs].
  unfold savesOf. rewrite Hs, drop_app_length, !filter_app, Hf1, Hf2, Hf3.
  destruct Hl2 as [-> _]. destruct Hl1 as [-> _]. by rewrite <- app_assoc.
Qed.

(** After the exit handler has run, a call of [registerToSaveAtExit] finds
    the flag clear and puts the store on the list again. *)
Lemma registerToSaveAtExit_after_exit (this : positive) (db : Database)
    (filename : string) (w wa : World) (l : list positive) :
  registry_ok w l →
  heap w !! this = Some db →
  atExitCallback w = Some wa →
  ∃ wr, registerToSaveAtExit this filename wa = Some wr ∧
        registry_ok wr [this] ∧
        m_atExitSaveFilename <$> heap wr !! this = Some filename ∧
        saves wr = saves wa.
Proof.
  intros Hok Hdb Hexit.
  destruct (atExitCallback_spec _ _ Hok) as (wa' & Heq & Hoka & _ & _ & Hha).
  rewrite Hexit in Heq. injection Heq as <-.
  assert (∃ dba, heap wa !! this = Some dba ∧ m_shouldSaveAtExit dba = false)
    as (dba & Hdba & Hflag).
  { destruct (heap wa !! this) as [dba |] eqn:Hdba.
    - exists dba. split; [done |].
      destruct (m_shouldSaveAtExit dba) eqn:Hflag; [| done].
      by apply (reg_flag _ _ Hoka _ _ Hdba), elem_of_nil in Hflag.
    - rewrite Hha, Hdb in Hdba. by case_decide. }
  destruct (registerToSaveAtExit_spec this dba filename wa [] Hoka Hdba)
    as (wr & db' & Hreg & Hokr & Hh & _ & Hname & _ & _ & Hs).
  rewrite Hflag in Hokr. exists wr. do 2 (split; [done |]).
  split; [| done]. by rewrite Hh, lookup_insert_eq; simpl; rewrite Hname.
Qed.

(** C1, as amended.  A store that is registered for saving at exit, by one
    call of [registerToSaveAtExit] or by several, is on the list once: a
    call that finds the flag set records the file name and does nothing
    else.  From then on the store is flushed exactly once, to the file name
    of the last call: when [atExitCallback] runs first it saves the store
    and clears the flag, and the destructor that follows saves nothing;
    when the destructor runs first it takes the store off the list and
    saves it, and the [atExitCallback] that follows does not save it again.
    The same holds however the rest of the process interleaves: in every
    run that destroys the store or runs the exit handler, whatever is
    called before that, and in which [registerToSaveAtExit] is not called
    on the store after that, the saves of the store are the client's own
    calls of [save] and one flush, to the file name of the last
    [registerToSaveAtExit] before it.  A call of [registerToSaveAtExit]
    after the exit handler has run finds the flag clear and puts the store
    on the list again. *)
Theorem shutdown_save_once (w : World) (l : list positive) (this : positive)
    (db : Database) (p : string) (paths : list string) :
  registry_ok w l →
  heap w !! this = Some db →
  let final := default p (last paths) in
  let flush := [mkSaveCall this final (writable w final)] in
  ∃ w1 db1,
    registerEach this (p :: paths) w = Some w1 ∧
    heap w1 !! this = Some db1 ∧
    m_shouldSaveAtExit db1 = true ∧
    m_atExitSaveFilename db1 = final ∧
    saves w1 = saves w ∧
    (∃ l1, registry_ok w1 l1 ∧ this ∈ l1 ∧
           l1 = if m_shouldSaveAtExit db then l else this :: l) ∧
    (∀ p', registerToSaveAtExit this p' w1 =
             Some (store this (with_atExitSaveFilename p' db1) w1)) ∧
    (∃ wa wb,
       atExitCallback w1 = Some wa ∧ destroy this wa = Some wb ∧
       savesOf this (length (saves w)) wa = flush ∧
       saves wb = saves wa ∧
       savesOf this (length (saves w)) wb = flush) ∧
    (∃ wa wb,
       destroy this w1 = Some wa ∧ atExitCallback wa = Some wb ∧
       savesOf this (length (saves w)) wa = flush ∧
       savesOf this (length (saves wa)) wb = [] ∧
       savesOf this (length (saves w)) wb = flush) ∧
    (∀ pre trigger post w',
       Forall (λ op, flushTrigger this op = false) pre →
       flushTrigger this trigger = true →
       Forall (λ op, registersAgain this op = false) post →
       runProcess (pre ++ trigger :: post) w1 = Some w' →
       let f := lastPath this final pre in
       savesOf this (length (saves w)) w' =
         (pre ≫= directSave this (writable w)) ++
         mkSaveCall this f (writable w f) ::
         (post ≫= directSave this (writable w))) ∧
    (∀ p' wa,
       atExitCallback w1 = Some wa →
       ∃ wr, registerToSaveAtExit this p' wa = Some wr ∧
             registry_ok wr [this] ∧
             m_atExitSaveFilename <$> heap wr !! this = Some p' ∧
             saves wr = saves wa).
Proof.
  intros Hok Hdb final flush.
  destruct (registerEach_spec this p paths w l db Hok Hdb)
    as (w1 & db1 & Hreg & Hok1 & Hh1 & Hflag1 & Hname1 & Hw1 & Hs1).
  assert (heap w1 !! this = Some db1) as Hdb1
    by (rewrite Hh1; apply lookup_insert_eq).
  pose proof (proj1 (reg_flag _ _ Hok1 _ _ Hdb1) Hflag1) as Hin1.
  assert (flushOf w1 this = flush) as Hflush.
  { rewrite (flushOf_lookup _ _ _ Hdb1), Hname1, Hw1. done. }
  exists w1, db1. do 5 (split; [done |]).
  split; [by eexists |].
  split; [intros p'; by apply registerToSaveAtExit_pending |].
  split; [| split; [| split]].
  - destruct (atExitCallback_spec _ _ Hok1) as (wa & Hexit & Hoka & Hwa & Hsa & Hha).
    pose proof (Hha this) as Hthis. rewrite decide_True, Hdb1 in Hthis by done.
    destruct (destroy_spec this _ wa [] Hoka Hthis)
      as (wb & Hdestroy & _ & _ & _ & _ & Hsb).
    simpl in Hsb. rewrite app_nil_r in Hsb.
    assert (savesOf this (length (saves w)) wa = flush) as Hone.
    { unfold savesOf. rewrite Hsa, Hs1, drop_app_length.
      by rewrite (flushOf_member _ _ _ (reg_nodup _ _ Hok1) Hin1). }
    exists wa, wb. do 4 (split; [done |]). unfold savesOf in *. by rewrite Hsb.
  - destruct (destroy_spec this _ w1 _ Hok1 Hdb1)
      as (wa & Hdestroy & Hoka & _ & _ & Hwa & Hsa).
    rewrite Hflag1, Hflush in Hsa.
    destruct (atExitCallback_spec _ _ Hoka) as (wb & Hexit & _ & _ & Hsb & _).
    assert (filter (λ c, sc_database c = this)
              (filter (λ d, d ≠ this) (if m_shouldSaveAtExit db then l else this :: l)
                 ≫= flushOf wa) = []) as Hnone.
    { apply flushOf_database. intros [Hne _]%list_elem_of_filter. by apply Hne. }
    exists wa, wb. do 2 (split; [done |]). unfold savesOf.
    rewrite Hsb, Hsa, Hs1, !drop_app_length, <- app_assoc, drop_app_length.
    rewrite filter_app, Hnone, app_nil_r.
    subst flush. by rewrite filter_cons_True.
  - intros pre trigger post w' Hpre Htrig Hpost Hrun f.
    rewrite <- Hs1. subst f. rewrite <- Hw1.
    apply (run_flushed_once this final w1 w' pre post trigger); try done.
    eexists. split; [exact Hok1 |]. split; [done |].
    by rewrite Hdb1; simpl; rewrite Hname1.
  - intros p' wa Hexit.
    by apply (registerToSaveAtExit_after_exit this db1 p' w1 wa _ Hok1 Hdb1).
Qed.

(** C2. Registering a store puts it at the head of the list;
    [removeFirstAtExitDatabase] takes the head off and returns it, or
    returns nothing when the list is empty; [atExitCallback] saves the
    stores of the list head first and leaves the list empty.  So when [a],
    [b] and [c] are registered in that order, the saves at exit are those
    of [c], [b], [a], followed by those of the stores registered earlier. *)
Theorem atExit_saves_lifo (w : World) (l : list positive) :
  registry_ok w l →
  (∀ this db filename,
     heap w !! this = Some db → m_shouldSaveAtExit db = false →
     ∃ w', registerToSaveAtExit this filename w = Some w' ∧
           firstDatabase w' = Some this ∧
           registry_ok w' (this :: l)) ∧
  match l with
  | [] => removeFirstAtExitDatabase w = Some (None, w)
  | d :: l' =>
      ∃ w', removeFirstAtExitDatabase w = Some (Some d, w') ∧ registry_ok w' l'
  end ∧
  (∃ w', atExitCallback w = Some w' ∧
         firstDatabase w' = None ∧
         registry_ok w' [] ∧
         saves w' = saves w ++ (l ≫= flushOf w)) ∧
  (∀ a b c da db dc pa pb pc,
     a ≠ b → a ≠ c → b ≠ c →
     heap w !! a = Some da → m_shouldSaveAtExit da = false →
     heap w !! b = Some db → m_shouldSaveAtExit db = false →
     heap w !! c = Some dc → m_shouldSaveAtExit dc = false →
     ∃ w1 w2 w3 w',
       registerToSaveAtExit a pa w = Some w1 ∧
       registerToSaveAtExit b pb w1 = Some w2 ∧
       registerToSaveAtExit c pc w2 = Some w3 ∧
       registry_ok w3 (c :: b :: a :: l) ∧
       atExitCallback w3 = Some w' ∧
       saves w' =
         saves w ++
         [mkSaveCall c pc (writable w pc);
          mkSaveCall b pb (writable w pb);
          mkSaveCall a pa (writable w pa)] ++
         (l ≫= flushOf w)).
Proof.
  intros Hok. split; [| split; [| split]].
  - intros this db filename Hdb Hflag.
    destruct (registerToSaveAtExit_spec this db filename w l Hok Hdb)
      as (w' & db' & Hreg & Hok' & _).
    rewrite Hflag in Hok'. exists w'. split; [done |]. split; [| done].
    by destruct Hok' as [[Hf _] _ _].
  - destruct l as [| d l'].
    + apply removeFirstAtExitDatabase_empty, Hok.
    + destruct (removeFirstAtExitDatabase_spec _ _ _ Hok) as (w' & db & Hpop & Hok' & _).
      by exists w'.
  - destruct (atExitCallback_spec _ _ Hok) as (w' & Hexit & Hok' & _ & Hs & _).
    exists w'. split; [done |]. split; [apply Hok' | done].
  - intros a b c da db dc pa pb pc Hab Hac Hbc Ha Hfa Hb Hfb Hc Hfc.
    destruct (registerToSaveAtExit_spec a da pa w l Hok Ha)
      as (w1 & da' & Hr1 & Hok1 & Hh1 & _ & Hna & _ & Hw1 & Hs1).
    rewrite Hfa in Hok1.
    assert (heap w1 !! b = Some db) as Hb1 by (by rewrite Hh1, lookup_insert_ne).
    destruct (registerToSaveAtExit_spec b db pb w1 _ Hok1 Hb1)
      as (w2 & db' & Hr2 & Hok2 & Hh2 & _ & Hnb & _ & Hw2 & Hs2).
    rewrite Hfb in Hok2.
    assert (heap w2 !! c = Some dc) as Hc2
      by (by rewrite Hh2, lookup_insert_ne, Hh1, lookup_insert_ne).
    destruct (registerToSaveAtExit_spec c dc pc w2 _ Hok2 Hc2)
      as (w3 & dc' & Hr3 & Hok3 & Hh3 & _ & Hnc & _ & Hw3 & Hs3).
    rewrite Hfc in Hok3.
    destruct (atExitCallback_spec _ _ Hok3) as (w' & Hexit & _ & _ & Hs & _).
    exists w1, w2, w3, w'. do 5 (split; [done |]).
    assert (writable w3 = writable w) as Hw by congruence.
    assert (heap w3 !! c = Some dc') as Hc3 by (rewrite Hh3; apply lookup_insert_eq).
    assert (heap w3 !! b = Some db') as Hb3
      by (rewrite Hh3, lookup_insert_ne, Hh2 by done; apply lookup_insert_eq).
    assert (heap w3 !! a = Some da') as Ha3
      by (rewrite Hh3, lookup_insert_ne, Hh2, lookup_insert_ne, Hh1 by done;
          apply lookup_insert_eq).
    rewrite Hs, Hs3, Hs2, Hs1, !bind_cons.
    rewrite (flushOf_lookup _ _ _ Hc3), (flushOf_lookup _ _ _ Hb3),
      (flushOf_lookup _ _ _ Ha3), Hna, Hnb, Hnc, Hw. simpl.
    do 4 f_equal. apply bind_ext_in. intros d Hd.
    apply flushOf_ext; [| done].
    assert (∀ x dx, heap w !! x = Some dx → m_shouldSaveAtExit dx = false → d ≠ x)
      as Hne.
    { intros x dx Hx Hfx ->. apply (reg_flag _ _ Hok _ _ Hx) in Hd. congruence. }
    rewrite Hh3, lookup_insert_ne, Hh2, lookup_insert_ne, Hh1, lookup_insert_ne;
      [done | | |]; intros Heq; symmetry in Heq; revert Heq; by eapply Hne.
Qed.

(** C8. When the file cannot be opened, [save] returns [false] after that
    one attempt: no file is created or changed and the stores are as
    before, so that a later [save] of the same store to a path that can be
    opened writes it in full.  When the file can be opened, [save] returns
    [true] and the file holds exactly the text of [toJSON], whatever it
    held before; the stores are as before.  Either way [save] is called on
    the file once. *)
Theorem save_all_or_nothing (this : positive) (db : Database) (path : string)
    (w : World) :
  heap w !! this = Some db →
  (writable w path = false →
   ∃ w', save this path w = Some (false, w') ∧
         files w' = files w ∧
         heap w' = heap w ∧
         saves w' = saves w ++ [mkSaveCall this path false] ∧
         w' = with_saves (saves w') w ∧
         ∀ path', writable w path' = true →
           ∃ w'', save this path' w' = Some (true, w'') ∧
                  files w'' !! path' = Some (toJSON db)) ∧
  (writable w path = true →
   ∃ w', save this path w = Some (true, w') ∧
         files w' = <[path := toJSON db]> (files w) ∧
         files w' !! path = Some (toJSON db) ∧
         heap w' = heap w ∧
         saves w' = saves w ++ [mkSaveCall this path true] ∧
         w' = with_files (files w') (with_saves (saves w') w)).
Proof.
  intros Hdb. split; intros Hw.
  - rewrite (save_unwritable _ _ _ _ Hdb Hw). eexists. split; [done |].
    do 4 (split; [done |]). intros path' Hw'.
    rewrite (save_writable this db path') by done.
    eexists. split; [done |]. simpl. apply lookup_insert_eq.
  - rewrite (save_writable _ _ _ _ Hdb Hw). eexists. split; [done |].
    split; [done |]. split; [apply lookup_insert_eq | done].
Qed.

End ProcessFacts.

(** * Further properties of the profile store *)

Section MoreStoreFacts.
Context `{HostRuntime}.

Lemma ensureBytecodesFor_in_range (h : CodeBlockPtr) (db : Database) :
  store_inv db →
  is_Some (m_bytecodes (ensureBytecodesFor h db).2 !! (ensureBytecodesFor h db).1).
Proof.
  intros Hinv. destruct (m_bytecodesMap db !! baselineVersion h) as [p |] eqn:Hp.
  - rewrite (ensureBytecodesFor_found _ _ _ Hp). simpl.
    by eapply inv_bytecodesMap.
  - rewrite (ensureBytecodesFor_fresh _ _ Hp). simpl.
    eexists. by rewrite list_lookup_middle.
Qed.

Lemma ensureBytecodesFor_grows (h : CodeBlockPtr) (db : Database) :
  ∃ added, m_bytecodes (ensureBytecodesFor h db).2 = m_bytecodes db ++ added ∧
           length added ≤ 1.
Proof.
  destruct (m_bytecodesMap db !! baselineVersion h) as [p |] eqn:Hp.
  - rewrite (ensureBytecodesFor_found _ _ _ Hp). exists [].
    split; [by rewrite app_nil_r | simpl; lia].
  - rewrite (ensureBytecodesFor_fresh _ _ Hp). simpl. eexists. split; [done |].
    simpl. lia.
Qed.

Lemma events_ok_grow (db db' : Database) (b : list Bytecodes)
    (c : list positive) :
  m_bytecodes db' = m_bytecodes db ++ b →
  m_compilations db' = m_compilations db ++ c →
  m_events db' = m_events db →
  events_ok db → events_ok db'.
Proof.
  intros Hb Hc He Hok e Hin. rewrite He in Hin.
  destruct (Hok e Hin) as [[x Hx] Hcomp]. split.
  - exists x. rewrite Hb. by apply lookup_app_l_Some.
  - intros r Hr. rewrite Hc. apply elem_of_app. left. by apply Hcomp.
Qed.

Lemma events_ok_step (op : StoreOp) (db : Database) :
  store_inv db → events_ok db → events_ok (stepStore db op).
Proof.
  intros Hinv Hok.
  assert (∀ h, events_ok (ensureBytecodesFor h db).2) as Hens.
  { intros h. destruct (ensureBytecodesFor_grows h db) as (b & Hb & _).
    destruct (ensureBytecodesFor_frame h db) as (_ & Hc & _ & He & _).
    apply (events_ok_grow db _ b []); [done | by rewrite app_nil_r | done..]. }
  destruct op as [h | h | h r | now h s d]; simpl.
  - apply Hens.
  - by apply (events_ok_grow db _ [] []); rewrite ?app_nil_r.
  - by apply (events_ok_grow db _ [] [r]); rewrite ?app_nil_r.
  - rewrite logEvent_frame. intros e. simpl.
    intros [Hin | ->%list_elem_of_singleton]%elem_of_app.
    + destruct (ensureBytecodesFor_frame h db) as (_ & Hc & _ & He & _).
      apply (Hens h). by rewrite He.
    + simpl. split; [by apply ensureBytecodesFor_in_range |].
      intros c Hc. destruct (ensureBytecodesFor_frame h db) as (_ & -> & _).
      by eapply inv_compilationMap.
Qed.

Lemma events_ok_run (ops : list StoreOp) (db : Database) :
  store_inv db → events_ok db →
  store_inv (runStore ops db) ∧ events_ok (runStore ops db).
Proof.
  revert db. induction ops as [| op ops IH]; intros db Hinv Hok; [done |].
  apply IH; [by apply store_inv_step | by apply events_ok_step].
Qed.

(** X1. No event ever dangles.  In a store that has the store invariant,
    the operations keep every event pointing to a profile of [m_bytecodes]
    whose id is the event's pointer and, when the event has a compilation,
    to one of [m_compilations]; this holds for the event [logEvent]
    appends and stays true for all events after [notifyDestruction], which
    removes index entries only. *)
Theorem events_never_dangle (db : Database) (ops : list StoreOp) :
  store_inv db → events_ok db →
  events_ok (runStore ops db) ∧
  ∀ e, e ∈ m_events (runStore ops db) →
    ∃ b, m_bytecodes (runStore ops db) !! ev_bytecodes e = Some b ∧
         bc_id b = ev_bytecodes e.
Proof.
  intros Hinv Hok.
  destruct (events_ok_run ops db Hinv Hok) as [Hinv' Hok'].
  split; [done |]. intros e He. destruct (Hok' e He) as [[b Hb] _].
  exists b. split; [done |]. by eapply inv_ids.
Qed.

Lemma stepStore_lengths (op : StoreOp) (db : Database) :
  length (m_events (stepStore db op)) =
    length (m_events db) + (if isLogEvent op then 1 else 0) ∧
  length (m_compilations (stepStore db op)) =
    length (m_compilations db) + (if isAddCompilation op then 1 else 0) ∧
  length (m_bytecodes db) ≤ length (m_bytecodes (stepStore db op)) ∧
  length (m_bytecodes (stepStore db op)) ≤
    length (m_bytecodes db) + (if callsEnsure op then 1 else 0).
Proof.
  assert (∀ h, length (m_bytecodes db) ≤
                 length (m_bytecodes (ensureBytecodesFor h db).2) ∧
               length (m_bytecodes (ensureBytecodesFor h db).2) ≤
                 length (m_bytecodes db) + 1) as Hens.
  { intros h. destruct (ensureBytecodesFor_grows h db) as (b & -> & Hb).
    rewrite length_app. lia. }
  destruct op as [h | h | h r | now h s d]; simpl.
  - destruct (ensureBytecodesFor_frame h db) as (_ & -> & _ & -> & _).
    specialize (Hens h). lia.
  - lia.
  - rewrite length_app. simpl. lia.
  - rewrite logEvent_frame. simpl. rewrite length_app. simpl.
    destruct (ensureBytecodesFor_frame h db) as (_ & -> & _).
    specialize (Hens h). lia.
Qed.

(** X2. The collections count the calls.  After any run of operations
    [m_events] has grown by the number of [logEvent] calls and
    [m_compilations] by the number of [addCompilation] calls, whatever
    [notifyDestruction] calls came in between; [m_bytecodes] has not shrunk
    and has grown by at most the number of [ensureBytecodesFor] and
    [logEvent] calls. *)
Theorem collections_count_calls (ops : list StoreOp) (db : Database) :
  length (m_events (runStore ops db)) =
    length (m_events db) + length (filter (λ op, isLogEvent op = true) ops) ∧
  length (m_compilations (runStore ops db)) =
    length (m_compilations db) +
    length (filter (λ op, isAddCompilation op = true) ops) ∧
  length (m_bytecodes db) ≤ length (m_bytecodes (runStore ops db)) ∧
  length (m_bytecodes (runStore ops db)) ≤
    length (m_bytecodes db) + length (filter (λ op, callsEnsure op = true) ops).
Proof.
  revert db. induction ops as [| op ops IH]; intros db.
  - simpl. lia.
  - destruct (IH (stepStore db op)) as (He & Hc & Hb1 & Hb2).
    destruct (stepStore_lengths op db) as (He1 & Hc1 & Hb3 & Hb4).
    unfold runStore in *. simpl. rewrite He, Hc, He1, Hc1.
    rewrite !filter_cons.
    destruct (isLogEvent op), (isAddCompilation op), (callsEnsure op);
      repeat case_decide; try done; simpl; lia.
Qed.

Lemma keys_canonical_step (op : StoreOp) (db : Database) :
  keys_canonical db → keys_canonical (stepStore db op).
Proof.
  intros Hk.
  assert (∀ h, keys_canonical (ensureBytecodesFor h db).2) as Hens.
  { intros h. destruct (m_bytecodesMap db !! baselineVersion h) as [p |] eqn:Hp.
    - by rewrite (ensureBytecodesFor_found _ _ _ Hp).
    - rewrite (ensureBytecodesFor_fresh _ _ Hp). intros k q. simpl.
      intros [[<- _] | [_ Hq]]%lookup_insert_Some; [by exists h | by eapply Hk]. }
  destruct op as [h | h | h r | now h s d]; simpl.
  - apply Hens.
  - intros k q. simpl. unfold HashMap_remove.
    intros [_ Hq]%lookup_delete_Some. by eapply Hk.
  - done.
  - rewrite logEvent_frame. apply (Hens h).
Qed.

Lemma keys_canonical_new (id : Z) : keys_canonical (newDatabase id).
Proof. intros k p Hk. done. Qed.

Lemma keys_canonical_run (ops : list StoreOp) (db : Database) :
  keys_canonical db → keys_canonical (runStore ops db).
Proof.
  revert db. induction ops as [| op ops IH]; intros db Hdb; [done |].
  apply IH. by apply keys_canonical_step.
Qed.

Lemma store_inv_run (ops : list StoreOp) (db : Database) :
  store_inv db → store_inv (runStore ops db).
Proof.
  revert db. induction ops as [| op ops IH]; intros db Hdb; [done |].
  apply IH. by apply store_inv_step.
Qed.

(** X3. The profile index of a store that started empty is one to one and
    keyed by baseline versions: whatever operations ran, two different keys
    never point to the same profile, every key is the baseline version of
    a code block, and the profile a key points to records that very key as
    its code block. *)
Theorem index_one_to_one (id : Z) (ops : list StoreOp) :
  let db := runStore ops (newDatabase id) in
  (∀ k1 k2 p, m_bytecodesMap db !! k1 = Some p →
              m_bytecodesMap db !! k2 = Some p → k1 = k2) ∧
  (∀ k p, m_bytecodesMap db !! k = Some p →
          ∃ h b, baselineVersion h = k ∧
                 m_bytecodes db !! p = Some b ∧ bc_codeBlock b = k ∧ bc_id b = p).
Proof.
  intros db.
  assert (index_consistent db) as Hic
    by apply index_consistent_run, index_consistent_new.
  assert (keys_canonical db) as Hkc
    by apply keys_canonical_run, keys_canonical_new.
  assert (store_inv db) as Hinv by apply store_inv_run, store_inv_new.
  split.
  - intros k1 k2 p H1 H2.
    destruct (Hic _ _ H1) as (b1 & Hb1 & <-), (Hic _ _ H2) as (b2 & Hb2 & <-).
    congruence.
  - intros k p Hk. destruct (Hkc _ _ Hk) as [h Hh], (Hic _ _ Hk) as (b & Hb & Hbk).
    exists h, b. repeat split; try done. by eapply inv_ids.
Qed.

(** X4. A destroyed code block loses its compilation for the events to
    come, not for the output.  After [addCompilation h r] and
    [notifyDestruction h], the index has no compilation for [h], so an
    event logged for [h] (a new code block at the same address) carries
    none; [r] is still in [m_compilations] and in the [compilations] array
    of [toJS]. *)
Theorem compilation_forgotten_not_lost (h : CodeBlockPtr) (r : CompilationPtr)
    (db : Database) (now : Z) (s d : string) :
  let db1 := notifyDestruction h (addCompilation h r db) in
  m_compilationMap db1 !! h = None ∧
  ev_compilation <$> last (m_events (logEvent now h s d db1)) = Some None ∧
  m_compilations (logEvent now h s d db1) = m_compilations db ++ [r] ∧
  ∃ bs es,
    toJS (logEvent now h s d db1) =
      JSObject
        [("bytecodes", JSArray bs);
         ("compilations",
          JSArray ((Compilation_toJS <$> m_compilations db) ++ [Compilation_toJS r]));
         ("events", JSArray es)].
Proof.
  intros db1.
  assert (m_compilationMap db1 !! h = None) as Hnone by apply lookup_delete_eq.
  split; [done |]. rewrite logEvent_frame. simpl. rewrite last_snoc. simpl.
  unfold HashMap_remove, HashMap_set. rewrite lookup_delete_eq.
  split; [done |].
  destruct (ensureBytecodesFor_frame h db1) as (_ & Hc & _).
  split; [by rewrite Hc |].
  eexists _, _. unfold toJS. rewrite !fillArray_fmap. simpl.
  rewrite Hc. simpl. by rewrite fmap_app.
Qed.

End MoreStoreFacts.

(** * Further properties of the process *)

Section MoreProcessFacts.
Context `{HostRuntime}.

(** *** What the list operations leave alone *)

Lemma untouched_refl (w : World) : untouched w w.
Proof. by repeat split. Qed.

Lemma untouched_trans (w1 w2 w3 : World) :
  untouched w1 w2 → untouched w2 w3 → untouched w1 w3.
Proof.
  intros (? & ? & ? & ? & ? & ?) (? & ? & ? & ? & ? & ?).
  repeat split; congruence.
Qed.

Lemma untouched_store (this : positive) (db : Database) (w : World) :
  untouched w (store this db w).
Proof. by repeat split. Qed.

Lemma writeSlot_untouched (s : Slot) (v : option positive) (w w' : World) :
  writeSlot s v w = Some w' → untouched w w'.
Proof.
  destruct s as [| d]; simpl.
  - intros [= <-]. by repeat split.
  - destruct (heap w !! d); simpl; [| done]. intros [= <-]. by repeat split.
Qed.

Lemma removeLoop_untouched (fuel : nat) :
  ∀ (this : positive) (current : Slot) (w w' : World),
    removeLoop fuel this current w = Some w' → untouched w w'.
Proof.
  induction fuel as [| fuel IH]; intros this current w w' Hrun; [done |].
  rewrite removeLoop_S in Hrun.
  destruct (readSlot current w) as [[c |] |]; simpl in Hrun;
    [| injection Hrun as <-; apply untouched_refl | done].
  case_decide; [by eapply IH |].
  destruct (heap w !! this) as [db |]; simpl in Hrun; [| done].
  destruct (writeSlot current (m_nextRegisteredDatabase db) w) as [w1 |] eqn:Hw1;
    simpl in Hrun; [| done].
  destruct (heap w1 !! this) as [db1 |]; simpl in Hrun; [| done].
  rewrite lookup_insert_eq in Hrun. simpl in Hrun. injection Hrun as <-.
  eapply untouched_trans; [by eapply writeSlot_untouched |].
  eapply untouched_trans; apply untouched_store.
Qed.

Lemma removeDatabaseFromAtExit_untouched (this : positive) (w w' : World) :
  removeDatabaseFromAtExit this w = Some w' → untouched w w'.
Proof. apply removeLoop_untouched. Qed.

Lemma removeFirstAtExitDatabase_untouched (w w' : World)
    (r : option positive) :
  removeFirstAtExitDatabase w = Some (r, w') → untouched w w'.
Proof.
  unfold removeFirstAtExitDatabase.
  destruct (firstDatabase w) as [d |]; [| intros [= _ <-]; apply untouched_refl].
  destruct (heap w !! d) as [db |]; simpl; [| done].
  rewrite lookup_insert_eq. simpl. intros [= _ <-]. by repeat split.
Qed.

Lemma untouched_counters (w w' : World) :
  untouched w w' → counters w' = counters w.
Proof. intros (? & ? & ? & _). unfold counters. congruence. Qed.

Lemma save_counters (this : positive) (f : string) (w w' : World) (ok : bool) :
  save this f w = Some (ok, w') →
  counters w' = counters w ∧ heap w' = heap w ∧
  firstDatabase w' = firstDatabase w ∧ writable w' = writable w.
Proof.
  unfold save. destruct (heap w !! this); simpl; [| done].
  destruct (writable w f); simpl; by intros [= _ <-].
Qed.

Lemma performAtExitSave_counters (this : positive) (w w' : World) :
  performAtExitSave this w = Some w' → counters w' = counters w.
Proof.
  unfold performAtExitSave. destruct (heap w !! this) as [db |]; simpl; [| done].
  destruct (save this (m_atExitSaveFilename db) w) as [[ok w1] |] eqn:Hs;
    simpl; [| done].
  intros [= <-]. by apply save_counters in Hs as [? _].
Qed.

Lemma atExitLoop_counters (fuel : nat) :
  ∀ w w', atExitLoop fuel w = Some w' → counters w' = counters w.
Proof.
  induction fuel as [| fuel IH]; intros w w' Hrun; [done |].
  rewrite atExitLoop_S in Hrun.
  destruct (removeFirstAtExitDatabase w) as [[r w1] |] eqn:Hpop;
    simpl in Hrun; [| done].
  apply removeFirstAtExitDatabase_untouched, untouched_counters in Hpop.
  destruct r as [d |]; [| by injection Hrun as <-].
  destruct (performAtExitSave d w1) as [w2 |] eqn:Hsave; simpl in Hrun; [| done].
  apply performAtExitSave_counters in Hsave. apply IH in Hrun. congruence.
Qed.

Lemma destroy_counters (this : positive) (w w' : World) :
  destroy this w = Some w' → counters w' = counters w.
Proof.
  unfold destroy. destruct (heap w !! this) as [db |]; simpl; [| done].
  destruct (m_shouldSaveAtExit db).
  - destruct (removeDatabaseFromAtExit this w) as [w1 |] eqn:Hrm; simpl; [| done].
    apply removeDatabaseFromAtExit_untouched, untouched_counters in Hrm.
    destruct (performAtExitSave this w1) as [w2 |] eqn:Hsave; simpl; [| done].
    apply performAtExitSave_counters in Hsave. intros [= <-].
    unfold counters in *. simpl. congruence.
  - simpl. by intros [= <-].
Qed.


Lemma registerToSaveAtExit_counters (this : positive) (db : Database)
    (f : string) (w w' : World) :
  heap w !! this = Some db →
  registerToSaveAtExit this f w = Some w' →
  counters w' =
    if m_shouldSaveAtExit db then counters w
    else (databaseCounter w, wrapInt (didRegisterAtExit w + 1),
          if decide (wrapInt (didRegisterAtExit w + 1) = 1%Z)
          then S (atexitHandlers w) else atexitHandlers w).
Proof.
  intros Hdb. unfold registerToSaveAtExit. rewrite Hdb. simpl.
  destruct (m_shouldSaveAtExit db); [by intros [= <-] |].
  unfold addDatabaseToAtExit. simpl.
  case_decide as Hone; simpl; rewrite lookup_insert_eq; simpl;
    rewrite lookup_insert_eq; simpl; intros [= <-]; unfold counters; simpl;
    by rewrite ?decide_True, ?decide_False by done.
Qed.

(** *** One step, seen from outside *)

Lemma step_counters (w w' : World) (l : list positive) (op : ProcessOp) :
  registry_ok w l →
  stepProcess w op = Some w' →
  counters w' =
    (if isConstruct op then wrapInt (databaseCounter w + 1)
     else databaseCounter w,
     if firstRegistration l op then wrapInt (didRegisterAtExit w + 1)
     else didRegisterAtExit w,
     if firstRegistration l op &&
        bool_decide (wrapInt (didRegisterAtExit w + 1) = 1%Z)
     then S (atexitHandlers w) else atexitHandlers w).
Proof.
  intros Hok Hstep. destruct op as [d | d sop | d f | d f | d |]; simpl in *.
  - unfold construct in Hstep. destruct (heap w !! d); [done |].
    by injection Hstep as <-.
  - unfold onDatabase in Hstep. destruct (heap w !! d); [| done].
    by injection Hstep as <-.
  - destruct (save d f w) as [[ok w1] |] eqn:Hs; [| done].
    injection Hstep as <-. by apply save_counters in Hs as [? _].
  - destruct (heap w !! d) as [db |] eqn:Hd;
      [| by unfold registerToSaveAtExit in Hstep; rewrite Hd in Hstep].
    rewrite (registerToSaveAtExit_counters _ _ _ _ _ Hd Hstep).
    pose proof (reg_flag _ _ Hok _ _ Hd) as Hflag.
    destruct (m_shouldSaveAtExit db).
    + rewrite bool_decide_eq_false_2; [done |]. intros Hni. by apply Hni, Hflag.
    + rewrite bool_decide_eq_true_2; [| intros Hin; by apply Hflag in Hin].
      simpl. unfold counters. by case_decide; case_bool_decide.
  - by apply (destroy_counters d).
  - by apply atExitLoop_counters in Hstep.
Qed.

Lemma step_list (w w' : World) (l : list positive) (op : ProcessOp) :
  registry_ok w l →
  stepProcess w op = Some w' →
  registry_ok w' (listAfter l op) ∧
  writable w' = writable w ∧
  saves w' = saves w ++ savesAfter w l op.
Proof.
  intros Hok Hstep. destruct op as [d | d sop | d f | d f | d |]; simpl in *.
  - pose proof (construct_live _ _ _ Hstep) as Hfresh.
    destruct (construct_spec w l d Hok Hfresh) as (w'' & Heq & Hok' & _ & Hw & Hs & _).
    rewrite Hstep in Heq. injection Heq as <-. by rewrite app_nil_r.
  - unfold onDatabase in Hstep.
    destruct (heap w !! d) as [dbd |] eqn:Hd; [| done]. simpl in Hstep.
    injection Hstep as <-.
    destruct (stepStore_frame sop dbd) as (Hflag & Hname & Hnext).
    split; [by eapply registry_ok_update |]. simpl. by rewrite app_nil_r.
  - destruct (heap w !! d) as [dbd |] eqn:Hd;
      [| by unfold save in Hstep; rewrite Hd in Hstep].
    destruct (writable w f) eqn:Hwr.
    + rewrite (save_writable _ _ _ _ Hd Hwr) in Hstep. injection Hstep as <-.
      split; [by apply (registry_ok_ext w) | done].
    + rewrite (save_unwritable _ _ _ _ Hd Hwr) in Hstep. injection Hstep as <-.
      split; [by apply (registry_ok_ext w) | done].
  - destruct (heap w !! d) as [dbd |] eqn:Hd;
      [| by unfold registerToSaveAtExit in Hstep; rewrite Hd in Hstep].
    destruct (registerToSaveAtExit_spec d dbd f w l Hok Hd)
      as (w'' & db' & Heq & Hok' & _ & _ & _ & _ & Hw & Hs).
    rewrite Hstep in Heq. injection Heq as <-.
    rewrite app_nil_r. split; [| done].
    pose proof (reg_flag _ _ Hok _ _ Hd) as Hflag.
    destruct (m_shouldSaveAtExit dbd).
    + by rewrite decide_True by by apply Hflag.
    + rewrite decide_False; [done |]. intros Hin. by apply Hflag in Hin.
  - destruct (heap w !! d) as [dbd |] eqn:Hd;
      [| by unfold destroy in Hstep; rewrite Hd in Hstep].
    destruct (destroy_spec d dbd w l Hok Hd)
      as (w'' & Heq & Hok' & _ & _ & Hw & Hs).
    rewrite Hstep in Heq. injection Heq as <-.
    split; [done |]. split; [done |]. rewrite Hs. f_equal.
    pose proof (reg_flag _ _ Hok _ _ Hd) as Hflag.
    destruct (m_shouldSaveAtExit dbd).
    + by rewrite decide_True by by apply Hflag.
    + rewrite decide_False; [done |]. intros Hin. by apply Hflag in Hin.
  - destruct (atExitCallback_spec _ _ Hok) as (w'' & Heq & Hok' & Hw & Hs & _).
    rewrite Hstep in Heq. by injection Heq as <-.
Qed.

Lemma bare_detached (a b : Database) :
  detached a = detached b → bare a = bare b.
Proof. unfold bare. by intros ->. Qed.

Lemma bare_with_filename (f : string) (db : Database) :
  bare (with_atExitSaveFilename f db) = bare db.
Proof. by destruct db. Qed.

Lemma step_contents (w w' : World) (l : list positive) (op : ProcessOp)
    (x : positive) (db' : Database) :
  registry_ok w l →
  stepProcess w op = Some w' →
  heap w' !! x = Some db' →
  (∃ db, heap w !! x = Some db ∧ bare db' = bare (contentsAfter x op db)) ∨
  (op = PConstruct x ∧ heap w !! x = None ∧
   db' = newDatabase (wrapInt (databaseCounter w + 1))).
Proof.
  intros Hok Hstep Hx. destruct op as [d | d sop | d f | d f | d |]; simpl in *.
  - pose proof (construct_live _ _ _ Hstep) as Hfresh.
    destruct (construct_spec w l d Hok Hfresh) as (w'' & Heq & _ & Hh & _).
    rewrite Hstep in Heq. injection Heq as <-. rewrite Hh in Hx.
    apply lookup_insert_Some in Hx as [[<- <-] | [_ Hx]]; [by right |].
    left. by exists db'.
  - unfold onDatabase in Hstep.
    destruct (heap w !! d) as [dbd |] eqn:Hd; [| done]. simpl in Hstep.
    injection Hstep as <-. simpl in Hx. left.
    apply lookup_insert_Some in Hx as [[<- <-] | [Hne Hx]].
    + exists dbd. by rewrite decide_True.
    + exists db'. by rewrite decide_False.
  - destruct (save d f w) as [[ok w1] |] eqn:Hs; [| done].
    injection Hstep as <-. apply save_counters in Hs as (_ & Hh & _).
    rewrite Hh in Hx. left. by exists db'.
  - destruct (heap w !! d) as [dbd |] eqn:Hd;
      [| by unfold registerToSaveAtExit in Hstep; rewrite Hd in Hstep].
    destruct (registerToSaveAtExit_spec d dbd f w l Hok Hd)
      as (w'' & db1 & Heq & _ & Hh & _ & _ & Hdet & _).
    rewrite Hstep in Heq. injection Heq as <-. rewrite Hh in Hx. left.
    apply lookup_insert_Some in Hx as [[<- <-] | [_ Hx]]; [| by exists db'].
    exists dbd. split; [done |].
    by rewrite (bare_detached _ _ Hdet), bare_with_filename.
  - destruct (heap w !! d) as [dbd |] eqn:Hd;
      [| by unfold destroy in Hstep; rewrite Hd in Hstep].
    destruct (destroy_spec d dbd w l Hok Hd)
      as (w'' & Heq & _ & Hgone & Hh & _).
    rewrite Hstep in Heq. injection Heq as <-. left.
    assert (x ≠ d) as Hne by (intros ->; congruence).
    specialize (Hh x Hne). rewrite Hx in Hh.
    destruct (heap w !! x) as [db |]; [| done]. exists db. split; [done |].
    apply bare_detached. simpl in Hh. congruence.
  - destruct (atExitCallback_spec _ _ Hok) as (w'' & Heq & _ & _ & _ & Hh).
    rewrite Hstep in Heq. injection Heq as <-. left.
    specialize (Hh x). rewrite Hx in Hh.
    destruct (heap w !! x) as [db |]; [| by case_decide].
    exists db. split; [done |]. apply bare_detached.
    case_decide; simpl in Hh; injection Hh as ->; [| done].
    by rewrite detached_detached.
Qed.

Lemma run_list (ops : list ProcessOp) :
  ∀ w w' l,
    registry_ok w l →
    runProcess ops w = Some w' →
    registry_ok w' (foldl listAfter l ops) ∧ writable w' = writable w.
Proof.
  induction ops as [| op ops IH]; intros w w' l Hok Hrun.
  - by injection Hrun as <-.
  - simpl in Hrun. destruct (stepProcess w op) as [w1 |] eqn:Hstep; [| done].
    destruct (step_list _ _ _ _ Hok Hstep) as (Hok1 & Hw1 & _).
    rewrite <- Hw1. by apply (IH w1).
Qed.

(** X5. The intrusive list behaves as a plain list.  Along every run that
    starts with the list holding [l], the list holds what the steps make of
    [l] read as list operations: a registration conses the store unless it
    is on the list, a destruction removes it, the exit handler empties the
    list, and nothing else changes it.  Each step logs the saves that
    reading predicts: one for a direct [save], the store's own for the
    destruction of a registered store, those of the whole list, head first,
    for the exit handler. *)
Theorem list_behaves_as_list (w w' : World) (l : list positive)
    (ops : list ProcessOp) :
  registry_ok w l →
  runProcess ops w = Some w' →
  registry_ok w' (foldl listAfter l ops) ∧
  writable w' = writable w ∧
  (∀ op w1, stepProcess w op = Some w1 →
            saves w1 = saves w ++ savesAfter w l op).
Proof.
  intros Hok Hrun. destruct (run_list ops w w' l Hok Hrun) as [Hok' Hw'].
  split; [done |]. split; [done |].
  intros op w1 Hstep. by destruct (step_list _ _ _ _ Hok Hstep) as (_ & _ & ?).
Qed.

(** X6. No step fails or hangs when its target is there.  In a state whose
    list is well formed, a step returns exactly when its target is there:
    the constructor on a free address, the calls on a store on a live one,
    the exit handler always; in particular the walks of
    [removeDatabaseFromAtExit] and [atExitCallback] end. *)
Theorem step_defined (w : World) (l : list positive) (op : ProcessOp) :
  registry_ok w l →
  is_Some (stepProcess w op) ↔ applicable w op.
Proof.
  intros Hok. destruct op as [d | d sop | d f | d f | d |]; simpl.
  - split.
    + intros [w' Hw']. by eapply construct_live.
    + intros Hfresh. destruct (construct_spec w l d Hok Hfresh) as (w' & -> & _).
      by eexists.
  - unfold onDatabase. destruct (heap w !! d); simpl.
    + split; intros _; by eexists.
    + split; by intros [? ?].
  - unfold save. destruct (heap w !! d); simpl.
    + split; intros _; [by eexists |]. by destruct (writable w f); eexists.
    + split; by intros [? ?].
  - destruct (heap w !! d) as [db |] eqn:Hd.
    + split; intros _; [by eexists |].
      destruct (registerToSaveAtExit_spec d db f w l Hok Hd) as (w' & _ & -> & _).
      by eexists.
    + unfold registerToSaveAtExit. rewrite Hd. split; by intros [? ?].
  - destruct (heap w !! d) as [db |] eqn:Hd.
    + split; intros _; [by eexists |].
      destruct (destroy_spec d db w l Hok Hd) as (w' & -> & _). by eexists.
    + unfold destroy. rewrite Hd. split; by intros [? ?].
  - split; [done |]. intros _.
    destruct (atExitCallback_spec _ _ Hok) as (w' & -> & _). by eexists.
Qed.

Lemma toJSON_bare (a b : Database) : bare a = bare b → toJSON a = toJSON b.
Proof.
  destruct a, b. unfold bare, detached. simpl. intros [= -> -> -> -> -> ->].
  done.
Qed.

(** X7. Only a store operation changes what a store holds.  After any
    step, a store that is alive was either just constructed, and is then
    new, or was alive before, and then its id, collections and indices are
    those it had, run through the store operation if the step is one
    called on that very store: registering, saving, destroying another
    store, and the exit handler change none of it, nor the text [toJSON]
    gives for it. *)
Theorem contents_change_by_store_ops_only (w w' : World) (l : list positive)
    (op : ProcessOp) (x : positive) (db' : Database) :
  registry_ok w l →
  stepProcess w op = Some w' →
  heap w' !! x = Some db' →
  (∃ db, heap w !! x = Some db ∧
         bare db' = bare (contentsAfter x op db) ∧
         toJSON db' = toJSON (contentsAfter x op db)) ∨
  (op = PConstruct x ∧ heap w !! x = None ∧
   db' = newDatabase (wrapInt (databaseCounter w + 1))).
Proof.
  intros Hok Hstep Hx.
  destruct (step_contents _ _ _ _ _ _ Hok Hstep Hx) as [(db & Hdb & Hb) | Hnew];
    [left | by right].
  exists db. split; [done |]. split; [done | by apply toJSON_bare].
Qed.

(** *** Counters *)

Lemma wrapInt_small (z : Z) : (- 2 ^ 31 ≤ z < 2 ^ 31)%Z → wrapInt z = z.
Proof. intros Hz. unfold wrapInt. rewrite Z.mod_small; lia. Qed.

Lemma bare_id (a b : Database) : bare a = bare b → m_databaseID a = m_databaseID b.
Proof. destruct a, b. unfold bare, detached. simpl. by intros [= ->]. Qed.

Lemma contentsAfter_id (x : positive) (op : ProcessOp) (db : Database) :
  m_databaseID (contentsAfter x op db) = m_databaseID db.
Proof.
  destruct op as [d | d sop | d f | d f | d |]; simpl; try done.
  case_decide; [| done].
  destruct sop as [h | h | h r | now h s e]; simpl; try done.
  - by destruct (ensureBytecodesFor_frame h db) as (-> & _).
  - rewrite logEvent_frame. simpl.
    by destruct (ensureBytecodesFor_frame h db) as (-> & _).
Qed.

Lemma step_ids (w w' : World) (l : list positive) (op : ProcessOp) :
  registry_ok w l →
  ids_ok w →
  (databaseCounter w + (if isConstruct op then 1 else 0) < 2 ^ 31)%Z →
  stepProcess w op = Some w' →
  ids_ok w' ∧
  databaseCounter w' = (databaseCounter w + (if isConstruct op then 1 else 0))%Z.
Proof.
  intros Hok (Hpos & Hrange & Hinj) Hbound Hstep.
  pose proof (step_counters _ _ _ _ Hok Hstep) as Hc.
  unfold counters in Hc. injection Hc as Hdc _ _.
  assert (databaseCounter w' =
            (databaseCounter w + (if isConstruct op then 1 else 0))%Z) as Hdc'.
  { rewrite Hdc. destruct (isConstruct op); [| lia].
    apply wrapInt_small. lia. }
  assert (∀ x db', heap w' !! x = Some db' →
            (∃ db, heap w !! x = Some db ∧ m_databaseID db' = m_databaseID db) ∨
            (isConstruct op = true ∧ op = PConstruct x ∧
             m_databaseID db' = (databaseCounter w + 1)%Z)) as Horigin.
  { intros x db' Hx.
    destruct (step_contents _ _ _ _ _ _ Hok Hstep Hx)
      as [(db & Hdb & Hb) | (-> & _ & ->)].
    - left. exists db. split; [done |].
      by rewrite (bare_id _ _ Hb), contentsAfter_id.
    - right. simpl in *. repeat split. apply wrapInt_small. lia. }
  split; [| done]. split; [destruct (isConstruct op); lia |]. split.
  - intros x db' Hx. rewrite Hdc'.
    destruct (Horigin _ _ Hx) as [(db & Hdb & ->) | (-> & _ & ->)]; [| lia].
    specialize (Hrange _ _ Hdb). destruct (isConstruct op); lia.
  - intros x y dbx dby Hx Hy Hid.
    destruct (Horigin _ _ Hx) as [(dx & Hdx & Hix) | (_ & Hopx & Hix)],
             (Horigin _ _ Hy) as [(dy & Hdy & Hiy) | (_ & Hopy & Hiy)].
    + apply (Hinj x y dx dy); congruence.
    + specialize (Hrange _ _ Hdx). lia.
    + specialize (Hrange _ _ Hdy). lia.
    + congruence.
Qed.

Lemma run_ids (ops : list ProcessOp) :
  ∀ w w' l,
    registry_ok w l →
    ids_ok w →
    (databaseCounter w +
       Z.of_nat (length (filter (λ op, isConstruct op = true) ops)) < 2 ^ 31)%Z →
    runProcess ops w = Some w' →
    ids_ok w' ∧
    databaseCounter w' =
      (databaseCounter w +
         Z.of_nat (length (filter (λ op, isConstruct op = true) ops)))%Z.
Proof.
  induction ops as [| op ops IH]; intros w w' l Hok Hids Hbound Hrun.
  - injection Hrun as <-. split; [done |]. simpl. lia.
  - simpl in Hrun. destruct (stepProcess w op) as [w1 |] eqn:Hstep; [| done].
    rewrite filter_cons in *.
    destruct (step_list _ _ _ _ Hok Hstep) as (Hok1 & _).
    destruct (step_ids w w1 l op Hok Hids) as [Hids1 Hdc1]; [| done |].
    { destruct (isConstruct op); case_decide; simpl in *; try done; lia. }
    destruct (IH w1 w' _ Hok1 Hids1) as [Hids' Hdc']; [| done |].
    { rewrite Hdc1. destruct (isConstruct op); case_decide; simpl in *;
        try done; lia. }
    split; [done |]. rewrite Hdc', Hdc1.
    destruct (isConstruct op); case_decide; simpl in *; try done; lia.
Qed.

(** X8. Store ids are unique.  In a process that has run fewer than
    [2^31] constructors since its start, [databaseCounter] is the number of
    constructors run, every live store has an id between 1 and that
    number, and no two live stores share an id, whatever was destroyed or
    constructed again on the same address in between. *)
Theorem database_ids_unique (canOpen : string → bool) (ops : list ProcessOp)
    (w : World) :
  let n := Z.of_nat (length (filter (λ op, isConstruct op = true) ops)) in
  (n < 2 ^ 31)%Z →
  runProcess ops (newWorld canOpen) = Some w →
  databaseCounter w = n ∧
  (∀ x db, heap w !! x = Some db → (1 ≤ m_databaseID db ≤ n)%Z) ∧
  (∀ x y dbx dby,
     heap w !! x = Some dbx → heap w !! y = Some dby →
     m_databaseID dbx = m_databaseID dby → x = y).
Proof.
  intros n Hn Hrun.
  destruct (run_ids ops (newWorld canOpen) w [] (registry_ok_new canOpen))
    as [(_ & Hrange & Hinj) Hdc]; [| done | done |].
  { split; [done |]. split; [intros x db Hx; done | intros x y dbx dby Hx; done]. }
  simpl in Hdc. fold n in Hdc. rewrite Hdc in Hrange.
  split; [lia |]. split; [| done]. intros x db Hx. specialize (Hrange x db Hx). lia.
Qed.

Lemma step_handler (w w' : World) (l : list positive) (op : ProcessOp) :
  registry_ok w l →
  handler_once w l →
  (didRegisterAtExit w + (if isRegister op then 1 else 0) < 2 ^ 31)%Z →
  stepProcess w op = Some w' →
  handler_once w' (listAfter l op) ∧
  (didRegisterAtExit w' ≤
     didRegisterAtExit w + (if isRegister op then 1 else 0))%Z.
Proof.
  intros Hok (Hpos & Hh & Hempty) Hbound Hstep.
  pose proof (step_counters _ _ _ _ Hok Hstep) as Hc.
  unfold counters in Hc. injection Hc as _ Hreg Hhand.
  destruct (firstRegistration l op) eqn:Hfirst.
  - destruct op as [d | d sop | d f | d f | d |]; simpl in *; try done.
    rewrite wrapInt_small in Hreg, Hhand by lia.
    split; [| lia]. split; [lia |]. split; [| lia].
    rewrite Hhand, Hreg, Hh.
    rewrite (decide_False (P := (didRegisterAtExit w + 1)%Z = 0%Z)) by lia.
    case_bool_decide; case_decide; lia.
  - simpl in Hhand. split; [| destruct (isRegister op); lia].
    split; [lia |]. split; [by rewrite Hhand, Hreg |].
    intros Hzero. rewrite Hreg in Hzero. rewrite (Hempty Hzero) in *.
    destruct op as [d | d sop | d f | d f | d |]; simpl in *; done.
Qed.

Lemma run_handler (ops : list ProcessOp) :
  ∀ w w' l,
    registry_ok w l →
    handler_once w l →
    (didRegisterAtExit w +
       Z.of_nat (length (filter (λ op, isRegister op = true) ops)) < 2 ^ 31)%Z →
    runProcess ops w = Some w' →
    handler_once w' (foldl listAfter l ops).
Proof.
  induction ops as [| op ops IH]; intros w w' l Hok Hh Hbound Hrun.
  - by injection Hrun as <-.
  - simpl in Hrun. destruct (stepProcess w op) as [w1 |] eqn:Hstep; [| done].
    rewrite filter_cons in Hbound.
    destruct (step_list _ _ _ _ Hok Hstep) as (Hok1 & _).
    destruct (step_handler w w1 l op Hok Hh) as [Hh1 Hle]; [| done |].
    { destruct (isRegister op); case_decide; simpl in *; try done; lia. }
    apply (IH w1 w' _ Hok1 Hh1); [| done].
    destruct (isRegister op); case_decide; simpl in *; try done; lia.
Qed.

(** X9. The exit handler is installed once, and in time.  In a process
    that has run fewer than [2^31] calls of [registerToSaveAtExit] since
    its start, [atexit(atExitCallback)] was called at most once, exactly
    when a registration was counted, and whenever a store is on the list
    the handler is installed. *)
Theorem exit_handler_installed_once (canOpen : string → bool)
    (ops : list ProcessOp) (w : World) :
  (Z.of_nat (length (filter (λ op, isRegister op = true) ops)) < 2 ^ 31)%Z →
  runProcess ops (newWorld canOpen) = Some w →
  atexitHandlers w ≤ 1 ∧
  (atexitHandlers w = 1 ↔ didRegisterAtExit w ≠ 0%Z) ∧
  (firstDatabase w ≠ None → atexitHandlers w = 1).
Proof.
  intros Hn Hrun.
  pose proof (registry_ok_new canOpen) as Hok0.
  destruct (run_list ops _ _ _ Hok0 Hrun) as [Hok _].
  destruct (run_handler ops (newWorld canOpen) w [] Hok0) as (Hpos & Hh & Hempty);
    [by repeat split | done | done |].
  rewrite Hh. case_decide as Hzero.
  - split; [lia |]. split; [split; [lia | done] |].
    intros Hfirst. destruct Hfirst.
    destruct Hok as [Hchain _ _]. rewrite (Hempty Hzero) in Hchain. exact Hchain.
  - by repeat split.
Qed.

(** X10. When the handler is installed.  A call of [registerToSaveAtExit]
    on a store that is not on the list adds one to [didRegisterAtExit],
    wrapping around as [int] does, and calls [atexit] exactly when the
    counter was 0 before (for a counter in the range of [int]); a call on a
    store that is on the list changes no counter.  So a counter that has
    wrapped back to 0 has the handler installed again. *)
Theorem handler_installed_when_counter_zero (w w' : World) (l : list positive)
    (this : positive) (f : string) :
  registry_ok w l →
  (- 2 ^ 31 ≤ didRegisterAtExit w < 2 ^ 31)%Z →
  registerToSaveAtExit this f w = Some w' →
  databaseCounter w' = databaseCounter w ∧
  (this ∈ l →
   didRegisterAtExit w' = didRegisterAtExit w ∧
   atexitHandlers w' = atexitHandlers w) ∧
  (this ∉ l →
   didRegisterAtExit w' = wrapInt (didRegisterAtExit w + 1) ∧
   atexitHandlers w' =
     if decide (didRegisterAtExit w = 0%Z) then S (atexitHandlers w)
     else atexitHandlers w).
Proof.
  intros Hok Hrange Hreg.
  pose proof (step_counters w w' l (PRegisterToSaveAtExit this f) Hok Hreg) as Hc.
  unfold counters in Hc. simpl in Hc. injection Hc as Hdc Hcount Hhand.
  split; [done |]. split.
  - intros Hin. rewrite bool_decide_eq_false_2 in Hcount, Hhand by (by intros ?).
    done.
  - intros Hni. rewrite bool_decide_eq_true_2 in Hcount, Hhand by done.
    split; [done |]. rewrite Hhand. simpl.
    destruct (decide (didRegisterAtExit w = 0%Z)) as [-> | Hne].
    + by rewrite bool_decide_eq_true_2.
    + rewrite bool_decide_eq_false_2; [done |]. unfold wrapInt.
      destruct (decide (didRegisterAtExit w = 2 ^ 31 - 1)%Z) as [-> | Hmax];
        [done |].
      rewrite Z.mod_small; lia.
Qed.

(** *** The stores of a running process *)

Lemma sound_bare (a b : Database) : bare a = bare b → sound b → sound a.
Proof.
  destruct a, b. unfold bare, detached. simpl. intros [= -> -> -> -> -> ->].
  intros ([Hb Hc Hkb Hkc Hid] & Hic & Hev). split; [by split | by split].
Qed.

Lemma sound_new (id : Z) : sound (newDatabase id).
Proof.
  split; [apply store_inv_new |]. split; [apply index_consistent_new |].
  intros e He. by apply elem_of_nil in He.
Qed.

Lemma sound_contentsAfter (x : positive) (op : ProcessOp) (db : Database) :
  sound db → sound (contentsAfter x op db).
Proof.
  intros (Hinv & Hic & Hev).
  destruct op as [d | d sop | d f | d f | d |]; simpl; try done.
  case_decide; [| done].
  split; [by apply store_inv_step |].
  split; [by apply index_consistent_step | by apply events_ok_step].
Qed.

Lemma run_sound (ops : list ProcessOp) :
  ∀ w w' l,
    registry_ok w l →
    (∀ x db, heap w !! x = Some db → sound db) →
    runProcess ops w = Some w' →
    ∀ x db, heap w' !! x = Some db → sound db.
Proof.
  induction ops as [| op ops IH]; intros w w' l Hok Hall Hrun.
  - by injection Hrun as <-.
  - simpl in Hrun. destruct (stepProcess w op) as [w1 |] eqn:Hstep; [| done].
    destruct (step_list _ _ _ _ Hok Hstep) as (Hok1 & _).
    apply (IH w1 w' _ Hok1); [| done]. intros x db' Hx.
    destruct (step_contents _ _ _ _ _ _ Hok Hstep Hx)
      as [(db & Hdb & Hb) | (_ & _ & ->)]; [| apply sound_new].
    apply (sound_bare _ _ Hb), sound_contentsAfter. by eapply Hall.
Qed.

(** X11. The store invariants survive the whole process.  Every store
    that is alive in a state the process reaches from its start (through
    constructors, store operations, saves, registrations, destructors of
    other stores and the exit handler) has the store invariant, has index
    entries that point to the profile created for their key, and has only
    events that point to existing profiles and compilations. *)
Theorem live_stores_sound (canOpen : string → bool) (ops : list ProcessOp)
    (w : World) (x : positive) (db : Database) :
  runProcess ops (newWorld canOpen) = Some w →
  heap w !! x = Some db →
  store_inv db ∧ index_consistent db ∧ events_ok db.
Proof.
  intros Hrun Hx.
  apply (run_sound ops (newWorld canOpen) w [] (registry_ok_new canOpen))
    with (x := x); [| done | done].
  intros y dby Hy. done.
Qed.

(** *** Running the exit handler *)

(** X12. The exit handler can run twice.  Once [atExitCallback] has run,
    the list is empty and no live store has its flag set, so a second run
    returns at once with nothing changed, and the destructor of any store
    saves nothing and writes no file. *)
Theorem exit_handler_twice (w w' : World) (l : list positive) :
  registry_ok w l →
  atExitCallback w = Some w' →
  firstDatabase w' = None ∧
  atExitCallback w' = Some w' ∧
  ∀ d db, heap w' !! d = Some db →
    m_shouldSaveAtExit db = false ∧
    destroy d w' = Some (with_heap (delete d (heap w')) w').
Proof.
  intros Hok Hexit.
  destruct (atExitCallback_spec _ _ Hok) as (w'' & Heq & Hok' & _).
  rewrite Hexit in Heq. injection Heq as <-.
  assert (firstDatabase w' = None) as Hfirst by apply Hok'.
  split; [done |]. split.
  - unfold atExitCallback. rewrite atExitLoop_S.
    by rewrite (removeFirstAtExitDatabase_empty _ Hfirst).
  - intros d db Hd.
    assert (m_shouldSaveAtExit db = false) as Hflag.
    { destruct (m_shouldSaveAtExit db) eqn:Hf; [| done].
      apply (reg_flag _ _ Hok' _ _ Hd) in Hf. by apply elem_of_nil in Hf. }
    split; [done |]. unfold destroy. rewrite Hd. simpl. by rewrite Hflag.
Qed.

Lemma performAtExitSave_files (d : positive) (db : Database) (w w' : World) :
  heap w !! d = Some db →
  performAtExitSave d w = Some w' →
  files w' = writeOf w (files w) d.
Proof.
  intros Hd. unfold performAtExitSave, writeOf. rewrite Hd. simpl.
  destruct (writable w (m_atExitSaveFilename db)) eqn:Hwr.
  - rewrite (save_writable _ _ _ _ Hd Hwr). simpl. by intros [= <-].
  - rewrite (save_unwritable _ _ _ _ Hd Hwr). simpl. by intros [= <-].
Qed.

Lemma writeOf_ext (w w' : World) (fs : gmap string string) (d : positive) :
  detached <$> heap w' !! d = detached <$> heap w !! d →
  writable w' = writable w →
  writeOf w' fs d = writeOf w fs d.
Proof.
  intros Hd Hw. unfold writeOf. rewrite Hw.
  destruct (heap w' !! d) as [db' |], (heap w !! d) as [db |]; try done.
  simpl in Hd. assert (detached db' = detached db) as Hdet by congruence.
  rewrite (toJSON_bare _ _ (bare_detached _ _ Hdet)).
  assert (m_atExitSaveFilename db' = m_atExitSaveFilename db) as ->; [| done].
  by destruct db, db'; inversion Hdet.
Qed.

Lemma foldl_writeOf_ext (w w' : World) (l : list positive) :
  ∀ fs,
    (∀ d, d ∈ l → ∀ fs', writeOf w' fs' d = writeOf w fs' d) →
    foldl (writeOf w') fs l = foldl (writeOf w) fs l.
Proof.
  induction l as [| d l IH]; intros fs Hext; [done |]. simpl.
  rewrite (Hext d) by apply list_elem_of_here.
  apply IH. intros x Hx. apply Hext. by apply list_elem_of_further.
Qed.

Lemma atExitLoop_files (l : list positive) :
  ∀ (w w' : World) (fuel : nat),
    registry_ok w l →
    atExitLoop fuel w = Some w' →
    files w' = foldl (writeOf w) (files w) l.
Proof.
  induction l as [| d l IH]; intros w w' fuel Hok Hrun;
    (destruct fuel as [| fuel]; [done |]); rewrite atExitLoop_S in Hrun.
  - rewrite removeFirstAtExitDatabase_empty in Hrun by apply Hok.
    by injection Hrun as <-.
  - pose proof (reg_nodup _ _ Hok) as [Hni _]%NoDup_cons.
    destruct (removeFirstAtExitDatabase_spec _ _ _ Hok)
      as (w1 & db & Hpop & Hok1 & Hdb & Hh1 & Hw1 & _).
    rewrite Hpop in Hrun. cbn [mbind option_bind fst snd] in Hrun.
    destruct (removeFirstAtExitDatabase_untouched _ _ _ Hpop)
      as (_ & _ & _ & _ & Hf1 & _).
    assert (heap w1 !! d = Some (detached db)) as Hd1
      by (rewrite Hh1; apply lookup_insert_eq).
    destruct (performAtExitSave_spec _ _ _ Hd1) as (w2 & Hsave & Hh2 & Hfi2 & Hw2 & _).
    rewrite Hsave in Hrun. cbn [mbind option_bind] in Hrun.
    rewrite (IH w2 w' fuel) ; [| by apply (registry_ok_ext w1) | done].
    rewrite (performAtExitSave_files _ _ _ _ Hd1 Hsave), Hf1. simpl.
    rewrite (writeOf_ext w w1);
      [| by rewrite Hd1, Hdb; simpl; rewrite detached_detached | done].
    apply foldl_writeOf_ext. intros x Hx fs'. apply writeOf_ext; [| congruence].
    rewrite Hh2, Hh1, lookup_insert_ne; [done |]. by intros ->.
Qed.

Lemma foldl_writeOf_other (w : World) (g : string) (l : list positive) :
  ∀ fs,
    (∀ d db, d ∈ l → heap w !! d = Some db →
       m_atExitSaveFilename db ≠ g ∨ writable w g = false) →
    foldl (writeOf w) fs l !! g = fs !! g.
Proof.
  induction l as [| d l IH]; intros fs Hother; [done |]. simpl.
  rewrite IH by (intros x dbx Hx; apply Hother; by apply list_elem_of_further).
  unfold writeOf. destruct (heap w !! d) as [db |] eqn:Hd; [| done].
  destruct (writable w (m_atExitSaveFilename db)) eqn:Hwr; [| done].
  destruct (Hother d db (list_elem_of_here _ _) Hd) as [Hne | Hno].
  - by rewrite lookup_insert_ne.
  - destruct (decide (m_atExitSaveFilename db = g)) as [<- | Hne];
      [congruence | by rewrite lookup_insert_ne].
Qed.

(** X13. What the files hold after exit.  After [atExitCallback], the file
    named by a store of the list holds the JSON text of that store as it
    was when the handler ran, provided it can be opened and no store
    further down the list (registered earlier, hence saved later) names
    the same file; a file that no store of the list names, or that cannot
    be opened, is as it was.  A store whose file cannot be opened does not
    stop the others from being saved. *)
Theorem files_after_exit (w : World) (l1 l2 : list positive) (d : positive)
    (db : Database) :
  registry_ok w (l1 ++ d :: l2) →
  heap w !! d = Some db →
  writable w (m_atExitSaveFilename db) = true →
  (∀ x dbx, x ∈ l2 → heap w !! x = Some dbx →
     m_atExitSaveFilename dbx ≠ m_atExitSaveFilename db) →
  ∃ w', atExitCallback w = Some w' ∧
        files w' !! m_atExitSaveFilename db = Some (toJSON db) ∧
        ∀ g, (∀ x dbx, x ∈ l1 ++ d :: l2 → heap w !! x = Some dbx →
                m_atExitSaveFilename dbx ≠ g ∨ writable w g = false) →
             files w' !! g = files w !! g.
Proof.
  intros Hok Hd Hwr Hlater.
  destruct (atExitCallback_spec _ _ Hok) as (w' & Hexit & _).
  exists w'. split; [done |].
  rewrite (atExitLoop_files _ _ _ _ Hok Hexit). split.
  - rewrite foldl_app. simpl. rewrite foldl_writeOf_other.
    + unfold writeOf. rewrite Hd, Hwr. apply lookup_insert_eq.
    + intros x dbx Hx Hdbx. left. by eapply Hlater.
  - intros g Hg. by apply foldl_writeOf_other.
Qed.

(** *** Taking a store off the list *)

(** X14. Popping the head and unlinking the head agree.  When [d] is the
    first store of the list, [removeDatabaseFromAtExit] called on [d]
    leaves the process exactly as [removeFirstAtExitDatabase] does, which
    returns [d]: both set [firstDatabase] to the link of [d], clear the
    link and clear the flag. *)
Theorem unlink_head_is_pop (w : World) (d : positive) (db : Database) :
  firstDatabase w = Some d →
  heap w !! d = Some db →
  removeFirstAtExitDatabase w =
    Some (Some d,
          store d (detached db)
            (with_firstDatabase (m_nextRegisteredDatabase db) w)) ∧
  removeDatabaseFromAtExit d w =
    Some (store d (detached db)
            (with_firstDatabase (m_nextRegisteredDatabase db) w)).
Proof.
  intros Hfirst Hd.
  assert (∀ x y (w0 : World), store d x (store d y w0) = store d x w0) as Hss.
  { intros x y w0. unfold store. simpl. by rewrite insert_insert_eq. }
  split.
  - unfold removeFirstAtExitDatabase. rewrite Hfirst, Hd. simpl.
    rewrite lookup_insert_eq. simpl. by rewrite Hss.
  - unfold removeDatabaseFromAtExit. rewrite removeLoop_S. simpl.
    rewrite Hfirst. simpl. rewrite decide_False by (intros Hne; by apply Hne).
    rewrite Hd. simpl. rewrite lookup_insert_eq. simpl.
    by rewrite Hss.
Qed.

(** X15. [removeDatabaseFromAtExit] only unlinks.  On a well-formed list it
    always returns; the list is then the former one without the store,
    the others in their order; no counter, file or save log entry
    changes, every store keeps its contents and its file name, and when
    the store was not on the list nothing changes at all. *)
Theorem removeDatabaseFromAtExit_only_unlinks (this : positive) (w : World)
    (l : list positive) :
  registry_ok w l →
  ∃ w', removeDatabaseFromAtExit this w = Some w' ∧
        registry_ok w' (filter (λ d, d ≠ this) l) ∧
        untouched w w' ∧
        (∀ d, detached <$> heap w' !! d = detached <$> heap w !! d) ∧
        (this ∉ l → w' = w).
Proof.
  intros Hok.
  destruct (removeDatabaseFromAtExit_spec this _ _ Hok)
    as (w' & Hrm & Hok' & Hh & _).
  exists w'. split; [done |]. split; [done |].
  split; [by eapply removeDatabaseFromAtExit_untouched |].
  split; [done |]. intros Hni.
  rewrite (removeDatabaseFromAtExit_absent _ _ _ Hok Hni) in Hrm. congruence.
Qed.

(** X16. What the destructor does.  Destroying a live store always
    returns and frees the address.  A store that is not on the list goes
    without a trace: no save, no file written, the list and the counters
    as before.  A store that is on the list is taken off it, the others
    staying in their order, and is saved once: the file it names, when it
    can be opened, holds the store's JSON text as of its destruction, and
    no other file changes. *)
Theorem destructor_effect (this : positive) (db : Database) (w : World)
    (l : list positive) :
  registry_ok w l →
  heap w !! this = Some db →
  ∃ w', destroy this w = Some w' ∧
        heap w' !! this = None ∧
        registry_ok w' (filter (λ d, d ≠ this) l) ∧
        counters w' = counters w ∧
        (this ∉ l → w' = with_heap (delete this (heap w)) w) ∧
        (this ∈ l →
         saves w' = saves w ++ flushOf w this ∧
         files w' = writeOf w (files w) this ∧
         ∀ g, g ≠ m_atExitSaveFilename db → files w' !! g = files w !! g).
Proof.
  intros Hok Hdb.
  destruct (destroy_spec this db w l Hok Hdb)
    as (w' & Hdestroy & Hok' & Hgone & _ & _ & Hs).
  exists w'. split; [done |]. split; [done |]. split; [done |].
  split; [by eapply destroy_counters |].
  pose proof (reg_flag _ _ Hok _ _ Hdb) as Hflag.
  split.
  - intros Hni. unfold destroy in Hdestroy. rewrite Hdb in Hdestroy.
    cbn [mbind option_bind] in Hdestroy.
    destruct (m_shouldSaveAtExit db); [by destruct Hni; apply Hflag |].
    cbn [mbind option_bind] in Hdestroy. by injection Hdestroy as <-.
  - intros Hin. apply Hflag in Hin. rewrite Hin in Hs. split; [done |].
    assert (files w' = writeOf w (files w) this) as Hfiles.
    { unfold destroy in Hdestroy. rewrite Hdb in Hdestroy.
      cbn [mbind option_bind] in Hdestroy. rewrite Hin in Hdestroy.
      destruct (removeDatabaseFromAtExit_spec this _ _ Hok)
        as (w1 & Hrm & _ & Hh1 & Hw1 & _).
      rewrite Hrm in Hdestroy. cbn [mbind option_bind] in Hdestroy.
      pose proof (Hh1 this) as Hthis. rewrite Hdb in Hthis.
      destruct (heap w1 !! this) as [db1 |] eqn:Hdb1; [| done].
      destruct (performAtExitSave this w1) as [w2 |] eqn:Hsave;
        cbn [mbind option_bind] in Hdestroy; [| done].
      injection Hdestroy as <-. simpl.
      rewrite (performAtExitSave_files _ _ _ _ Hdb1 Hsave).
      destruct (removeDatabaseFromAtExit_untouched _ _ _ Hrm)
        as (_ & _ & _ & _ & -> & _).
      apply writeOf_ext; [by rewrite Hdb1, Hdb | done]. }
    split; [done |]. intros g Hg. rewrite Hfiles. unfold writeOf. rewrite Hdb.
    destruct (writable w (m_atExitSaveFilename db)); [| done].
    by rewrite lookup_insert_ne.
Qed.

End MoreProcessFacts.

(** * The theorems at work on the example host and process *)

Section Examples.
#[local] Existing Instance exampleHost.

Example exampleWorld_reachable :
  runProcess [PConstruct 1; PConstruct 2; PConstruct 3] (newWorld exampleWritable)
    = Some exampleWorld.
Proof. vm_compute. reflexivity. Qed.

Lemma registry_ok_exampleWorld : registry_ok exampleWorld [].
Proof.
  split; [done | constructor |]. intros d db. simpl.
  intros [[_ <-] | [_ [[_ <-] | [_ [_ <-]%lookup_singleton_Some]]%lookup_insert_Some]]%lookup_insert_Some;
    simpl; split; try done; by intros ?%elem_of_nil.
Qed.

Example scenario_store :
  let db := newDatabase 1 in
  let r := ensureBytecodesFor 5 db in
  let db := addCompilation 5 7 r.2 in
  let db := logEvent 1000 5 "optimized" "tier2" db in
  r.1 = 0 ∧
  m_bytecodes db = [mkBytecodes 0 5] ∧
  m_compilations db = [7%positive] ∧
  m_events db = [mkEvent 1000 0 (Some 7%positive) "optimized" "tier2"] ∧
  toJS db =
    JSObject
      [("bytecodes", JSArray [JSObject [("bytecodesID", JSNumber 0)]]);
       ("compilations", JSArray [JSObject [("compilationID", JSNumber 7)]]);
       ("events",
        JSArray [JSObject [("bytecodesID", JSNumber 0);
                           ("summary", JSString "optimized");
                           ("detail", JSString "tier2")]])].
Proof. vm_compute. repeat split. Qed.

Example scenario_unwritable :
  fst <$> save 1 "/nonexistent/dir/out.json" exampleWorld = Some false ∧
  (files ∘ snd <$> save 1 "/nonexistent/dir/out.json" exampleWorld) = Some ∅.
Proof. vm_compute. repeat split. Qed.

Example scenario_lifo :
  (w ← registerToSaveAtExit 1 "a.json" exampleWorld;
   w ← registerToSaveAtExit 2 "b.json" w;
   w ← registerToSaveAtExit 3 "c.json" w;
   w ← registerToSaveAtExit 1 "d.json" w;
   w ← atExitCallback w;
   Some (saves w, atexitHandlers w)) =
  Some ([mkSaveCall 3 "c.json" true; mkSaveCall 2 "b.json" true;
         mkSaveCall 1 "d.json" true], 1).
Proof. vm_compute. reflexivity. Qed.

(** Store 1, registered twice, is flushed once, to the second path, by the
    exit handler followed by the destructor.  In a run where other stores
    come and go, where the client saves store 1 itself and registers it a
    third time before the exit handler runs, store 1 is flushed once, to
    the third path; a registration after the exit handler has run puts
    store 1 on the list again. *)
Lemma shutdown_save_once_witness :
  let pre := [PRegisterToSaveAtExit 2 "other.json"; PSave 1 "snapshot.json";
              PConstruct 4; PRegisterToSaveAtExit 1 "third.json";
              PStore 1 (OpLogEvent 1000 5 "optimized" "tier2"); PDestroy 3] in
  let post := [PSave 1 "/nonexistent/late.json"; PDestroy 1; PAtExitCallback;
               PDestroy 2] in
  registry_ok exampleWorld [] ∧
  heap exampleWorld !! 1%positive = Some (newDatabase 1) ∧
  ∃ w1 wa wb wr w',
    registerEach 1 ["first.json"; "second.json"] exampleWorld = Some w1 ∧
    atExitCallback w1 = Some wa ∧
    destroy 1 wa = Some wb ∧
    savesOf 1 0 wb = [mkSaveCall 1 "second.json" true] ∧
    registerToSaveAtExit 1 "again.json" wa = Some wr ∧
    registry_ok wr [1%positive] ∧
    runProcess (pre ++ PAtExitCallback :: post) w1 = Some w' ∧
    savesOf 1 0 w' =
      [mkSaveCall 1 "snapshot.json" true; mkSaveCall 1 "third.json" true;
       mkSaveCall 1 "/nonexistent/late.json" false].
Proof.
  intros pre post.
  split; [apply registry_ok_exampleWorld |]. split; [reflexivity |].
  destruct (shutdown_save_once exampleWorld [] 1 (newDatabase 1)
              "first.json" ["second.json"] registry_ok_exampleWorld eq_refl)
    as (w1 & db1 & Hreg & _ & _ & _ & _ & _ & _ &
        (wa & wb & Ha & Hb & _ & _ & Hf) & _ & Hrun & Hagain).
  destruct (Hagain "again.json" wa Ha) as (wr & Hr & Hokr & _ & _).
  assert (is_Some (runProcess (pre ++ PAtExitCallback :: post) w1)) as [w' Hw'].
  { destruct (registerEach 1 ["first.json"; "second.json"] exampleWorld)
      as [w0 |] eqn:Hw0; [| discriminate Hreg].
    injection Hreg as <-. vm_compute in Hw0. injection Hw0 as <-.
    vm_compute. eexists. reflexivity. }
  exists w1, wa, wb, wr, w'.
  split; [exact Hreg |]. split; [exact Ha |]. split; [exact Hb |].
  split; [exact Hf |]. split; [exact Hr |]. split; [exact Hokr |].
  split; [exact Hw' |].
  assert (Forall (λ op, flushTrigger 1 op = false) pre) as Hpre
    by repeat constructor.
  assert (Forall (λ op, registersAgain 1 op = false) post) as Hpost
    by repeat constructor.
  exact (Hrun pre PAtExitCallback post w' Hpre eq_refl Hpost Hw').
Defined.

(** C1, as stated, fails.  Store 1 is registered and the exit handler
    flushes it to [a.json] and clears its flag.  The store is still alive:
    the next [registerToSaveAtExit] finds the flag clear and puts the store
    on the list again, and the destructor then flushes it a second time, to
    [e.json].  One lifetime of the store, two flushes, one by the exit
    handler and one by the destructor. *)
Lemma shutdown_save_twice :
  (w1 ← registerToSaveAtExit 1 "a.json" exampleWorld;
   w2 ← atExitCallback w1;
   w3 ← registerToSaveAtExit 1 "e.json" w2;
   w4 ← destroy 1 w3;
   Some (savesOf 1 0 w2, firstDatabase w2, firstDatabase w3,
         savesOf 1 (length (saves w3)) w4, savesOf 1 0 w4)) =
  Some ([mkSaveCall 1 "a.json" true], None, Some 1%positive,
        [mkSaveCall 1 "e.json" true],
        [mkSaveCall 1 "a.json" true; mkSaveCall 1 "e.json" true]) ∧
  ¬ flushed_once_per_lifetime 1 exampleWorld.
Proof.
  split; [vm_compute; reflexivity |].
  intros Hclaim.
  set (ops := [PRegisterToSaveAtExit 1 "a.json"; PAtExitCallback;
               PRegisterToSaveAtExit 1 "e.json"; PDestroy 1]).
  assert (Forall (λ op, constructsAt 1 op = false ∧
                        savesDirectly 1 op = false) ops) as Hops
    by repeat constructor.
  destruct (runProcess ops exampleWorld) as [w' |] eqn:Hrun;
    [| vm_compute in Hrun; discriminate Hrun].
  pose proof (Hclaim (mk_is_Some _ _ eq_refl) ops w' Hops Hrun) as Hle.
  vm_compute in Hrun. injection Hrun as <-. vm_compute in Hle. lia.
Qed.

(** Stores 1, 2, 3 registered in that order are saved 3, 2, 1. *)
Lemma atExit_saves_lifo_witness :
  registry_ok exampleWorld [] ∧
  ∃ w1 w2 w3 w',
    registerToSaveAtExit 1 "a.json" exampleWorld = Some w1 ∧
    registerToSaveAtExit 2 "b.json" w1 = Some w2 ∧
    registerToSaveAtExit 3 "/nonexistent/c.json" w2 = Some w3 ∧
    atExitCallback w3 = Some w' ∧
    saves w' =
      [mkSaveCall 3 "/nonexistent/c.json" false; mkSaveCall 2 "b.json" true;
       mkSaveCall 1 "a.json" true].
Proof.
  split; [apply registry_ok_exampleWorld |].
  destruct (atExit_saves_lifo exampleWorld [] registry_ok_exampleWorld)
    as (_ & _ & _ & Habc).
  destruct (Habc 1%positive 2%positive 3%positive
              (newDatabase 1) (newDatabase 2) (newDatabase 3)
              "a.json" "b.json" "/nonexistent/c.json")
    as (w1 & w2 & w3 & w' & H1 & H2 & H3 & _ & Hexit & Hs);
    [discriminate | discriminate | discriminate | reflexivity..|].
  exists w1, w2, w3, w'. repeat split; assumption.
Defined.

(** Code blocks 1 and 2 share the baseline version 1: after operations that
    include [notifyDestruction 2], block 1 still gets the profile block 2
    got. *)
Lemma ensureBytecodesFor_once_witness :
  let ops := [OpAddCompilation 2 7; OpNotifyDestruction 2;
              OpLogEvent 1000 2 "optimized" "tier2"; OpEnsureBytecodesFor 9] in
  let first := ensureBytecodesFor 2 (newDatabase 1) in
  let db' := runStore ops first.2 in
  Forall (λ op, destroysHandle (baselineVersion 2) op = false) ops ∧
  baselineVersion 1 = baselineVersion 2 ∧
  ensureBytecodesFor 1 db' = (first.1, db').
Proof.
  intros ops first db'.
  assert (Forall (λ op, destroysHandle (baselineVersion 2) op = false) ops) as Hops
    by (repeat constructor).
  split; [exact Hops |]. split; [reflexivity |].
  destruct (ensureBytecodesFor_once 2 (newDatabase 1)) as (_ & _ & Hrun).
  destruct (Hrun ops 1%positive Hops eq_refl) as [Hsame _]. exact Hsame.
Defined.

(** Code block 1 is its own baseline version: destroyed and seen again, it
    gets a new profile. *)
Lemma notifyDestruction_forgets_witness :
  let db := (ensureBytecodesFor 1 (newDatabase 1)).2 in
  store_inv db ∧ baselineVersion 1 = 1%positive ∧
  recreated_after_destruction 1 db.
Proof.
  intros db.
  assert (store_inv db) as Hinv by apply store_inv_ensure, store_inv_new.
  split; [exact Hinv |]. split; [reflexivity |].
  destruct (notifyDestruction_forgets 1 db) as (_ & _ & Hnew).
  exact (Hnew Hinv eq_refl).
Defined.

(** C4, as stated, fails.  Code block 2 has baseline version 1, so its
    profile is indexed under 1; [notifyDestruction 2] leaves that entry in
    place, and the next [ensureBytecodesFor 2] returns the same profile
    instead of a new one. *)
Lemma notifyDestruction_keeps_baseline_profile :
  let db := (ensureBytecodesFor 2 (newDatabase 1)).2 in
  store_inv db ∧ ¬ recreated_after_destruction 2 db.
Proof.
  split.
  - apply store_inv_ensure, store_inv_new.
  - intros Hclaim. destruct (Hclaim 0) as [Hne _]; [vm_compute; reflexivity |].
    apply Hne. vm_compute. reflexivity.
Qed.

(** An event logged for code block 2 refers to a profile of its baseline
    version, code block 1. *)
Lemma logEvent_appends_one_witness :
  let db := addCompilation 2 7 (newDatabase 1) in
  index_consistent db ∧
  ∃ b, m_bytecodes (logEvent 1000 2 "optimized" "tier2" db) !! 0 = Some b ∧
       bc_codeBlock b = 1%positive.
Proof.
  intros db.
  assert (index_consistent db) as Hdb by apply (index_consistent_new 1).
  split; [exact Hdb |].
  destruct (logEvent_appends_one 1000 2 "optimized" "tier2" db)
    as (_ & _ & _ & _ & _ & _ & _ & Hres).
  exact (Hres Hdb).
Defined.

(** A save under [/nonexistent/] fails and changes no file; the next save
    of the same store writes its JSON text. *)
Lemma save_all_or_nothing_witness :
  heap exampleWorld !! 1%positive = Some (newDatabase 1) ∧
  writable exampleWorld "/nonexistent/dir/out.json" = false ∧
  ∃ w', save 1 "/nonexistent/dir/out.json" exampleWorld = Some (false, w') ∧
        files w' = files exampleWorld ∧
        ∃ w'', save 1 "out.json" w' = Some (true, w'') ∧
               files w'' !! "out.json" = Some (toJSON (newDatabase 1)).
Proof.
  split; [reflexivity |]. split; [reflexivity |].
  destruct (save_all_or_nothing 1 (newDatabase 1) "/nonexistent/dir/out.json"
              exampleWorld eq_refl) as [Hfail _].
  destruct (Hfail eq_refl) as (w' & Hsave & Hfiles & _ & _ & _ & Hlater).
  exists w'. split; [exact Hsave |]. split; [exact Hfiles |].
  exact (Hlater "out.json" eq_refl).
Defined.

(** The invariant holds after a run of all four operations on a new
    store. *)
Lemma store_inv_preserved_witness :
  store_inv (newDatabase 1) ∧
  store_inv (runStore [OpEnsureBytecodesFor 2; OpAddCompilation 2 7;
                       OpLogEvent 1000 3 "jettison" ""; OpNotifyDestruction 1]
               (newDatabase 1)).
Proof.
  split; [apply store_inv_new |].
  destruct (store_inv_preserved (newDatabase 1) (store_inv_new 1))
    as (_ & _ & _ & _ & Hrun).
  apply Hrun.
Defined.


(** ** The further properties at work *)

Lemma registeredWorld_run :
  runProcess exampleRegistrations exampleWorld = Some registeredWorld.
Proof. vm_compute. reflexivity. Qed.

Lemma registry_ok_registeredWorld : registry_ok registeredWorld [3; 2; 1]%positive.
Proof.
  apply (run_list exampleRegistrations exampleWorld registeredWorld []
           registry_ok_exampleWorld registeredWorld_run).
Qed.

(** Events logged before and after [notifyDestruction] resolve. *)
Lemma events_never_dangle_witness :
  let ops := [OpLogEvent 1000 2 "optimized" "tier2"; OpAddCompilation 2 7;
              OpNotifyDestruction 1; OpLogEvent 2000 2 "jettison" ""] in
  store_inv (newDatabase 1) ∧ events_ok (newDatabase 1) ∧
  events_ok (runStore ops (newDatabase 1)).
Proof.
  intros ops. destruct (sound_new 1) as (Hinv & _ & Hev).
  split; [exact Hinv |]. split; [exact Hev |].
  exact (proj1 (events_never_dangle (newDatabase 1) ops Hinv Hev)).
Defined.

(** Registering 1 and 2, destroying 1, registering 3 and 2 again leaves
    the list 3, 2. *)
Lemma list_behaves_as_list_witness :
  let ops := [PRegisterToSaveAtExit 1 "a.json"; PRegisterToSaveAtExit 2 "b.json";
              PDestroy 1; PRegisterToSaveAtExit 3 "c.json";
              PRegisterToSaveAtExit 2 "d.json"] in
  registry_ok exampleWorld [] ∧
  ∃ w', runProcess ops exampleWorld = Some w' ∧
        registry_ok w' [3; 2]%positive.
Proof.
  intros ops. split; [apply registry_ok_exampleWorld |].
  destruct (runProcess ops exampleWorld) as [w' |] eqn:Hrun;
    [| vm_compute in Hrun; discriminate Hrun].
  exists w'. split; [reflexivity |].
  exact (proj1 (list_behaves_as_list exampleWorld w' [] ops
                  registry_ok_exampleWorld Hrun)).
Defined.

(** The exit handler runs in the example process; destroying the store at
    the free address 9 does not. *)
Lemma step_defined_witness :
  registry_ok exampleWorld [] ∧
  is_Some (stepProcess exampleWorld PAtExitCallback) ∧
  ¬ is_Some (stepProcess exampleWorld (PDestroy 9)).
Proof.
  split; [apply registry_ok_exampleWorld |]. split.
  - exact (proj2 (step_defined exampleWorld [] PAtExitCallback
                    registry_ok_exampleWorld) I).
  - intros Hs.
    apply (proj1 (step_defined exampleWorld [] (PDestroy 9)
                    registry_ok_exampleWorld)) in Hs.
    destruct Hs as [db Hdb]. vm_compute in Hdb. discriminate Hdb.
Defined.

(** Registering store 1 leaves its JSON text as it was. *)
Lemma contents_change_by_store_ops_only_witness :
  registry_ok exampleWorld [] ∧
  ∃ w' db', stepProcess exampleWorld (PRegisterToSaveAtExit 1 "a.json") = Some w' ∧
            heap w' !! 1%positive = Some db' ∧
            toJSON db' = toJSON (newDatabase 1).
Proof.
  split; [apply registry_ok_exampleWorld |].
  destruct (stepProcess exampleWorld (PRegisterToSaveAtExit 1 "a.json"))
    as [w' |] eqn:Hstep; [| vm_compute in Hstep; discriminate Hstep].
  destruct (heap w' !! 1%positive) as [db' |] eqn:Hx.
  - exists w', db'. split; [reflexivity |]. split; [exact Hx |].
    destruct (contents_change_by_store_ops_only exampleWorld w' []
                (PRegisterToSaveAtExit 1 "a.json") 1 db'
                registry_ok_exampleWorld Hstep Hx)
      as [(db & Hdb & _ & Hjson) | (Hop & _)]; [| discriminate Hop].
    vm_compute in Hdb. injection Hdb as <-. exact Hjson.
  - vm_compute in Hstep. injection Hstep as <-. vm_compute in Hx.
    discriminate Hx.
Defined.

(** Three constructors, one of them on an address freed in between: the
    counter is 3. *)
Lemma database_ids_unique_witness :
  let ops := [PConstruct 1; PConstruct 2; PDestroy 1; PConstruct 1] in
  ∃ w, runProcess ops (newWorld exampleWritable) = Some w ∧
       databaseCounter w = 3%Z.
Proof.
  intros ops.
  destruct (runProcess ops (newWorld exampleWritable)) as [w |] eqn:Hrun;
    [| vm_compute in Hrun; discriminate Hrun].
  exists w. split; [reflexivity |].
  exact (proj1 (database_ids_unique exampleWritable ops w eq_refl Hrun)).
Defined.

(** Three registrations install the handler once. *)
Lemma exit_handler_installed_once_witness :
  let ops := [PConstruct 1; PConstruct 2; PRegisterToSaveAtExit 1 "a.json";
              PRegisterToSaveAtExit 2 "b.json";
              PRegisterToSaveAtExit 1 "c.json"] in
  ∃ w, runProcess ops (newWorld exampleWritable) = Some w ∧
       firstDatabase w ≠ None ∧ atexitHandlers w = 1.
Proof.
  intros ops.
  destruct (runProcess ops (newWorld exampleWritable)) as [w |] eqn:Hrun;
    [| vm_compute in Hrun; discriminate Hrun].
  assert (firstDatabase w ≠ None) as Hfirst.
  { vm_compute in Hrun. injection Hrun as <-. discriminate. }
  exists w. split; [reflexivity |]. split; [exact Hfirst |].
  destruct (exit_handler_installed_once exampleWritable ops w eq_refl Hrun)
    as (_ & _ & Hinst).
  exact (Hinst Hfirst).
Defined.

(** The first registration of the example process installs the handler. *)
Lemma handler_installed_when_counter_zero_witness :
  registry_ok exampleWorld [] ∧
  ∃ w', registerToSaveAtExit 1 "a.json" exampleWorld = Some w' ∧
        didRegisterAtExit w' = 1%Z ∧ atexitHandlers w' = 1.
Proof.
  split; [apply registry_ok_exampleWorld |].
  destruct (registerToSaveAtExit 1 "a.json" exampleWorld) as [w' |] eqn:Hreg;
    [| vm_compute in Hreg; discriminate Hreg].
  exists w'. split; [reflexivity |].
  assert (- 2 ^ 31 ≤ didRegisterAtExit exampleWorld < 2 ^ 31)%Z as Hrange
    by (simpl; lia).
  destruct (handler_installed_when_counter_zero exampleWorld w' [] 1 "a.json"
              registry_ok_exampleWorld Hrange Hreg)
    as (_ & _ & Hnew).
  exact (Hnew (not_elem_of_nil 1%positive)).
Defined.

(** A store that logged an event, was registered and saved at exit is
    still sound. *)
Lemma live_stores_sound_witness :
  let ops := [PConstruct 1; PStore 1 (OpLogEvent 1000 2 "optimized" "tier2");
              PRegisterToSaveAtExit 1 "a.json"; PAtExitCallback] in
  ∃ w db, runProcess ops (newWorld exampleWritable) = Some w ∧
          heap w !! 1%positive = Some db ∧
          store_inv db ∧ index_consistent db ∧ events_ok db.
Proof.
  intros ops.
  destruct (runProcess ops (newWorld exampleWritable)) as [w |] eqn:Hrun;
    [| vm_compute in Hrun; discriminate Hrun].
  destruct (heap w !! 1%positive) as [db |] eqn:Hx.
  - exists w, db. split; [reflexivity |]. split; [exact Hx |].
    exact (live_stores_sound exampleWritable ops w 1 db Hrun Hx).
  - vm_compute in Hrun. injection Hrun as <-. vm_compute in Hx.
    discriminate Hx.
Defined.

(** After the exit handler has saved the three registered stores, a second
    run changes nothing. *)
Lemma exit_handler_twice_witness :
  registry_ok registeredWorld [3; 2; 1]%positive ∧
  ∃ w', atExitCallback registeredWorld = Some w' ∧
        atExitCallback w' = Some w'.
Proof.
  split; [apply registry_ok_registeredWorld |].
  destruct (atExitCallback registeredWorld) as [w' |] eqn:Hexit;
    [| vm_compute in Hexit; discriminate Hexit].
  exists w'. split; [reflexivity |].
  destruct (exit_handler_twice registeredWorld w' _
              registry_ok_registeredWorld Hexit) as (_ & Hagain & _).
  exact Hagain.
Defined.

(** Store 2 is registered for [b.json], which no other store names: after
    exit the file holds its JSON text. *)
Lemma files_after_exit_witness :
  registry_ok registeredWorld ([3%positive] ++ 2%positive :: [1%positive]) ∧
  ∃ db w',
    heap registeredWorld !! 2%positive = Some db ∧
    m_atExitSaveFilename db = "b.json" ∧
    atExitCallback registeredWorld = Some w' ∧
    files w' !! "b.json" = Some (toJSON db).
Proof.
  split; [apply registry_ok_registeredWorld |].
  destruct (heap registeredWorld !! 2%positive) as [db |] eqn:Hd;
    [| vm_compute in Hd; discriminate Hd].
  assert (m_atExitSaveFilename db = "b.json") as Hname.
  { vm_compute in Hd. injection Hd as <-. reflexivity. }
  destruct (files_after_exit registeredWorld [3%positive] [1%positive] 2 db
              registry_ok_registeredWorld Hd)
    as (w' & Hexit & Hfile & _).
  - rewrite Hname. reflexivity.
  - intros x dbx Hx%list_elem_of_singleton Hdbx. subst x. rewrite Hname.
    vm_compute in Hdbx. injection Hdbx as <-. discriminate.
  - exists db, w'. split; [reflexivity |]. split; [exact Hname |].
    split; [exact Hexit |]. rewrite <- Hname. exact Hfile.
Defined.

(** Store 3 is the head of the list: unlinking it and popping the head
    give the same process. *)
Lemma unlink_head_is_pop_witness :
  firstDatabase registeredWorld = Some 3%positive ∧
  ∃ w', removeFirstAtExitDatabase registeredWorld = Some (Some 3%positive, w') ∧
        removeDatabaseFromAtExit 3 registeredWorld = Some w'.
Proof.
  split; [reflexivity |].
  destruct (heap registeredWorld !! 3%positive) as [db |] eqn:Hd;
    [| vm_compute in Hd; discriminate Hd].
  destruct (unlink_head_is_pop registeredWorld 3 db eq_refl Hd) as [Hpop Hrm].
  eexists. split; [exact Hpop | exact Hrm].
Defined.

(** Unlinking store 2 leaves the list 3, 1. *)
Lemma removeDatabaseFromAtExit_only_unlinks_witness :
  registry_ok registeredWorld [3; 2; 1]%positive ∧
  ∃ w', removeDatabaseFromAtExit 2 registeredWorld = Some w' ∧
        registry_ok w' [3; 1]%positive ∧
        saves w' = saves registeredWorld.
Proof.
  split; [apply registry_ok_registeredWorld |].
  destruct (removeDatabaseFromAtExit_only_unlinks 2 registeredWorld _
              registry_ok_registeredWorld)
    as (w' & Hrm & Hok & (_ & _ & _ & _ & _ & Hs) & _).
  exists w'. split; [exact Hrm |]. split; [exact Hok | exact Hs].
Defined.

(** Destroying store 2 frees its address, leaves the list 3, 1 and saves
    the store to [b.json]. *)
Lemma destructor_effect_witness :
  registry_ok registeredWorld [3; 2; 1]%positive ∧
  ∃ db w',
    heap registeredWorld !! 2%positive = Some db ∧
    destroy 2 registeredWorld = Some w' ∧
    heap w' !! 2%positive = None ∧
    registry_ok w' [3; 1]%positive ∧
    saves w' = [mkSaveCall 2 "b.json" true].
Proof.
  split; [apply registry_ok_registeredWorld |].
  destruct (heap registeredWorld !! 2%positive) as [db |] eqn:Hd;
    [| vm_compute in Hd; discriminate Hd].
  destruct (destructor_effect 2 db registeredWorld _
              registry_ok_registeredWorld Hd)
    as (w' & Hdestroy & Hgone & Hok & _ & _ & Hin).
  exists db, w'. split; [reflexivity |]. split; [exact Hdestroy |].
  split; [exact Hgone |]. split; [exact Hok |].
  destruct Hin as (Hs & _); [repeat constructor |]. exact Hs.
Defined.

End Examples.
